(** * TalkToTube: transcript normalisation, chunking, retrieval and answering

    A shallow embedding of [talktotube/utils/text.py],
    [talktotube/utils/retrieval.py] and [talktotube/agents/qa.py], with
    the functions of [talktotube/pipeline.py] and
    [talktotube/agents/summarize.py] that only cut or forward text.

    Conventions of the embedding.
    - A Python [str] is a list of Unicode code points ([list N]); [len] is
      [length], so the en dash of a citation counts as one character.
    - Python [int]s are [Z]; list indices that the code keeps in range are
      [nat].
    - Python [float]s are idealised as exact numbers: rationals ([Q]) in
      text.py, reals ([R]) in retrieval.py, where a square root is taken.
      Rounding, overflow, underflow and NaN are not modelled there; what
      is proved of the idealised scores is their order and their shape.
      The arithmetic of [cosine_similarity] itself is modelled a second
      time on IEEE 754 binary64, in [Binary64].
    - An optional argument ([x: int = None]) is an [option]; [x or default]
      is [or_default].
    - Code that raises, caches or calls a hosted model runs in the monad
      [M]: a state-and-exception monad over [world]. *)

From Stdlib Require Import String Ascii Bool Arith ZArith NArith Lia.
From Stdlib Require Import DecimalPos Sorted.
From Stdlib Require Import QArith Qround Qminmax.
From Stdlib Require Import Reals Lra.
From Stdlib Require Floats.
From Stdlib Require Import List.
Import ListNotations.
Close Scope R_scope.
Close Scope Q_scope.
Open Scope nat_scope.

Set Implicit Arguments.

(* ================================================================= *)
(** * Part I: definitions *)
(* ================================================================= *)

(** ** Python strings *)

Abbreviation char := N (only parsing).
Abbreviation str := (list N) (only parsing).

(** An ASCII literal as a Python string. *)
Definition lit (s : string) : str :=
  map N_of_ascii (list_ascii_of_string s).

Definition NEWLINE : char := 10%N.
Definition SPACE : char := 32%N.
Definition EN_DASH : char := 8211%N.      (* U+2013 *)
Definition MUSIC_NOTE : char := 9834%N.   (* U+266A *)
Definition LBRACKET : char := 91%N.
Definition RBRACKET : char := 93%N.
Definition LPAREN : char := 40%N.
Definition RPAREN : char := 41%N.
Definition LANGLE : char := 60%N.
Definition RANGLE : char := 62%N.

(** [a == b] on strings. *)
Fixpoint str_eqb (a b : str) : bool :=
  match a, b with
  | [], [] => true
  | x :: a', y :: b' => N.eqb x y && str_eqb a' b'
  | _, _ => false
  end.

(** Truthiness of a string: [if text:]. *)
Definition nonempty (A : Type) (l : list A) : bool :=
  match l with [] => false | _ :: _ => true end.

(** Unicode white space, as [str.strip] and the regular expression [\s]
    read it ([Py_UNICODE_ISSPACE]). *)
Definition isspace (c : char) : bool :=
  ((9 <=? c) && (c <=? 13) || (28 <=? c) && (c <=? 32)
   || (c =? 133) || (c =? 160) || (c =? 5760)
   || (8192 <=? c) && (c <=? 8202)
   || (c =? 8232) || (c =? 8233) || (c =? 8239) || (c =? 8287)
   || (c =? 12288))%N.

Fixpoint lstrip (s : str) : str :=
  match s with
  | [] => []
  | c :: s' => if isspace c then lstrip s' else s
  end.

Fixpoint rstrip (s : str) : str :=
  match s with
  | [] => []
  | c :: s' =>
      match rstrip s' with
      | [] => if isspace c then [] else [c]
      | r => c :: r
      end
  end.

(** [s.strip()] *)
Definition strip (s : str) : str := rstrip (lstrip s).

(** Some character of [s] is not white space: [bool(s.strip())]. *)
Definition has_text (s : str) : bool := existsb (fun c => negb (isspace c)) s.

(** [sep.join(parts)] *)
Fixpoint join (sep : str) (parts : list str) : str :=
  match parts with
  | [] => []
  | [p] => p
  | p :: rest => p ++ sep ++ join sep rest
  end.

(** [s.startswith(prefix)] *)
Fixpoint startswith (prefix s : str) : bool :=
  match prefix, s with
  | [], _ => true
  | _ :: _, [] => false
  | x :: p', y :: s' => N.eqb x y && startswith p' s'
  end.

(** [sub in s] *)
Fixpoint contains (sub s : str) : bool :=
  startswith sub s ||
  match s with
  | [] => false
  | _ :: s' => contains sub s'
  end.

(** [s[:n]], with Python's reading of a negative bound. *)
Definition slice_to (A : Type) (n : Z) (s : list A) : list A :=
  if (n <? 0)%Z
  then firstn (Z.to_nat (Z.of_nat (length s) + n)) s
  else firstn (Z.to_nat n) s.

(** [s[n:]] for a bound [n >= 0]. *)
Definition slice_from (A : Type) (n : nat) (s : list A) : list A := skipn n s.

Definition len (A : Type) (s : list A) : Z := Z.of_nat (length s).

(** [x or default] for an optional number: [None] and zero are falsy. *)
Definition or_default (A : Type) (is_zero : A -> bool) (x : option A) (default : A) : A :=
  match x with
  | None => default
  | Some v => if is_zero v then default else v
  end.

(** Decimal digits of a natural number, most significant first. *)
Fixpoint uint_digits (d : Decimal.uint) : str :=
  match d with
  | Decimal.Nil => []
  | Decimal.D0 d' => 48%N :: uint_digits d'
  | Decimal.D1 d' => 49%N :: uint_digits d'
  | Decimal.D2 d' => 50%N :: uint_digits d'
  | Decimal.D3 d' => 51%N :: uint_digits d'
  | Decimal.D4 d' => 52%N :: uint_digits d'
  | Decimal.D5 d' => 53%N :: uint_digits d'
  | Decimal.D6 d' => 54%N :: uint_digits d'
  | Decimal.D7 d' => 55%N :: uint_digits d'
  | Decimal.D8 d' => 56%N :: uint_digits d'
  | Decimal.D9 d' => 57%N :: uint_digits d'
  end.

Definition decimal (n : N) : str :=
  match n with
  | N0 => [48%N]
  | _ => uint_digits (N.to_uint n)
  end.

(** The format [{z:02d}]: at least two characters, padded with zeros. *)
Definition fmt_02d (z : Z) : str :=
  if (z <? 0)%Z then 45%N :: decimal (Z.to_N (- z))
  else if (z <? 10)%Z then 48%N :: decimal (Z.to_N z)
  else decimal (Z.to_N z).

(** ** Float arithmetic of text.py, on rationals *)

Definition Qltb (x y : Q) : bool := negb (Qle_bool y x).

(** [max(a, b)]: the first argument unless the second is larger. *)
Definition py_max (a b : Q) : Q := if Qltb a b then b else a.

(** [x // m] and [x % m] for a positive modulus. *)
Definition floordiv (x : Q) (m : Z) : Z := Qfloor (x / inject_Z m)%Q.
Definition pymod (x : Q) (m : Z) : Q := (x - inject_Z (m * floordiv x m)%Z)%Q.

(** [int(x)]: truncation towards zero. *)
Definition py_int (x : Q) : Z :=
  if Qle_bool 0%Q x then Qfloor x else Qceiling x.

Definition Qis_zero (x : Q) : bool := Z.eqb (Qnum x) 0%Z.

(* ================================================================= *)
(** ** talktotube/utils/text.py *)
(* ================================================================= *)

(** [format_timestamp] (the module function and the method of
    [TranscriptChunk] have the same body). *)
Definition format_timestamp (seconds : Q) : str :=
  let hours := floordiv seconds 3600%Z in
  let minutes := floordiv (pymod seconds 3600%Z) 60%Z in
  let secs := Qfloor (pymod seconds 60%Z) in
  if (0 <? hours)%Z
  then fmt_02d hours ++ lit ":" ++ fmt_02d minutes ++ lit ":" ++ fmt_02d secs
  else fmt_02d minutes ++ lit ":" ++ fmt_02d secs.

Record TranscriptChunk := mkChunk {
  text : str;
  start_time : Q;
  end_time : Q;
  chunk_id : Z
}.

Definition get_citation (c : TranscriptChunk) : str :=
  lit "[" ++ format_timestamp (start_time c) ++ [EN_DASH]
          ++ format_timestamp (end_time c) ++ lit "]".

(** *** Cleaning *)

(** Where the regular expression [.*?C] first succeeds from the head of
    [s]: the number of characters before the first [close], none of them
    a line feed. *)
Fixpoint find_close (close : char) (s : str) : option nat :=
  match s with
  | [] => None
  | c :: s' =>
      if N.eqb c close then Some O
      else if N.eqb c NEWLINE then None
      else option_map S (find_close close s')
  end.

(** [re.sub(r'O.*?C', '', s)] for one-character delimiters [O] and [C]:
    [skip] counts the characters of the current match still to drop. *)
Fixpoint sub_span_from (open close : char) (skip : nat) (s : str) : str :=
  match s with
  | [] => []
  | c :: s' =>
      match skip with
      | S k => sub_span_from open close k s'
      | O =>
          if N.eqb c open then
            match find_close close s' with
            | Some n => sub_span_from open close (S n) s'
            | None => c :: sub_span_from open close O s'
            end
          else c :: sub_span_from open close O s'
      end
  end.

Definition sub_span (open close : char) (s : str) : str :=
  sub_span_from open close O s.

(** [re.sub(r'\s+', ' ', s)]; [in_run] says the previous character was
    white space. *)
Fixpoint collapse_from (in_run : bool) (s : str) : str :=
  match s with
  | [] => []
  | c :: s' =>
      if isspace c
      then (if in_run then collapse_from true s' else SPACE :: collapse_from true s')
      else c :: collapse_from false s'
  end.

Definition collapse_whitespace (s : str) : str := collapse_from false s.

Definition clean_transcript_text (text : str) : str :=
  if negb (nonempty text) then []
  else
    let text := sub_span LBRACKET RBRACKET text in      (* \[.*?\] *)
    let text := sub_span LPAREN RPAREN text in          (* \(.*?\) *)
    let text := sub_span LANGLE RANGLE text in          (* <.*?>   *)
    let text := sub_span MUSIC_NOTE MUSIC_NOTE text in  (* ♪.*?♪   *)
    let text := collapse_whitespace text in
    let text := strip text in
    if (length text <? 3)%nat then [] else text.

(** The pipeline of [clean_transcript_text] before the length test. *)
Definition cleaned (text : str) : str :=
  strip (collapse_whitespace
    (sub_span MUSIC_NOTE MUSIC_NOTE
      (sub_span LANGLE RANGLE
        (sub_span LPAREN RPAREN
          (sub_span LBRACKET RBRACKET text))))).

(** What cleaning is meant to leave: no [open] with a [close] after it, *)
Fixpoint has_span (open close : char) (s : str) : bool :=
  match s with
  | [] => false
  | c :: s' => (N.eqb c open && existsb (N.eqb close) s') || has_span open close s'
  end.

(** no white space but single spaces ([prev] says the previous character
    was white space), *)
Fixpoint single_spaced_from (prev : bool) (s : str) : bool :=
  match s with
  | [] => true
  | c :: s' =>
      if isspace c
      then N.eqb c SPACE && negb prev && single_spaced_from true s'
      else single_spaced_from false s'
  end.

Definition single_spaced (s : str) : bool := single_spaced_from false s.

(** and no line feed. *)
Definition one_line (s : str) : Prop := ~ In NEWLINE s.

(** [a] is [b] with some characters deleted. *)
Inductive subseq : str -> str -> Prop :=
| subseq_nil : subseq [] []
| subseq_drop : forall c a b, subseq a b -> subseq a (c :: b)
| subseq_keep : forall c a b, subseq a b -> subseq (c :: a) (c :: b).

(** *** Merging *)

(** A raw segment: a dictionary read with [segment.get(key, default)]. *)
Record raw_segment := mkRaw {
  raw_text : option str;
  raw_start : option Q;
  raw_duration : option Q
}.

(** A normalised segment: the dictionary with keys
    ['text'], ['start'], ['duration']. *)
Record segment := mkSegment {
  seg_text : str;
  seg_start : Q;
  seg_duration : Q
}.

(** The body of the [if]/[else] of [merge_short_segments]: the new
    accumulator, and the segment flushed to [merged], if any. *)
Definition merge_step (min_duration : Q) (current_segment next_segment : segment)
  : segment * option segment :=
  let current_duration := seg_duration current_segment in
  if Qltb current_duration min_duration then
    let next_end := (seg_start next_segment + seg_duration next_segment)%Q in
    let current_end := (seg_start current_segment + seg_duration current_segment)%Q in
    (mkSegment (seg_text current_segment ++ lit " " ++ seg_text next_segment)
               (seg_start current_segment)
               (py_max next_end current_end - seg_start current_segment)%Q,
     None)
  else (next_segment, Some current_segment).

(** The [for] loop of [merge_short_segments] and the final append. *)
Fixpoint merge_loop (min_duration : Q) (merged : list segment)
    (current_segment : segment) (rest : list segment) : list segment :=
  match rest with
  | [] => merged ++ [current_segment]
  | next_segment :: rest' =>
      match merge_step min_duration current_segment next_segment with
      | (current', None) => merge_loop min_duration merged current' rest'
      | (current', Some done) => merge_loop min_duration (merged ++ [done]) current' rest'
      end
  end.

Definition merge_short_segments (segments : list segment) (min_duration : Q)
  : list segment :=
  match segments with
  | [] => []
  | first :: rest => merge_loop min_duration [] first rest
  end.

Definition DEFAULT_MIN_DURATION : Q := 2%Q.

(** The merge pass in the specification's words: a left fold over the
    segments after the first, on the pair of the lines finished so far and
    the accumulator. *)
Definition spec_merge_step (min_duration : Q) (state : list segment * segment)
    (next : segment) : list segment * segment :=
  let (finished, acc) := state in
  if Qlt_le_dec (seg_duration acc) min_duration
  then
    let acc_end := (seg_start acc + seg_duration acc)%Q in
    let next_end := (seg_start next + seg_duration next)%Q in
    (finished,
     mkSegment (seg_text acc ++ lit " " ++ seg_text next)
               (seg_start acc)
               (Qmax acc_end next_end - seg_start acc)%Q)
  else (finished ++ [acc], next).

Definition spec_merge (segments : list segment) (min_duration : Q) : list segment :=
  match segments with
  | [] => []
  | first :: rest =>
      let (finished, acc) := fold_left (spec_merge_step min_duration) rest ([], first) in
      finished ++ [acc]
  end.

(** Two segments that differ at most in how the duration is written as a
    fraction. *)
Definition segment_equiv (a b : segment) : Prop :=
  seg_text a = seg_text b /\ seg_start a = seg_start b
  /\ (seg_duration a == seg_duration b)%Q.

(** *** Normalising *)

(** One iteration of the first loop of [normalize_transcript]: the
    segment appended to [normalized_segments], if any. *)
Definition normalize_segment (s : raw_segment) : option segment :=
  let text := strip (match raw_text s with Some t => t | None => [] end) in
  if negb (nonempty text) then None
  else
    let text := clean_transcript_text text in
    if negb (nonempty text) then None
    else Some (mkSegment text
                 (match raw_start s with Some x => x | None => 0%Q end)
                 (match raw_duration s with Some x => x | None => 0%Q end)).

Fixpoint normalized_segments (transcript_data : list raw_segment) : list segment :=
  match transcript_data with
  | [] => []
  | s :: rest =>
      match normalize_segment s with
      | Some n => n :: normalized_segments rest
      | None => normalized_segments rest
      end
  end.

Definition render_line (s : segment) : str :=
  lit "[" ++ format_timestamp (seg_start s) ++ lit "] " ++ seg_text s.

Definition normalize_transcript (transcript_data : list raw_segment) : str :=
  if negb (nonempty transcript_data) then []
  else
    let merged_segments :=
      merge_short_segments (normalized_segments transcript_data) DEFAULT_MIN_DURATION in
    join [NEWLINE] (map render_line merged_segments).

(** The number of lines of a newline-joined text: none for the empty
    string. *)
Definition line_count (s : str) : nat :=
  match s with
  | [] => O
  | _ => S (count_occ N.eq_dec s NEWLINE)
  end.


(** *** Chunking *)

Definition CHUNK_SIZE_TOKENS : Z := 1000%Z.
Definition CHUNK_OVERLAP_PERCENT : Q := (125 # 1000)%Q.

Definition estimate_tokens (text : str) : Z := (len text / 4)%Z.

(** A parsed transcript line: the dictionary with keys ['text'] and
    ['start_time'] (the third key, ['line'], is never read). *)
Record parsed_line := mkLine {
  line_text : str;
  line_start : Q
}.

(** **** Parsing [[timestamp] text] lines *)

(** [s.split(sep)] for a one-character separator; [cur] is the piece
    being read. *)
Fixpoint split_from (sep : char) (cur : str) (s : str) : list str :=
  match s with
  | [] => [cur]
  | c :: s' =>
      if N.eqb c sep then cur :: split_from sep [] s'
      else split_from sep (cur ++ [c]) s'
  end.

Definition split (sep : char) (s : str) : list str := split_from sep [] s.

(** The value of a decimal digit.  Only the ASCII digits are modelled;
    [\d] and [int] also accept the other decimal digits of Unicode. *)
Definition digit_value (c : char) : option Z :=
  if ((48 <=? c) && (c <=? 57))%N then Some (Z.of_N c - 48)%Z else None.

(** [int(s)] for a string of digits; [None] stands for [ValueError]. *)
Fixpoint int_from (acc : Z) (s : str) : option Z :=
  match s with
  | [] => Some acc
  | c :: s' =>
      match digit_value c with
      | Some d => int_from (10 * acc + d)%Z s'
      | None => None
      end
  end.

Definition int_of_str (s : str) : option Z :=
  match s with
  | [] => None
  | _ => int_from 0%Z s
  end.

(** [parse_timestamp]; [None] stands for the [ValueError] of [int]. *)
Definition parse_timestamp (timestamp_str : str) : option Q :=
  match split 58%N timestamp_str with
  | [minutes; seconds] =>
      match int_of_str minutes, int_of_str seconds with
      | Some m, Some s => Some (inject_Z (m * 60 + s))
      | _, _ => None
      end
  | [hours; minutes; seconds] =>
      match int_of_str hours, int_of_str minutes, int_of_str seconds with
      | Some h, Some m, Some s => Some (inject_Z (h * 3600 + m * 60 + s))
      | _, _, _ => None
      end
  | _ => Some 0%Q
  end.

Definition expect (c : char) (s : str) : option str :=
  match s with
  | x :: s' => if N.eqb x c then Some s' else None
  | [] => None
  end.

Definition digit (s : str) : option (char * str) :=
  match s with
  | x :: s' => match digit_value x with Some _ => Some (x, s') | None => None end
  | [] => None
  end.

Definition or_else (A : Type) (a b : option A) : option A :=
  match a with Some _ => a | None => b end.

Definition and_then (A B : Type) (a : option A) (k : A -> option B) : option B :=
  match a with Some x => k x | None => None end.

(** [:\d{2}(?::\d{2})?\]] after the group [pre] of one or two digits: the
    whole time stamp and what follows the closing bracket. *)
Definition match_after_minutes (pre : str) (s : str) : option (str * str) :=
  and_then (expect 58%N s) (fun s1 =>
  and_then (digit s1) (fun '(d1, s2) =>
  and_then (digit s2) (fun '(d2, s3) =>
    let mm_ss := pre ++ [58%N; d1; d2] in
    or_else
      (and_then (expect 58%N s3) (fun s4 =>
       and_then (digit s4) (fun '(e1, s5) =>
       and_then (digit s5) (fun '(e2, s6) =>
       and_then (expect RBRACKET s6) (fun s7 =>
         Some (mm_ss ++ [58%N; e1; e2], s7))))))
      (and_then (expect RBRACKET s3) (fun s4 => Some (mm_ss, s4)))))).

(** The two groups of [re.match] on the line pattern: a bracketed time
    stamp of one or two digits, a colon, two digits and optionally a colon
    and two more digits; then any white space; then the rest of the line. *)
Definition match_line (line : str) : option (str * str) :=
  and_then (expect LBRACKET line) (fun s0 =>
  and_then
    (or_else
       (and_then (digit s0) (fun '(a, s1) =>
        and_then (digit s1) (fun '(b, s2) => match_after_minutes [a; b] s2)))
       (and_then (digit s0) (fun '(a, s1) => match_after_minutes [a] s1)))
    (fun '(timestamp_str, rest) => Some (timestamp_str, lstrip rest))).

(** The body of the parsing loop for one line: the segment appended, if
    any.  ([int] cannot fail on a group that [\d] matched.) *)
Definition parse_line (line : str) : option parsed_line :=
  if negb (nonempty (strip line)) then None
  else
    and_then (match_line line) (fun '(timestamp_str, text) =>
    and_then (parse_timestamp timestamp_str) (fun start_time =>
      Some (mkLine text start_time))).

Fixpoint parse_lines (lines : list str) : list parsed_line :=
  match lines with
  | [] => []
  | line :: rest =>
      match parse_line line with
      | Some s => s :: parse_lines rest
      | None => parse_lines rest
      end
  end.

(** **** The chunking loop *)

(** The inner [while]: from the segments not yet consumed, with the state
    [(chunk_text_parts, chunk_end_time, current_tokens, j)]. *)
Fixpoint accumulate (chunk_size : Z) (rest : list parsed_line)
    (chunk_text_parts : list str) (chunk_end_time : Q) (current_tokens : Z)
    (j : nat) : list str * Q * Z * nat :=
  match rest with
  | [] => (chunk_text_parts, chunk_end_time, current_tokens, j)
  | segment :: rest' =>
      if (current_tokens <? chunk_size)%Z then
        let segment_text := line_text segment in
        let segment_tokens := estimate_tokens segment_text in
        if (current_tokens + segment_tokens <=? chunk_size)%Z
           || (length chunk_text_parts =? 0)
        then accumulate chunk_size rest'
               (chunk_text_parts ++ [segment_text]) (line_start segment)
               (current_tokens + segment_tokens)%Z (S j)
        else (chunk_text_parts, chunk_end_time, current_tokens, j)
      else (chunk_text_parts, chunk_end_time, current_tokens, j)
  end.

(** [i = max(i + 1, j - overlap_segments)], where [overlap_segments] is
    [max(1, int(len(chunk_text_parts) * overlap_percent))].  The product
    is exact here; Python rounds it to binary64 before [int], which raises
    when the product is infinite or NaN, as it can be for an overlap that
    is not between 0 and 1. *)
Definition next_start (i j : nat) (n_parts : Z) (overlap_percent : Q) : nat :=
  let overlap_segments := Z.max 1 (py_int (inject_Z n_parts * overlap_percent)%Q) in
  Z.to_nat (Z.max (Z.of_nat i + 1) (Z.of_nat j - overlap_segments)).

(** The outer [while], on the state [(i, chunk_id, chunks)].  [fuel]
    bounds the number of iterations; [None] means it ran out. *)
Fixpoint chunk_loop (fuel : nat) (segments : list parsed_line) (chunk_size : Z)
    (overlap_percent : Q) (i : nat) (chunk_id : Z) (chunks : list TranscriptChunk)
  : option (list TranscriptChunk) :=
  match nth_error segments i with
  | None => Some chunks
  | Some first =>
      match fuel with
      | O => None
      | S fuel' =>
          let chunk_start_time := line_start first in
          let '(chunk_text_parts, chunk_end_time, _, j) :=
            accumulate chunk_size (skipn i segments) [] chunk_start_time 0%Z i in
          let chunk_text := join (lit " ") chunk_text_parts in
          let '(chunks', chunk_id') :=
            if nonempty (strip chunk_text)
            then (chunks ++ [mkChunk chunk_text chunk_start_time chunk_end_time chunk_id],
                  (chunk_id + 1)%Z)
            else (chunks, chunk_id) in
          chunk_loop fuel' segments chunk_size overlap_percent
            (next_start i j (len chunk_text_parts) overlap_percent) chunk_id' chunks'
      end
  end.

Definition Z_is_zero (z : Z) : bool := Z.eqb z 0.

(** [chunk_transcript] from the parsed [segments] on. *)
Definition chunk_segments (segments : list parsed_line)
    (chunk_size : option Z) (overlap_percent : option Q)
  : option (list TranscriptChunk) :=
  let chunk_size := or_default Z_is_zero chunk_size CHUNK_SIZE_TOKENS in
  let overlap_percent := or_default Qis_zero overlap_percent CHUNK_OVERLAP_PERCENT in
  if negb (nonempty segments) then Some []
  else chunk_loop (length segments) segments chunk_size overlap_percent 0 0%Z [].

Definition chunk_transcript (transcript_text : str)
    (chunk_size : option Z) (overlap_percent : option Q)
  : option (list TranscriptChunk) :=
  let lines := split NEWLINE (strip transcript_text) in
  chunk_segments (parse_lines lines) chunk_size overlap_percent.

(** **** Reading the loop as a sequence of windows *)

(** The window [[i, j)] of each iteration, in order. *)
Fixpoint chunk_windows (fuel : nat) (segments : list parsed_line) (chunk_size : Z)
    (overlap_percent : Q) (i : nat) : list (nat * nat) :=
  match nth_error segments i with
  | None => []
  | Some first =>
      match fuel with
      | O => []
      | S fuel' =>
          let '(chunk_text_parts, _, _, j) :=
            accumulate chunk_size (skipn i segments) [] (line_start first) 0%Z i in
          (i, j) :: chunk_windows fuel' segments chunk_size overlap_percent
                      (next_start i j (len chunk_text_parts) overlap_percent)
      end
  end.

Definition window_lines (segments : list parsed_line) (w : nat * nat)
  : list parsed_line :=
  firstn (snd w - fst w) (skipn (fst w) segments).

Definition window_text (segments : list parsed_line) (w : nat * nat) : str :=
  join (lit " ") (map line_text (window_lines segments w)).

Definition sum_tokens (lines : list parsed_line) : Z :=
  fold_right Z.add 0%Z (map (fun s => estimate_tokens (line_text s)) lines).

Definition window_tokens (segments : list parsed_line) (i j : nat) : Z :=
  sum_tokens (window_lines segments (i, j)).

Definition start_of (segments : list parsed_line) (k : nat) : Q :=
  match nth_error segments k with
  | Some s => line_start s
  | None => 0%Q
  end.

(** The chunks a sequence of windows gives rise to: one per window whose
    text is not blank, numbered from [chunk_id] on. *)
Fixpoint emit (segments : list parsed_line) (ws : list (nat * nat)) (chunk_id : Z)
  : list TranscriptChunk :=
  match ws with
  | [] => []
  | w :: ws' =>
      if nonempty (strip (window_text segments w))
      then mkChunk (window_text segments w)
                   (start_of segments (fst w)) (start_of segments (snd w - 1))
                   chunk_id
           :: emit segments ws' (chunk_id + 1)%Z
      else emit segments ws' chunk_id
  end.

(** What the inner loop does from line [i]: it takes line [i], then each
    further line as long as the estimate so far is under the budget and
    stays at or under it with the line; it stops at the end of the input,
    when the budget is reached, or before a line that would exceed it. *)
Definition window_of (segments : list parsed_line) (chunk_size : Z) (i j : nat)
  : Prop :=
  i < j <= length segments
  /\ (forall m, i < m < j ->
        (window_tokens segments i m < chunk_size)%Z
        /\ (window_tokens segments i (S m) <= chunk_size)%Z)
  /\ (j = length segments
      \/ (chunk_size <= window_tokens segments i j)%Z
      \/ (chunk_size < window_tokens segments i (S j))%Z).

(** The window as the specification words it: the longest run of lines
    from [i] whose estimate stays at or under the budget, and line [i]
    alone when it exceeds the budget. *)
Definition greedy_window (segments : list parsed_line) (chunk_size : Z) (i j : nat)
  : Prop :=
  i < j <= length segments
  /\ (j = i + 1 \/ (window_tokens segments i j <= chunk_size)%Z)
  /\ (j = length segments \/ (chunk_size < window_tokens segments i (S j))%Z).

(** The number of lines the inner loop takes from [rest], entered with
    [current_tokens = tokens]; [first] says no line was taken yet. *)
Fixpoint accepted (chunk_size : Z) (rest : list parsed_line) (first : bool)
    (tokens : Z) : nat :=
  match rest with
  | [] => O
  | segment :: rest' =>
      let segment_tokens := estimate_tokens (line_text segment) in
      if (tokens <? chunk_size)%Z then
        if (tokens + segment_tokens <=? chunk_size)%Z || first
        then S (accepted chunk_size rest' false (tokens + segment_tokens)%Z)
        else O
      else O
  end.

(** The number of lines of the window that starts at line [i]. *)
Definition window_size (segments : list parsed_line) (chunk_size : Z) (i : nat) : nat :=
  accepted chunk_size (skipn i segments) true 0%Z.

(** The windows of a run: each starts where the overlap rule puts it. *)
Inductive window_chain (segments : list parsed_line) (chunk_size : Z)
    (overlap_percent : Q) : nat -> list (nat * nat) -> Prop :=
| chain_end : forall i,
    length segments <= i ->
    window_chain segments chunk_size overlap_percent i []
| chain_next : forall i j ws,
    window_of segments chunk_size i j ->
    window_chain segments chunk_size overlap_percent
      (Nat.max (i + 1)
         (j - Z.to_nat (Z.max 1 (Qfloor (inject_Z (Z.of_nat (j - i)) * overlap_percent)%Q))))
      ws ->
    window_chain segments chunk_size overlap_percent i ((i, j) :: ws).

(* ================================================================= *)
(** ** Exceptions, the cache and the hosted models *)
(* ================================================================= *)

Inductive exn :=
| ValueError (msg : str)
| TypeError (msg : str)
| AttributeError (msg : str)
| ServiceError (code : nat).   (* whatever a call to a hosted model raises *)

Inductive result (A : Type) :=
| Ok (value : A)
| Raise (e : exn).

Arguments Raise {A} e.

(** A decoded response of the text-generation service. *)
#[local] Unset Elimination Schemes.
Inductive pyval :=
| VNone
| VNum (z : Z)
| VStr (s : str)
| VList (items : list pyval)
| VDict (items : list (str * pyval)).
#[local] Set Elimination Schemes.

(** An embedding: a one-dimensional array of floats. *)
Abbreviation vec := (list R) (only parsing).

(** The calls made to the hosted models. *)
Inductive call :=
| FeatureExtraction (text : str)
| TextGeneration (prompt : str).

(** The mutable state: [EmbeddingRetriever.embeddings_cache], and the log
    of the calls made so far. *)
Record world := mkWorld {
  embeddings_cache : list (str * list R);
  calls : list call
}.

(** What the code takes from outside the repository: the two hosted
    models (their answer may depend on the calls made before), the
    environment switch [Config.OFFLINE_MODE], [hashlib.md5], Python's case
    tables and Python's [str()] of a value that is not a string. *)
Record runtime := mkRuntime {
  feature_extraction : list call -> str -> result (list R);
  text_generation : list call -> str -> result pyval;
  OFFLINE_MODE : bool;
  md5_hexdigest : str -> str;
  char_isupper : char -> bool;
  char_islower : char -> bool;
  str_lower : str -> str;
  str_upper : str -> str;
  py_repr : pyval -> str
}.

(** State and exceptions.  A handler sees the state as the failed
    computation left it. *)
Definition M (A : Type) : Type := world -> result A * world.

Definition ret (A : Type) (a : A) : M A := fun w => (Ok a, w).

Definition raise (A : Type) (e : exn) : M A := fun w => (Raise e, w).

Arguments raise {A} e.

Definition bind (A B : Type) (m : M A) (k : A -> M B) : M B :=
  fun w =>
    match m w with
    | (Ok a, w') => k a w'
    | (Raise e, w') => (Raise e, w')
    end.

(** [try: m except Exception as e: handler(e)] *)
Definition try_except (A : Type) (m : M A) (handler : exn -> M A) : M A :=
  fun w =>
    match m w with
    | (Ok a, w') => (Ok a, w')
    | (Raise e, w') => handler e w'
    end.

(** A computation that only may raise. *)
Definition lift (A : Type) (r : result A) : M A := fun w => (r, w).

Notation "x <- m ;; k" := (bind m (fun x => k))
  (at level 61, m at next level, right associativity).
Notation "m ;;; k" := (bind m (fun _ => k))
  (at level 61, right associativity).

(* ================================================================= *)
(** ** talktotube/config.py *)
(* ================================================================= *)

Definition SIMILARITY_THRESHOLD : R := (35 / 100)%R.
Definition TOP_K_CHUNKS : Z := 5%Z.
Definition MAX_RETRIES : nat := 3.
Definition MAX_CONTEXT_LENGTH : Z := 2000%Z.

(* ================================================================= *)
(** ** talktotube/utils/retrieval.py *)
(* ================================================================= *)

Definition Req_bool (x y : R) : bool := if Req_dec_T x y then true else false.
Definition Rle_bool (x y : R) : bool := if Rle_dec x y then true else false.
Definition Rlt_bool (x y : R) : bool := if Rlt_dec x y then true else false.

Definition R_is_zero (x : R) : bool := Req_bool x 0%R.

(** [rate_limit_retry]: up to [MAX_RETRIES] attempts; the last exception
    is raised when all fail.  (The pauses between attempts are not
    modelled.) *)
Fixpoint retry_from (A : Type) (func : M A) (attempts : nat) (last_exception : exn)
  : M A :=
  match attempts with
  | O => raise last_exception
  | S n => try_except func (fun e => retry_from func n e)
  end.

Definition rate_limit_retry (A : Type) (func : M A) : M A :=
  retry_from func MAX_RETRIES (TypeError (lit "exceptions must derive from BaseException")).

(** [np.dot] of two one-dimensional arrays of the same length. *)
Fixpoint dot (a b : list R) : R :=
  match a, b with
  | x :: a', y :: b' => (x * y + dot a' b')%R
  | _, _ => 0%R
  end.

(** [np.dot]: arrays of different lengths are refused. *)
Definition np_dot (a b : list R) : result R :=
  if length a =? length b then Ok (dot a b)
  else Raise (ValueError (lit "shapes not aligned")).

(** [np.linalg.norm] *)
Definition norm (v : list R) : R := sqrt (dot v v).

Definition cosine_similarity (vec1 vec2 : list R) : result R :=
  let norm1 := norm vec1 in
  let norm2 := norm vec2 in
  if Req_bool norm1 0%R || Req_bool norm2 0%R then Ok 0%R
  else
    match np_dot vec1 vec2 with
    | Ok d => Ok (d / (norm1 * norm2))%R
    | Raise e => Raise e
    end.

Definition generate_mock_embedding (rt : runtime) (text : str) : list R :=
  let text_hash := md5_hexdigest rt text in
  let embedding_dim := 384 in
  let n := INR (length text) in
  let text_features :=
    [ (n / 1000)%R;
      if nonempty text then (INR (count_occ N.eq_dec text SPACE) / n)%R else 0%R;
      if nonempty text then (INR (length (filter (char_isupper rt) text)) / n)%R else 0%R ] in
  let embedding :=
    map (fun i =>
           let hash_idx := i mod length text_hash in
           let char_val := (IZR (Z.of_N (nth hash_idx text_hash 0%N)) / 255)%R in
           let feature_val := nth (i mod length text_features) text_features 0%R in
           ((char_val + feature_val) / 2)%R)
        (seq 0 embedding_dim) in
  let norm := norm embedding in
  if Rlt_bool 0%R norm then map (fun x => (x / norm)%R) embedding else embedding.

Fixpoint cache_lookup (cache : list (str * list R)) (text : str) : option (list R) :=
  match cache with
  | [] => None
  | (key, v) :: cache' => if str_eqb key text then Some v else cache_lookup cache' text
  end.

(** [self.embeddings_cache[text] = embedding] *)
Definition cache_store (text : str) (embedding : list R) : M unit :=
  fun w =>
    (Ok tt,
     mkWorld ((text, embedding)
                :: filter (fun kv => negb (str_eqb (fst kv) text)) (embeddings_cache w))
             (calls w)).

(** [self.client.feature_extraction(text=text, model=...)], flattened. *)
Definition call_feature_extraction (rt : runtime) (text : str) : M (list R) :=
  fun w =>
    (feature_extraction rt (calls w) text,
     mkWorld (embeddings_cache w) (calls w ++ [FeatureExtraction text])).

Definition get_embedding (rt : runtime) (text : str) : M (list R) :=
  fun w =>
    match cache_lookup (embeddings_cache w) text with
    | Some embedding => (Ok embedding, w)
    | None =>
        if OFFLINE_MODE rt then
          (let embedding := generate_mock_embedding rt text in
           cache_store text embedding ;;; ret embedding) w
        else
          try_except
            (embedding <- rate_limit_retry (call_feature_extraction rt text) ;;
             cache_store text embedding ;;;
             ret embedding)
            (fun _ =>
               let embedding := generate_mock_embedding rt text in
               cache_store text embedding ;;; ret embedding)
            w
    end.

(** The loop that fills [similarities]. *)
Fixpoint score_chunks (query_embedding : list R) (chunks : list TranscriptChunk)
    (chunk_embeddings : list (list R)) : result (list (TranscriptChunk * R)) :=
  match chunks, chunk_embeddings with
  | chunk :: chunks', chunk_embedding :: embeddings' =>
      match cosine_similarity query_embedding chunk_embedding with
      | Raise e => Raise e
      | Ok similarity =>
          match score_chunks query_embedding chunks' embeddings' with
          | Raise e => Raise e
          | Ok rest => Ok ((chunk, similarity) :: rest)
          end
      end
  | _, _ => Ok []
  end.

(** [similarities.sort(key=lambda x: x[1], reverse=True)]: a stable sort
    by descending score.  Inserting [p], which stood before all of [l],
    puts it before the first entry that does not score higher. *)
Fixpoint insert_desc (p : TranscriptChunk * R) (l : list (TranscriptChunk * R))
  : list (TranscriptChunk * R) :=
  match l with
  | [] => [p]
  | q :: l' => if Rlt_bool (snd p) (snd q) then q :: insert_desc p l' else p :: l
  end.

Fixpoint sort_desc (l : list (TranscriptChunk * R)) : list (TranscriptChunk * R) :=
  match l with
  | [] => []
  | p :: l' => insert_desc p (sort_desc l')
  end.

Definition find_similar_chunks (rt : runtime) (query : str)
    (chunks : list TranscriptChunk) (chunk_embeddings : list (list R))
    (top_k : option Z) (threshold : option R)
  : M (list (TranscriptChunk * R)) :=
  let top_k := or_default Z_is_zero top_k TOP_K_CHUNKS in
  let threshold := or_default R_is_zero threshold SIMILARITY_THRESHOLD in
  if negb (length chunks =? length chunk_embeddings) then
    raise (ValueError (lit "Number of chunks and embeddings must match"))
  else
    query_embedding <- get_embedding rt query ;;
    similarities <- lift (score_chunks query_embedding chunks chunk_embeddings) ;;
    let similarities := sort_desc similarities in
    let filtered_results :=
      slice_to top_k (filter (fun p => Rle_bool threshold (snd p)) similarities) in
    ret filtered_results.

(** The ranking of [find_similar_chunks], from the scores on: sort, keep
    the entries at or above the threshold, cut to [top_k]. *)
Definition rank (top_k : Z) (threshold : R) (similarities : list (TranscriptChunk * R))
  : list (TranscriptChunk * R) :=
  slice_to top_k (filter (fun p => Rle_bool threshold (snd p)) (sort_desc similarities)).

(** The body of the loop of [prepare_context], from the state
    [(context_parts, current_length)]; the result is [context_parts] when
    the loop ends or breaks. *)
Fixpoint context_loop (max_length : Z) (similar_chunks : list (TranscriptChunk * R))
    (context_parts : list str) (current_length : Z) : list str :=
  match similar_chunks with
  | [] => context_parts
  | (chunk, score) :: rest =>
      let citation := get_citation chunk in
      let chunk_text := text chunk ++ lit " " ++ citation in
      if (current_length + len chunk_text + 2 >? max_length)%Z && nonempty context_parts
      then context_parts
      else
        let chunk_text :=
          if negb (nonempty context_parts) && (len chunk_text >? max_length)%Z
          then
            let available_length := (max_length - len citation - 1)%Z in
            let truncated_text := slice_to available_length (text chunk) in
            truncated_text ++ lit " " ++ citation
          else chunk_text in
        context_loop max_length rest (context_parts ++ [chunk_text])
                     (current_length + len chunk_text + 2)%Z
  end.

Definition BLANK_LINE : str := [NEWLINE; NEWLINE].

Definition prepare_context (similar_chunks : list (TranscriptChunk * R))
    (max_length : option Z) : str :=
  let max_length := or_default Z_is_zero max_length MAX_CONTEXT_LENGTH in
  if negb (nonempty similar_chunks) then []
  else join BLANK_LINE (context_loop max_length similar_chunks [] 0%Z).

(** The block of a ranked chunk: ["{chunk.text} {citation}"]. *)
Definition block (chunk : TranscriptChunk) : str :=
  text chunk ++ lit " " ++ get_citation chunk.

(** The first block cut to the budget, its citation kept. *)
Definition truncated_block (max_length : Z) (chunk : TranscriptChunk) : str :=
  slice_to (max_length - len (get_citation chunk) - 1)%Z (text chunk)
  ++ lit " " ++ get_citation chunk.

(** What [current_length] counts: each part and two more characters. *)
Definition counted (parts : list str) : Z :=
  fold_right (fun p acc => (len p + 2 + acc)%Z) 0%Z parts.

(** Descending order of the scores. *)
Fixpoint sorted_desc (l : list (TranscriptChunk * R)) : Prop :=
  match l with
  | [] => True
  | p :: l' => Forall (fun q => (snd q <= snd p)%R) l' /\ sorted_desc l'
  end.

(** The entries of [l] that score exactly [s], in the order of [l]. *)
Definition with_score (s : R) (l : list (TranscriptChunk * R))
  : list (TranscriptChunk * R) :=
  filter (fun p => Req_bool (snd p) s) l.

(* ================================================================= *)
(** ** talktotube/agents/qa.py *)
(* ================================================================= *)

(** The index of a [QAAgent]: [self.chunks] and [self.chunk_embeddings]. *)
Record QAAgent := mkAgent {
  chunks : list TranscriptChunk;
  chunk_embeddings : list (list R)
}.

Definition NOT_FOUND : str := lit "Not found in video.".
Definition NOTHING_INDEXED : str := lit "No content has been indexed for Q&A.".
Definition GENERATION_ERROR : str :=
  lit "I encountered an error while generating the answer.".
Definition PROCESSING_ERROR : str :=
  lit "I encountered an error while processing your question.".

(** [Config.QA_PROMPT_TEMPLATE.format(context=..., question=...)] *)
Definition format_prompt (context question : str) : str :=
  lit "Answer the following question using ONLY the provided context. "
  ++ lit "If the context does not contain the answer, reply 'Not found in video.' "
  ++ lit "Context: " ++ context ++ lit " Question: " ++ question ++ lit " Answer:".

Definition build_prompt (question context : str) : str :=
  let prompt := format_prompt context question in
  if (len prompt >? MAX_CONTEXT_LENGTH)%Z then
    let available_length := (MAX_CONTEXT_LENGTH - len question - 200)%Z in
    let truncated_context := slice_to available_length context in
    format_prompt truncated_context question
  else prompt.

(** [self.client.text_generation(prompt=prompt, ...)] *)
Definition call_text_generation (rt : runtime) (prompt : str) : M pyval :=
  fun w =>
    (text_generation rt (calls w) prompt,
     mkWorld (embeddings_cache w) (calls w ++ [TextGeneration prompt])).

(** [any(word in question_lower for word in words)] *)
Definition any_in (words : list str) (s : str) : bool :=
  existsb (fun word => contains word s) words.

Definition generate_offline_answer (rt : runtime) (question context : str) : str :=
  let question_lower := str_lower rt question in
  if any_in [lit "what"; lit "define"; lit "explain"] question_lower then
    if contains (lit "machine learning") question_lower then
      lit "Machine learning is a subset of artificial intelligence that enables computers to learn from data."
    else if contains (lit "supervised") question_lower then
      lit "Supervised learning uses labeled data to train models to make predictions."
    else if contains (lit "neural network") question_lower then
      lit "Neural networks are computing systems inspired by biological neural networks."
    else
      lit "This concept is explained in the video content with relevant examples."
  else if any_in [lit "how"; lit "process"; lit "work"] question_lower then
    lit "The process involves multiple steps as described in the video, including data preparation and model training."
  else if any_in [lit "why"; lit "reason"; lit "benefit"] question_lower then
    lit "This approach is beneficial because it provides accurate results and is widely applicable."
  else if any_in [lit "when"; lit "time"; lit "use"] question_lower then
    lit "This technique is typically used when you have sufficient data and clear objectives."
  else
    lit "Based on the video content, this topic is covered with practical examples and explanations.".

Definition clean_answer (rt : runtime) (answer : str) : str :=
  if negb (nonempty answer) then lit "I couldn't find an answer."
  else
    let answer := strip answer in
    let answer :=
      if startswith (lit "answer:") (str_lower rt answer)
      then strip (slice_from 7 answer)
      else answer in
    let lowered := str_lower rt answer in
    if existsb (str_eqb lowered) [[]; lit "none"; lit "n/a"; lit "not applicable"]
    then NOT_FOUND
    else
      match answer with
      | first :: rest =>
          if char_islower rt first then str_upper rt [first] ++ rest else answer
      | [] => answer
      end.

(** [d[key]] for a key that is present. *)
Fixpoint dict_get (items : list (str * pyval)) (key : str) : option pyval :=
  match items with
  | [] => None
  | (k, v) :: items' => if str_eqb k key then Some v else dict_get items' key
  end.

(** [v.strip()]: only a string has the method. *)
Definition val_strip (v : pyval) : result str :=
  match v with
  | VStr s => Ok (strip s)
  | _ => Raise (AttributeError (lit "object has no attribute 'strip'"))
  end.

(** [str(v)] *)
Definition py_str (rt : runtime) (v : pyval) : str :=
  match v with
  | VStr s => s
  | _ => py_repr rt v
  end.

(** The text of a dictionary of the response. *)
Definition dict_answer (rt : runtime) (whole : pyval) (items : list (str * pyval))
    (single_value : bool) : result str :=
  match dict_get items (lit "generated_text") with
  | Some v => val_strip v
  | None =>
      match dict_get items (lit "text") with
      | Some v => val_strip v
      | None =>
          match items with
          | [(_, v)] =>
              if single_value then Ok (strip (py_str rt v))
              else Ok (strip (py_str rt whole))
          | _ => Ok (strip (py_str rt whole))
          end
      end
  end.

(** The inner [try] of [generate_answer]: the answer read from the
    response, whatever its shape. *)
Definition extract_answer (rt : runtime) (response : pyval) : str :=
  let parsed :=
    match response with
    | VStr s => Ok (strip s)
    | VDict items => dict_answer rt response items true
    | VList (first_item :: _) =>
        match first_item with
        | VDict items => dict_answer rt first_item items false
        | _ => Ok (strip (py_str rt first_item))
        end
    | _ => Ok (lit "Could not parse answer from API response.")
    end in
  match parsed with
  | Ok answer => answer
  | Raise _ => lit "Error parsing answer response."
  end.

Definition generate_answer (rt : runtime) (question context : str) : M str :=
  let prompt := build_prompt question context in
  try_except
    (response <-
       (if OFFLINE_MODE rt
        then ret (VStr (generate_offline_answer rt question context))
        else rate_limit_retry (call_text_generation rt prompt)) ;;
     let answer := extract_answer rt response in
     ret (clean_answer rt answer))
    (fun _ => ret GENERATION_ERROR).

(** [answer += " " + " ".join(citations)] unless the guards say no. *)
Definition add_citations (answer : str) (citations : list str) : str :=
  if nonempty answer && negb (str_eqb answer NOT_FOUND) && nonempty citations then
    if negb (existsb (fun citation => contains citation answer) citations)
    then answer ++ lit " " ++ join (lit " ") citations
    else answer
  else answer.

Definition answer_question (rt : runtime) (agent : QAAgent) (question : str)
    (similarity_threshold : option R) (top_k : option Z)
  : M (str * list str) :=
  if negb (nonempty (chunks agent)) || negb (nonempty (chunk_embeddings agent)) then
    ret (NOTHING_INDEXED, [])
  else
    let similarity_threshold :=
      or_default R_is_zero similarity_threshold SIMILARITY_THRESHOLD in
    let top_k := or_default Z_is_zero top_k TOP_K_CHUNKS in
    try_except
      (similar_chunks <-
         find_similar_chunks rt question (chunks agent) (chunk_embeddings agent)
           (Some top_k) (Some similarity_threshold) ;;
       match similar_chunks with
       | [] => ret (NOT_FOUND, [])
       | (_, best_similarity) :: _ =>
           if Rlt_bool best_similarity similarity_threshold then ret (NOT_FOUND, [])
           else
             let context := prepare_context similar_chunks None in
             if negb (nonempty context) then ret (NOT_FOUND, [])
             else
               answer <- generate_answer rt question context ;;
               let citations := map (fun p => get_citation (fst p)) similar_chunks in
               ret (add_citations answer citations, citations)
       end)
      (fun _ => ret (PROCESSING_ERROR, [])).

(** *** A runtime for the examples *)

(** Case mapping and tests on ASCII letters; other characters are left as
    they are. *)
Definition ascii_lower (s : str) : str :=
  map (fun c => if ((65 <=? c) && (c <=? 90))%N then (c + 32)%N else c) s.
Definition ascii_upper (s : str) : str :=
  map (fun c => if ((97 <=? c) && (c <=? 122))%N then (c - 32)%N else c) s.
Definition ascii_isupper (c : char) : bool := ((65 <=? c) && (c <=? 90))%N.
Definition ascii_islower (c : char) : bool := ((97 <=? c) && (c <=? 122))%N.

(** A runtime whose hosted models are given; used on ASCII text only. *)
Definition example_runtime (offline : bool)
    (embed : list call -> str -> result (list R))
    (generate : list call -> str -> result pyval) : runtime :=
  mkRuntime embed generate offline
            (fun _ => lit "d41d8cd98f00b204e9800998ecf8427e")
            ascii_isupper ascii_islower ascii_lower ascii_upper
            (fun _ => lit "<value>").

(** Both hosted models are out of service. *)
Definition failing_service (A : Type) : list call -> str -> result A :=
  fun _ _ => Raise (ServiceError 503).
(* ================================================================= *)
(** ** Further definitions *)
(* ================================================================= *)

(** *** Time stamps and digits *)

(** An ASCII decimal digit. *)
Definition is_digit (c : char) : bool :=
  match digit_value c with Some _ => true | None => false end.


(** The fields of a time, written and read back. *)
Definition timestamp_of_fields (n : Z) : str :=
  if (0 <? n / 3600)%Z
  then fmt_02d (n / 3600) ++ lit ":" ++ fmt_02d (n mod 3600 / 60)
       ++ lit ":" ++ fmt_02d (n mod 60)
  else fmt_02d (n mod 3600 / 60) ++ lit ":" ++ fmt_02d (n mod 60).


(** The time stamps the line pattern accepts. *)
Definition timestamp_shape (ts : str) : Prop :=
  exists pre tail,
    ts = pre ++ 58%N :: tail
    /\ pre <> [] /\ (length pre <= 2)%nat /\ forallb is_digit pre = true
    /\ ((exists d1 d2, tail = [d1; d2] /\ is_digit d1 = true /\ is_digit d2 = true)
        \/ (exists d1 d2 e1 e2,
              tail = [d1; d2; 58%N; e1; e2]
              /\ is_digit d1 = true /\ is_digit d2 = true
              /\ is_digit e1 = true /\ is_digit e2 = true)).


(** A text with no white space at either end, and not empty. *)
Definition trimmed (t : str) : Prop :=
  match t with [] => False | c :: _ => isspace c = false end /\ rstrip t = t.

(** Two decimal digits. *)
Definition two_digits (s : str) : bool :=
  match s with
  | [a; b] => is_digit a && is_digit b
  | _ => false
  end.

(** The line that [chunk_transcript] should read from a segment that
    [normalize_transcript] wrote: its text, and the whole seconds of its
    start. *)
Definition line_of_segment (s : segment) : parsed_line :=
  mkLine (seg_text s) (inject_Z (Qfloor (seg_start s))).

(** The start of a raw segment lies in the range that a time stamp with at
    most two digits for the hours can show. *)
Definition start_in_range (s : raw_segment) : Prop :=
  match raw_start s with
  | Some x => (0 <= x)%Q /\ (x < 360000)%Q
  | None => True
  end.

(** *** Order of the chunks *)

(** The starts of the parsed lines do not decrease. *)
Fixpoint starts_sorted (segments : list parsed_line) : bool :=
  match segments with
  | a :: (b :: _) as rest =>
      Qle_bool (line_start a) (line_start b) && starts_sorted rest
  | _ => true
  end.

(** A window that starts earlier and does not end later. *)
Definition window_before (w w' : nat * nat) : Prop :=
  fst w < fst w' /\ snd w <= snd w'.

(** A chunk that neither starts nor ends later. *)
Definition chunk_before (c c' : TranscriptChunk) : Prop :=
  (start_time c <= start_time c')%Q /\ (end_time c <= end_time c')%Q.

(* ================================================================= *)
(** ** talktotube/utils/retrieval.py: the batch and the cache *)
(* ================================================================= *)

(** [np.zeros(384)] *)
Definition zero_embedding : list R := repeat 0%R 384.

(** The loop of [get_embeddings_batch], from the list [embeddings] built
    so far.  (The pause between two texts is not modelled.) *)
Fixpoint batch_loop (rt : runtime) (texts : list str) (embeddings : list (list R))
  : M (list (list R)) :=
  match texts with
  | [] => ret embeddings
  | text :: rest =>
      embedding <- try_except (get_embedding rt text) (fun _ => ret zero_embedding) ;;
      batch_loop rt rest (embeddings ++ [embedding])
  end.

Definition get_embeddings_batch (rt : runtime) (texts : list str) : M (list (list R)) :=
  batch_loop rt texts [].

(** [self.embeddings_cache.clear()] *)
Definition clear_cache : M unit :=
  fun w => (Ok tt, mkWorld [] (calls w)).

(* ================================================================= *)
(** ** talktotube/agents/qa.py: the index and translation *)
(* ================================================================= *)

(** [index_chunks]: the agent after the call.  (The code stores the
    chunks before it asks for the embeddings; the batch does not raise,
    see [get_embeddings_batch_ok], so the order is not observable.) *)
Definition index_chunks (rt : runtime) (agent : QAAgent) (new_chunks : list TranscriptChunk)
  : M QAAgent :=
  if negb (nonempty new_chunks) then ret agent
  else
    let chunk_texts := map text new_chunks in
    embeddings <- get_embeddings_batch rt chunk_texts ;;
    ret (mkAgent new_chunks embeddings).

Definition clear_index (agent : QAAgent) : M QAAgent :=
  clear_cache ;;; ret (mkAgent [] []).

Definition translate_to_english (rt : runtime) (text : str) : M str :=
  if negb (nonempty (strip text)) then ret text
  else
    let prompt := lit "Translate the following text to English: " ++ text in
    try_except
      (result <- rate_limit_retry (call_text_generation rt prompt) ;;
       match result with
       | VStr s => ret (strip s)
       | VDict items =>
           match dict_get items (lit "generated_text") with
           | Some v => lift (val_strip v)
           | None => ret text
           end
       | _ => ret text
       end)
      (fun _ => ret text).

(* ================================================================= *)
(** ** talktotube/pipeline.py *)
(* ================================================================= *)

(** [s.rfind(c)]: the last index of [c], or -1. *)
Fixpoint rfind_from (c : char) (s : str) (index : Z) (found : Z) : Z :=
  match s with
  | [] => found
  | x :: s' => rfind_from c s' (index + 1)%Z (if N.eqb x c then index else found)
  end.

Definition rfind (c : char) (s : str) : Z := rfind_from c s 0%Z (-1)%Z.

Definition PREVIEW_MARKER : str :=
  [NEWLINE; NEWLINE] ++ lit "... (transcript continues)".

(** [get_transcript_preview]; the factor 0.8 is read as 8/10. *)
Definition get_transcript_preview (transcript_text : str) (max_chars : Z) : str :=
  if (len transcript_text <=? max_chars)%Z then transcript_text
  else
    let truncated := slice_to max_chars transcript_text in
    let last_newline := rfind NEWLINE truncated in
    let truncated :=
      if Qltb (inject_Z max_chars * (8 # 10))%Q (inject_Z last_newline)
      then slice_to last_newline truncated
      else truncated in
    truncated ++ PREVIEW_MARKER.

(** [TalkToTubePipeline.translate_content] *)
Definition translate_content (rt : runtime) (text target_language : str) : M str :=
  if str_eqb (str_lower rt target_language) (lit "en")
  then translate_to_english rt text
  else ret text.

(** [TalkToTubePipeline.clear_session] *)
Definition clear_session (agent : QAAgent) : M QAAgent := clear_index agent.

(* ================================================================= *)
(** ** Reading the retries and the cache *)
(* ================================================================= *)

(** A call to a hosted model, as [call_feature_extraction] and
    [call_text_generation] make it: the answer depends on the calls made
    before, the call is logged, the cache is left alone. *)
Definition logged_call (A : Type) (service : list call -> result A) (c : call) : M A :=
  fun w => (service (calls w), mkWorld (embeddings_cache w) (calls w ++ [c])).

Definition is_ok (A : Type) (r : result A) : bool :=
  match r with Ok _ => true | Raise _ => false end.

(** Every cached embedding has [dim] components. *)
Definition cache_dim (dim : nat) (w : world) : Prop :=
  Forall (fun kv => length (snd kv) = dim) (embeddings_cache w).

(** The calls of [later] extend those of [earlier] by feature-extraction
    calls only. *)
Definition extends_by_embedding_calls (earlier later : world) (n : nat) : Prop :=
  exists extra,
    calls later = calls earlier ++ extra
    /\ length extra <= n
    /\ Forall (fun c => exists t, c = FeatureExtraction t) extra.

(** The times of a chunk lie between zero and [limit] seconds. *)
Definition times_below (limit : Q) (c : TranscriptChunk) : Prop :=
  ((0 <= start_time c)%Q /\ (start_time c < limit)%Q)
  /\ ((0 <= end_time c)%Q /\ (end_time c < limit)%Q).

(* ================================================================= *)
(** ** talktotube/agents/summarize.py *)
(* ================================================================= *)

(** [prepare_text_for_summarization]; the factor 0.8 is read as 8/10. *)
Definition prepare_text_for_summarization (transcript_text : str) (max_length : Z) : str :=
  if (len transcript_text <=? max_length)%Z then transcript_text
  else
    let truncated := slice_to max_length transcript_text in
    let last_period := rfind 46%N truncated in
    let last_exclamation := rfind 33%N truncated in
    let last_question := rfind 63%N truncated in
    let last_sentence_end := Z.max (Z.max last_period last_exclamation) last_question in
    if Qltb (inject_Z max_length * (8 # 10))%Q (inject_Z last_sentence_end)
    then slice_to (last_sentence_end + 1)%Z truncated
    else truncated.

(* ================================================================= *)
(** ** Inputs that tell a zero from the default *)
(* ================================================================= *)



(** A chunk to retrieve, a runtime with no service, and a state in which
    the query ["cats"] has the embedding (1). *)
Definition cats_chunk : TranscriptChunk := mkChunk (lit "This is about cats") 0 10 0.

Definition no_service : runtime :=
  example_runtime true (@failing_service _) (@failing_service _).

Definition cats_cached : world := mkWorld [(lit "cats", [1%R])] [].

(* ================================================================= *)
(** ** talktotube/utils/retrieval.py: the score in binary64 *)
(* ================================================================= *)

(** numpy's [float64] is IEEE 754 binary64, and so are the primitive
    floats: sums, products, quotients and square roots are rounded to
    nearest, ties to even, and there are infinities, signed zeros and NaN.
    [cosine_similarity] is given here with that arithmetic. *)
Module Binary64.

Import PrimFloat.
Local Open Scope float_scope.

(** [np.dot] of two one-dimensional arrays: the products are added to an
    accumulator that starts at 0.0, from the first index on.  (A BLAS may
    add in another order, or round a product and its sum at once: on one
    or two components there is no other order, and the sums and products
    of the examples below are exact, overflow or underflow to zero either
    way.) *)
Fixpoint dot_from (acc : float) (a b : list float) : float :=
  match a, b with
  | x :: a', y :: b' => dot_from (acc + x * y) a' b'
  | _, _ => acc
  end.

Definition dot (a b : list float) : float := dot_from 0 a b.

(** [np.dot]: arrays of different lengths are refused. *)
Definition np_dot (a b : list float) : result float :=
  if (length a =? length b)%nat then Ok (dot a b)
  else Raise (ValueError (lit "shapes not aligned")).

(** [np.linalg.norm] of a one-dimensional array: [sqrt(x.dot(x))]. *)
Definition norm (v : list float) : float := sqrt (dot v v).

(** [norm1 == 0 or norm2 == 0] compares floats: both zeros are equal to 0,
    NaN is not. *)
Definition cosine_similarity (vec1 vec2 : list float) : result float :=
  let norm1 := norm vec1 in
  let norm2 := norm vec2 in
  if (norm1 =? 0) || (norm2 =? 0) then Ok 0
  else
    match np_dot vec1 vec2 with
    | Ok d => Ok (d / (norm1 * norm2))
    | Raise e => Raise e
    end.


End Binary64.
(* ================================================================= *)
(** * Part II: theorems *)
(* ================================================================= *)

Example format_timestamp_ex : format_timestamp 83%Q = lit "01:23".
Proof. vm_compute. reflexivity. Qed.

(* ----------------------------------------------------------------- *)
(** ** Merging short segments *)
(* ----------------------------------------------------------------- *)

Section Merge.

Variable min_duration : Q.

Lemma Qltb_lt (x y : Q) : Qltb x y = true <-> (x < y)%Q.
Proof.
  unfold Qltb. rewrite negb_true_iff. split; intros H.
  - apply Qnot_le_lt. intros Hle. apply Qle_bool_iff in Hle. congruence.
  - destruct (Qle_bool y x) eqn:E; [|reflexivity].
    apply Qle_bool_iff in E. exfalso. exact (Qlt_not_le _ _ H E).
Qed.

Lemma Qltb_ge (x y : Q) : Qltb x y = false <-> (y <= x)%Q.
Proof.
  unfold Qltb. rewrite negb_false_iff. apply Qle_bool_iff.
Qed.

Lemma py_max_Qmax (a b : Q) : (py_max a b == Qmax b a)%Q.
Proof.
  unfold py_max. destruct (Qltb a b) eqn:E.
  - apply Qltb_lt in E. symmetry. apply Q.max_l. apply Qlt_le_weak, E.
  - apply Qltb_ge in E. symmetry. apply Q.max_r. exact E.
Qed.

Lemma segment_equiv_refl (s : segment) : segment_equiv s s.
Proof. repeat split; reflexivity. Qed.

(** The loop of the code against the fold of the specification, from any
    pair of related states. *)
Lemma merge_loop_fold (rest : list segment) :
  forall merged finished current_segment acc,
    Forall2 segment_equiv merged finished ->
    segment_equiv current_segment acc ->
    Forall2 segment_equiv
      (merge_loop min_duration merged current_segment rest)
      (let (finished', acc') :=
         fold_left (spec_merge_step min_duration) rest (finished, acc) in
       finished' ++ [acc']).
Proof.
  induction rest as [|next rest IH]; intros merged finished cur acc Hm Hc; simpl.
  - apply Forall2_app; [exact Hm | constructor; [exact Hc | constructor]].
  - destruct Hc as (Ht & Hs & Hd).
    unfold merge_step.
    destruct (Qltb (seg_duration cur) min_duration) eqn:E;
      destruct (Qlt_le_dec (seg_duration acc) min_duration) as [Hlt | Hge].
    + apply IH; [exact Hm|].
      repeat split; simpl; [congruence | exact Hs |].
      rewrite py_max_Qmax, Hs, Hd. reflexivity.
    + apply Qltb_lt in E. rewrite Hd in E.
      exfalso. exact (Qlt_not_le _ _ E Hge).
    + apply Qltb_ge in E. rewrite Hd in E.
      exfalso. exact (Qlt_not_le _ _ Hlt E).
    + apply IH; [| apply segment_equiv_refl].
      apply Forall2_app; [exact Hm|].
      constructor; [repeat split; assumption | constructor].
Qed.

(** Every segment flushed before the last one is long enough. *)
Lemma merge_loop_durations (rest : list segment) :
  forall merged current_segment,
    Forall (fun s => (min_duration <= seg_duration s)%Q) merged ->
    Forall (fun s => (min_duration <= seg_duration s)%Q)
           (removelast (merge_loop min_duration merged current_segment rest)).
Proof.
  induction rest as [|next rest IH]; intros merged cur Hm; simpl.
  - rewrite removelast_last. exact Hm.
  - unfold merge_step.
    destruct (Qltb (seg_duration cur) min_duration) eqn:E.
    + apply IH, Hm.
    + apply IH. apply Forall_app. split; [exact Hm|].
      constructor; [apply Qltb_ge, E | constructor].
Qed.

Lemma merge_loop_length (rest : list segment) :
  forall merged current_segment,
    length (merge_loop min_duration merged current_segment rest)
    <= length merged + S (length rest).
Proof.
  induction rest as [|next rest IH]; intros merged cur; simpl.
  - rewrite length_app. simpl. lia.
  - destruct (merge_step min_duration cur next) as [cur' [done|]].
    + specialize (IH (merged ++ [done]) cur'). rewrite length_app in IH. simpl in IH. lia.
    + specialize (IH merged cur'). lia.
Qed.

End Merge.

(** C6. [merge_short_segments] is the left-to-right fold of the
    specification: while the accumulator is shorter than the threshold the
    next segment's text is appended after a space and the duration becomes
    [max(accumulator_end, next_end) - accumulator_start]; otherwise the
    accumulator is flushed and the next segment becomes the accumulator; the
    last accumulator is always flushed.  Hence every emitted segment but the
    last lasts at least the threshold. *)
Theorem merge_short_segments_is_fold :
  forall (segments : list segment) (min_duration : Q),
    Forall2 segment_equiv
            (merge_short_segments segments min_duration)
            (spec_merge segments min_duration)
    /\ Forall (fun s => (min_duration <= seg_duration s)%Q)
              (removelast (merge_short_segments segments min_duration)).
Proof.
  intros [|first rest] min_duration; simpl.
  - split; constructor.
  - split.
    + apply merge_loop_fold; [constructor | apply segment_equiv_refl].
    + apply merge_loop_durations. constructor.
Qed.

(* ----------------------------------------------------------------- *)
(** ** Cleaning and normalising *)
(* ----------------------------------------------------------------- *)

Lemma isspace_neq (x c : char) :
  isspace x = true -> isspace c = false -> N.eqb c x = false.
Proof.
  intros Hx Hc. destruct (N.eqb_spec c x) as [->|]; congruence.
Qed.

(** *** White space *)

Lemma single_spaced_collapse (s : str) :
  forall b, single_spaced_from b (collapse_from b s) = true.
Proof.
  induction s as [|c s IH]; intros b; simpl; [reflexivity|].
  destruct (isspace c) eqn:E.
  - destruct b; [apply IH|].
    simpl. apply IH.
  - simpl. rewrite E. apply IH.
Qed.

Lemma single_spaced_weaken (s : str) :
  single_spaced_from true s = true -> single_spaced_from false s = true.
Proof.
  destruct s as [|c s]; simpl; [reflexivity|].
  destruct (isspace c); [|auto].
  rewrite andb_false_r. discriminate.
Qed.

Lemma single_spaced_any (s : str) (b : bool) :
  single_spaced_from b s = true -> single_spaced_from false s = true.
Proof. destruct b; [apply single_spaced_weaken | auto]. Qed.

Lemma single_spaced_tail (c : char) (s : str) (b : bool) :
  single_spaced_from b (c :: s) = true -> single_spaced_from false s = true.
Proof.
  simpl. destruct (isspace c).
  - intros H. apply andb_prop in H. apply single_spaced_weaken, H.
  - auto.
Qed.

Lemma single_spaced_lstrip (s : str) :
  forall b, single_spaced_from b s = true -> single_spaced_from false (lstrip s) = true.
Proof.
  induction s as [|c s IH]; intros b H; [reflexivity|].
  simpl. destruct (isspace c) eqn:E.
  - apply (IH false). exact (single_spaced_tail _ _ _ H).
  - simpl in H |- *. rewrite E in *. exact H.
Qed.

Lemma single_spaced_rstrip (s : str) :
  forall b, single_spaced_from b s = true -> single_spaced_from b (rstrip s) = true.
Proof.
  induction s as [|c s IH]; intros b H; [reflexivity|].
  simpl in H |- *.
  destruct (rstrip s) as [|r0 r] eqn:R.
  - destruct (isspace c) eqn:E; simpl; [reflexivity | rewrite E; reflexivity].
  - simpl. destruct (isspace c) eqn:E.
    + apply andb_prop in H. destruct H as [H1 H2]. rewrite H1. simpl.
      specialize (IH true H2). simpl in IH. exact IH.
    + specialize (IH false H). simpl in IH. exact IH.
Qed.

Lemma single_spaced_one_line (s : str) :
  forall b, single_spaced_from b s = true -> one_line s.
Proof.
  unfold one_line.
  induction s as [|c s IH]; intros b H Hin; simpl in Hin; [contradiction|].
  destruct Hin as [Hin|Hin].
  - subst c. simpl in H. discriminate.
  - simpl in H. destruct (isspace c).
    + apply andb_prop in H. exact (IH true (proj2 H) Hin).
    + exact (IH false H Hin).
Qed.

(** *** Trimming *)

Lemma lstrip_head (s : str) :
  match lstrip s with [] => True | c :: _ => isspace c = false end.
Proof.
  induction s as [|c s IH]; simpl; [exact I|].
  destruct (isspace c) eqn:E; [exact IH | exact E].
Qed.

Lemma rstrip_head (s : str) :
  match s with
  | [] => True
  | c :: _ => isspace c = false -> exists r, rstrip s = c :: r
  end.
Proof.
  destruct s as [|c s]; [exact I|]. intros E. simpl.
  destruct (rstrip s); rewrite ?E; eauto.
Qed.

Lemma lstrip_fix (s : str) :
  match s with [] => True | c :: _ => isspace c = false end -> lstrip s = s.
Proof. destruct s as [|c s]; simpl; [auto | intros ->; reflexivity]. Qed.

Lemma rstrip_idem (s : str) : rstrip (rstrip s) = rstrip s.
Proof.
  induction s as [|c s IH]; simpl; [reflexivity|].
  destruct (rstrip s) as [|r0 r] eqn:R.
  - destruct (isspace c) eqn:E; simpl; [reflexivity | rewrite E; reflexivity].
  - simpl in IH |- *. destruct (rstrip r) eqn:R'.
    + destruct (isspace r0); [discriminate | rewrite IH; reflexivity].
    + rewrite IH. reflexivity.
Qed.

Lemma strip_fix (s : str) : strip (strip s) = strip s.
Proof.
  unfold strip.
  assert (H : lstrip (rstrip (lstrip s)) = rstrip (lstrip s)).
  { apply lstrip_fix.
    pose proof (lstrip_head s) as Hh. pose proof (rstrip_head (lstrip s)) as Hr.
    destruct (lstrip s) as [|c t]; [exact I|].
    destruct (Hr Hh) as [r ->]. exact Hh. }
  rewrite H. apply rstrip_idem.
Qed.

(** *** Deleting characters *)

Lemma subseq_refl (s : str) : subseq s s.
Proof. induction s; constructor; assumption. Qed.

Lemma subseq_trans (a b c : str) : subseq a b -> subseq b c -> subseq a c.
Proof.
  intros Hab Hbc. revert a Hab.
  induction Hbc; intros a' Hab.
  - exact Hab.
  - constructor. apply IHHbc, Hab.
  - inversion Hab; subst.
    + constructor. apply IHHbc. assumption.
    + apply subseq_keep. apply IHHbc. assumption.
Qed.

Lemma subseq_In (a b : str) (x : char) : subseq a b -> In x a -> In x b.
Proof.
  induction 1; simpl; intros Hin; auto.
  destruct Hin; auto.
Qed.

Lemma subseq_one_line (a b : str) : subseq a b -> one_line b -> one_line a.
Proof. intros H Hb Ha. apply Hb. exact (subseq_In NEWLINE H Ha). Qed.

Lemma subseq_existsb (f : char -> bool) (a b : str) :
  subseq a b -> existsb f b = false -> existsb f a = false.
Proof.
  induction 1; simpl; intros Hb; auto.
  - apply orb_false_elim in Hb. apply IHsubseq, Hb.
  - apply orb_false_elim in Hb. destruct Hb as [-> Hb]. simpl. auto.
Qed.

Lemma subseq_has_span (open close : char) (a b : str) :
  subseq a b -> has_span open close b = false -> has_span open close a = false.
Proof.
  induction 1; simpl; intros Hb; auto.
  - apply orb_false_elim in Hb. apply IHsubseq, Hb.
  - apply orb_false_elim in Hb. destruct Hb as [Hb1 Hb2].
    rewrite (IHsubseq Hb2), orb_false_r.
    destruct (N.eqb c open); [|reflexivity].
    simpl in *. exact (subseq_existsb _ H Hb1).
Qed.

Lemma lstrip_subseq (s : str) : subseq (lstrip s) s.
Proof.
  induction s as [|c s IH]; simpl; [constructor|].
  destruct (isspace c); [apply subseq_drop; exact IH | apply subseq_refl].
Qed.

Lemma rstrip_subseq (s : str) : subseq (rstrip s) s.
Proof.
  induction s as [|c s IH]; simpl; [constructor|].
  destruct (rstrip s) as [|r0 r].
  - destruct (isspace c); [apply subseq_drop | apply subseq_keep]; exact IH.
  - apply subseq_keep. exact IH.
Qed.

Lemma strip_subseq (s : str) : subseq (strip s) s.
Proof.
  unfold strip. eapply subseq_trans; [apply rstrip_subseq | apply lstrip_subseq].
Qed.

(** *** The span passes *)

Section Spans.

Variables open close : char.

Lemma find_close_none (s : str) :
  find_close close s = None -> one_line s -> existsb (N.eqb close) s = false.
Proof.
  unfold one_line.
  induction s as [|c s IH]; simpl; intros Hf Hl; [reflexivity|].
  rewrite (N.eqb_sym close c).
  destruct (N.eqb c close); [discriminate|].
  destruct (N.eqb_spec c NEWLINE) as [->|Hn].
  - exfalso. apply Hl. left. reflexivity.
  - simpl. apply IH.
    + destruct (find_close close s); [discriminate | reflexivity].
    + intros Hin. apply Hl. right. exact Hin.
Qed.

Lemma sub_span_from_subseq (s : str) :
  forall skip, subseq (sub_span_from open close skip s) s.
Proof.
  induction s as [|c s IH]; intros skip; simpl; [constructor|].
  destruct skip as [|k]; [|apply subseq_drop, IH].
  destruct (N.eqb c open); [|apply subseq_keep, IH].
  destruct (find_close close s); [apply subseq_drop | apply subseq_keep]; apply IH.
Qed.

(** After the pass no [open] is left with a [close] after it on its
    line. *)
Lemma sub_span_from_no_span (s : str) :
  forall skip, one_line s ->
    has_span open close (sub_span_from open close skip s) = false.
Proof.
  induction s as [|c s IH]; intros skip Hl; simpl; [reflexivity|].
  assert (Hl' : one_line s) by (intros Hin; apply Hl; right; exact Hin).
  destruct skip as [|k]; [|apply IH, Hl'].
  destruct (N.eqb c open) eqn:E.
  - destruct (find_close close s) eqn:F; [apply IH, Hl'|].
    simpl. rewrite (IH O Hl'), orb_false_r, E. simpl.
    apply (subseq_existsb _ (sub_span_from_subseq s O)).
    apply find_close_none; assumption.
  - simpl. rewrite E. simpl. apply IH, Hl'.
Qed.

Lemma collapse_existsb (c : char) (s : str) :
  isspace c = false ->
  forall b, existsb (N.eqb c) (collapse_from b s) = existsb (N.eqb c) s.
Proof.
  intros Hc. induction s as [|x s IH]; intros b; simpl; [reflexivity|].
  destruct (isspace x) eqn:E.
  - rewrite (isspace_neq x c E Hc).
    destruct b; [apply IH|].
    cbn [existsb].
    rewrite (isspace_neq SPACE c eq_refl Hc). apply IH.
  - cbn [existsb]. rewrite IH. reflexivity.
Qed.

Lemma collapse_has_span (s : str) :
  isspace open = false -> isspace close = false ->
  forall b, has_span open close (collapse_from b s) = has_span open close s.
Proof.
  intros Ho Hc. induction s as [|x s IH]; intros b; simpl; [reflexivity|].
  destruct (isspace x) eqn:E.
  - rewrite (N.eqb_sym x open), (isspace_neq x open E Ho). simpl.
    destruct b; [apply IH|].
    cbn [has_span].
    rewrite (N.eqb_sym SPACE open), (isspace_neq SPACE open eq_refl Ho). simpl. apply IH.
  - cbn [has_span]. rewrite IH, collapse_existsb by assumption. reflexivity.
Qed.

(** The pass, by equations: it copies the text up to an opening
    delimiter, deletes from there to the first closing delimiter when
    that comes before the end of the line, and goes on after it; an opening
    delimiter that is not closed on its line is copied. *)
Lemma sub_span_from_skip (a s : str) :
  sub_span_from open close (length a) (a ++ s) = sub_span_from open close O s.
Proof. induction a as [|c a IH]; [reflexivity | exact IH]. Qed.

Lemma find_close_first (inner post : str) :
  ~ In close inner -> one_line inner ->
  find_close close (inner ++ close :: post) = Some (length inner).
Proof.
  unfold one_line. induction inner as [|c inner IH]; intros Hc Hl; cbn [app find_close length].
  - rewrite N.eqb_refl. reflexivity.
  - destruct (N.eqb_spec c close) as [->|_]; [exfalso; apply Hc; left; reflexivity|].
    destruct (N.eqb_spec c NEWLINE) as [->|_]; [exfalso; apply Hl; left; reflexivity|].
    rewrite IH; [reflexivity | |]; intros Hin; [apply Hc | apply Hl]; right; exact Hin.
Qed.

Lemma find_close_unclosed (rest : str) :
  (forall inner post, rest = inner ++ close :: post -> In NEWLINE inner) ->
  find_close close rest = None.
Proof.
  induction rest as [|c rest IH]; intros H; cbn [find_close]; [reflexivity|].
  destruct (N.eqb_spec c close) as [->|_].
  - destruct (H [] rest eq_refl).
  - destruct (N.eqb_spec c NEWLINE) as [->|Hn]; [reflexivity|].
    rewrite IH; [reflexivity|].
    intros inner post ->.
    destruct (H (c :: inner) post eq_refl) as [E|Hin]; [contradiction | exact Hin].
Qed.

Lemma sub_span_prefix (pre s : str) :
  ~ In open pre -> sub_span open close (pre ++ s) = pre ++ sub_span open close s.
Proof.
  unfold sub_span. induction pre as [|c pre IH]; intros Ho; [reflexivity|].
  cbn [app sub_span_from].
  destruct (N.eqb_spec c open) as [->|_]; [exfalso; apply Ho; left; reflexivity|].
  rewrite IH; [reflexivity|]. intros Hin. apply Ho. right. exact Hin.
Qed.

Lemma sub_span_closed (inner post : str) :
  ~ In close inner -> one_line inner ->
  sub_span open close (open :: inner ++ close :: post) = sub_span open close post.
Proof.
  intros Hc Hl. unfold sub_span. cbn [sub_span_from].
  rewrite N.eqb_refl, (find_close_first post Hc Hl).
  change (inner ++ close :: post) with (inner ++ [close] ++ post).
  rewrite app_assoc.
  replace (S (length inner)) with (length (inner ++ [close]))
    by (rewrite length_app; cbn [length]; lia).
  apply sub_span_from_skip.
Qed.

Lemma sub_span_unclosed (rest : str) :
  (forall inner post, rest = inner ++ close :: post -> In NEWLINE inner) ->
  sub_span open close (open :: rest) = open :: sub_span open close rest.
Proof.
  intros H. unfold sub_span. cbn [sub_span_from].
  rewrite N.eqb_refl, (find_close_unclosed H). reflexivity.
Qed.

End Spans.

Lemma clean_transcript_text_unfold (text : str) :
  clean_transcript_text text =
  if (length (cleaned text) <? 3)%nat then [] else cleaned text.
Proof.
  destruct text as [|c t]; reflexivity.
Qed.

Lemma cleaned_no_span (open close : char) (text : str) (pre post : str -> str) :
  isspace open = false -> isspace close = false ->
  (forall s, subseq (pre s) s) -> (forall s, subseq (post s) s) ->
  one_line text ->
  has_span open close
    (strip (collapse_whitespace (post (sub_span open close (pre text))))) = false.
Proof.
  intros Ho Hc Hpre Hpost Hl.
  apply (subseq_has_span _ _ (strip_subseq _)).
  unfold collapse_whitespace. rewrite collapse_has_span by assumption.
  apply (subseq_has_span _ _ (Hpost _)).
  apply sub_span_from_no_span.
  exact (subseq_one_line (Hpre _) Hl).
Qed.

Lemma cleaned_spans (text : str) :
  one_line text ->
  has_span LBRACKET RBRACKET (cleaned text) = false
  /\ has_span LPAREN RPAREN (cleaned text) = false
  /\ has_span LANGLE RANGLE (cleaned text) = false
  /\ has_span MUSIC_NOTE MUSIC_NOTE (cleaned text) = false.
Proof.
  intros Hl. unfold cleaned, sub_span.
  pose proof sub_span_from_subseq as P.
  repeat split.
  - apply (@cleaned_no_span LBRACKET RBRACKET text
             (fun s => s)
             (fun s => sub_span_from MUSIC_NOTE MUSIC_NOTE O
                        (sub_span_from LANGLE RANGLE O
                          (sub_span_from LPAREN RPAREN O s)))); auto.
    + apply subseq_refl.
    + intros s. eapply subseq_trans; [apply P|].
      eapply subseq_trans; [apply P|]. apply P.
  - apply (@cleaned_no_span LPAREN RPAREN text
             (fun s => sub_span_from LBRACKET RBRACKET O s)
             (fun s => sub_span_from MUSIC_NOTE MUSIC_NOTE O
                        (sub_span_from LANGLE RANGLE O s))); auto.
    intros s. eapply subseq_trans; [apply P|]. apply P.
  - apply (@cleaned_no_span LANGLE RANGLE text
             (fun s => sub_span_from LPAREN RPAREN O
                        (sub_span_from LBRACKET RBRACKET O s))
             (fun s => sub_span_from MUSIC_NOTE MUSIC_NOTE O s)); auto.
    intros s. eapply subseq_trans; [apply P|]. apply P.
  - apply (@cleaned_no_span MUSIC_NOTE MUSIC_NOTE text
             (fun s => sub_span_from LANGLE RANGLE O
                        (sub_span_from LPAREN RPAREN O
                          (sub_span_from LBRACKET RBRACKET O s)))
             (fun s => s)); auto.
    + intros s. eapply subseq_trans; [apply P|].
      eapply subseq_trans; [apply P|]. apply P.
    + apply subseq_refl.
Qed.

Lemma cleaned_single_spaced (text : str) : single_spaced (cleaned text) = true.
Proof.
  unfold cleaned, strip, single_spaced.
  apply single_spaced_rstrip. apply (single_spaced_lstrip _ false).
  apply single_spaced_collapse.
Qed.

Lemma clean_transcript_text_one_line (text : str) :
  one_line (clean_transcript_text text).
Proof.
  rewrite clean_transcript_text_unfold.
  destruct (length (cleaned text) <? 3)%nat; [intros []|].
  exact (single_spaced_one_line _ _ (cleaned_single_spaced text)).
Qed.

(** *** Lines of the normalised transcript *)

Lemma one_line_app (a b : str) : one_line a -> one_line b -> one_line (a ++ b).
Proof.
  unfold one_line. intros Ha Hb Hin. apply in_app_or in Hin. tauto.
Qed.

Lemma one_line_cons (c : char) (s : str) :
  c <> NEWLINE -> one_line s -> one_line (c :: s).
Proof.
  unfold one_line. intros Hc Hs [Hin|Hin]; [apply Hc, Hin | exact (Hs Hin)].
Qed.

Ltac not_newline :=
  let H := fresh in intro H; vm_compute in H; discriminate H.

Lemma uint_digits_one_line (d : Decimal.uint) : one_line (uint_digits d).
Proof.
  induction d; simpl; [intros [] | ..]; (apply one_line_cons; [not_newline | assumption]).
Qed.

Lemma decimal_one_line (n : N) : one_line (decimal n).
Proof.
  destruct n; simpl.
  - apply one_line_cons; [not_newline | intros []].
  - apply uint_digits_one_line.
Qed.

Lemma fmt_02d_one_line (z : Z) : one_line (fmt_02d z).
Proof.
  unfold fmt_02d.
  destruct (z <? 0)%Z; [apply one_line_cons; [not_newline | apply decimal_one_line]|].
  destruct (z <? 10)%Z; [apply one_line_cons; [not_newline|] |]; apply decimal_one_line.
Qed.

Lemma lit_colon_one_line : one_line (lit ":").
Proof. apply one_line_cons; [not_newline | intros []]. Qed.

Lemma format_timestamp_one_line (seconds : Q) : one_line (format_timestamp seconds).
Proof.
  unfold format_timestamp.
  destruct (0 <? floordiv seconds 3600)%Z;
    repeat apply one_line_app;
    try apply fmt_02d_one_line; apply lit_colon_one_line.
Qed.

Lemma render_line_one_line (s : segment) :
  one_line (seg_text s) -> one_line (render_line s).
Proof.
  intros H. unfold render_line.
  apply one_line_app; [apply one_line_cons; [not_newline | intros []]|].
  apply one_line_app; [apply format_timestamp_one_line|].
  apply one_line_app; [|exact H].
  apply one_line_cons; [not_newline|].
  apply one_line_cons; [not_newline | intros []].
Qed.

Lemma count_occ_one_line (s : str) : one_line s -> count_occ N.eq_dec s NEWLINE = 0.
Proof. intros H. apply count_occ_not_In. exact H. Qed.

Lemma join_newline_count (lines : list str) :
  Forall one_line lines ->
  count_occ N.eq_dec (join [NEWLINE] lines) NEWLINE = pred (length lines).
Proof.
  induction 1 as [|l lines Hl Hls IH]; [reflexivity|].
  destruct lines as [|l' lines].
  - simpl. apply count_occ_one_line, Hl.
  - change (join [NEWLINE] (l :: l' :: lines))
      with (l ++ [NEWLINE] ++ join [NEWLINE] (l' :: lines)).
    rewrite !count_occ_app, IH, (count_occ_one_line Hl). simpl.
    destruct (N.eq_dec NEWLINE NEWLINE); [reflexivity | contradiction].
Qed.

Lemma line_count_join (lines : list str) :
  Forall one_line lines -> line_count (join [NEWLINE] lines) <= length lines.
Proof.
  intros H. unfold line_count.
  destruct (join [NEWLINE] lines) eqn:E; [lia|].
  rewrite <- E, (join_newline_count H).
  destruct lines; [discriminate | simpl; lia].
Qed.

Lemma merge_loop_one_line (min_duration : Q) (rest : list segment) :
  forall merged current_segment,
    Forall (fun s => one_line (seg_text s)) merged ->
    one_line (seg_text current_segment) ->
    Forall (fun s => one_line (seg_text s)) rest ->
    Forall (fun s => one_line (seg_text s))
           (merge_loop min_duration merged current_segment rest).
Proof.
  induction rest as [|next rest IH]; intros merged cur Hm Hc Hr; simpl.
  - apply Forall_app. split; [exact Hm | constructor; [exact Hc | constructor]].
  - inversion Hr as [|? ? Hn Hr']; subst.
    unfold merge_step. destruct (Qltb (seg_duration cur) min_duration).
    + apply IH; try assumption. simpl.
      apply one_line_app; [exact Hc|].
      apply one_line_cons; [not_newline | exact Hn].
    + apply IH; try assumption.
      apply Forall_app. split; [exact Hm | constructor; [exact Hc | constructor]].
Qed.

Lemma normalized_segments_one_line (transcript_data : list raw_segment) :
  Forall (fun s => one_line (seg_text s)) (normalized_segments transcript_data).
Proof.
  induction transcript_data as [|s rest IH]; simpl; [constructor|].
  unfold normalize_segment.
  destruct (negb (nonempty (strip _))); [exact IH|].
  destruct (negb (nonempty (clean_transcript_text _))); [exact IH|].
  constructor; [apply clean_transcript_text_one_line | exact IH].
Qed.

Lemma normalized_segments_length (transcript_data : list raw_segment) :
  length (normalized_segments transcript_data) <= length transcript_data.
Proof.
  induction transcript_data as [|s rest IH]; simpl; [lia|].
  destruct (normalize_segment s); simpl; lia.
Qed.

Lemma normalize_transcript_line_count (transcript_data : list raw_segment) :
  line_count (normalize_transcript transcript_data) <= length transcript_data.
Proof.
  unfold normalize_transcript.
  destruct transcript_data as [|s rest]; [simpl; lia|].
  cbn [nonempty negb].
  remember (s :: rest) as data eqn:Hdata. clear Hdata.
  pose proof (normalized_segments_one_line data) as Hl.
  pose proof (normalized_segments_length data) as Hn.
  destruct (normalized_segments data) as [|first more] eqn:E; [simpl; lia|].
  cbn [merge_short_segments].
  assert (Hm : Forall (fun s => one_line (seg_text s))
                      (merge_loop DEFAULT_MIN_DURATION [] first more)).
  { inversion Hl; subst. apply merge_loop_one_line; auto. }
  pose proof (merge_loop_length DEFAULT_MIN_DURATION more [] first) as Hlen.
  etransitivity; [apply line_count_join|].
  - apply Forall_map. revert Hm. apply Forall_impl. intros a. apply render_line_one_line.
  - rewrite length_map. simpl in Hlen, Hn. lia.
Qed.

Lemma sub_span_no_open (open close : char) (s : str) :
  ~ In open s -> sub_span open close s = s.
Proof.
  intros H. rewrite <- (app_nil_r s) at 1.
  rewrite sub_span_prefix by exact H. cbn. apply app_nil_r.
Qed.

(** Without an opening delimiter only the white space is touched. *)
Lemma cleaned_plain (text : str) :
  ~ In LBRACKET text -> ~ In LPAREN text -> ~ In LANGLE text -> ~ In MUSIC_NOTE text ->
  cleaned text = strip (collapse_whitespace text).
Proof.
  intros H1 H2 H3 H4. unfold cleaned.
  rewrite (@sub_span_no_open LBRACKET RBRACKET text H1).
  rewrite (@sub_span_no_open LPAREN RPAREN text H2).
  rewrite (@sub_span_no_open LANGLE RANGLE text H3).
  rewrite (@sub_span_no_open MUSIC_NOTE MUSIC_NOTE text H4).
  reflexivity.
Qed.

(** A character that is neither delimiter occurs in a text with a span
    only if it occurs around or inside the span. *)
Lemma span_text_without (c open close : char) (pre inner post : str) :
  c <> open -> c <> close ->
  ~ In c (pre ++ inner ++ post) ->
  ~ In c (pre ++ open :: inner ++ close :: post).
Proof.
  intros Ho Hc H Hin. apply H.
  rewrite !in_app_iff in *. cbn [In] in Hin. rewrite in_app_iff in Hin. cbn [In] in Hin.
  intuition congruence.
Qed.

Lemma span_text_rest (c : char) (pre inner post : str) :
  ~ In c (pre ++ inner ++ post) -> ~ In c pre /\ ~ In c post /\ ~ In c (pre ++ post).
Proof.
  rewrite !in_app_iff. intuition.
Qed.

(** A pass removes the one span of its kind and keeps what is around. *)
Lemma sub_span_removes (open close : char) (pre inner post : str) :
  ~ In open (pre ++ inner ++ post) -> ~ In close inner -> one_line inner ->
  sub_span open close (pre ++ open :: inner ++ close :: post) = pre ++ post.
Proof.
  intros H Hc Hl. destruct (span_text_rest _ _ _ _ H) as (Hpre & Hpost & _).
  rewrite (@sub_span_prefix open close pre _ Hpre).
  rewrite (@sub_span_closed open close inner post Hc Hl).
  rewrite (@sub_span_no_open open close post Hpost). reflexivity.
Qed.

(** A text with one span, closed on its line, is cleaned as the text
    without the span. *)
Lemma cleaned_closed_span (open close : char) (pre inner post : str) :
  In (open, close)
     [(LBRACKET, RBRACKET); (LPAREN, RPAREN); (LANGLE, RANGLE); (MUSIC_NOTE, MUSIC_NOTE)] ->
  (forall c, In c [LBRACKET; LPAREN; LANGLE; MUSIC_NOTE] -> ~ In c (pre ++ inner ++ post)) ->
  ~ In close inner -> one_line inner ->
  cleaned (pre ++ open :: inner ++ close :: post) = cleaned (pre ++ post).
Proof.
  intros Hp Hplain Hc Hl.
  assert (H1 := Hplain LBRACKET ltac:(cbn; tauto)).
  assert (H2 := Hplain LPAREN ltac:(cbn; tauto)).
  assert (H3 := Hplain LANGLE ltac:(cbn; tauto)).
  assert (H4 := Hplain MUSIC_NOTE ltac:(cbn; tauto)).
  rewrite (@cleaned_plain (pre ++ post)
             (proj2 (proj2 (span_text_rest _ _ _ _ H1)))
             (proj2 (proj2 (span_text_rest _ _ _ _ H2)))
             (proj2 (proj2 (span_text_rest _ _ _ _ H3)))
             (proj2 (proj2 (span_text_rest _ _ _ _ H4)))).
  unfold cleaned.
  cbn [In] in Hp.
  destruct Hp as [E|[E|[E|[E|[]]]]]; injection E as <- <-.
  - rewrite (sub_span_removes _ _ _ _ H1 Hc Hl).
    rewrite (@sub_span_no_open LPAREN RPAREN _ (proj2 (proj2 (span_text_rest _ _ _ _ H2)))).
    rewrite (@sub_span_no_open LANGLE RANGLE _ (proj2 (proj2 (span_text_rest _ _ _ _ H3)))).
    rewrite (@sub_span_no_open MUSIC_NOTE MUSIC_NOTE _ (proj2 (proj2 (span_text_rest _ _ _ _ H4)))).
    reflexivity.
  - rewrite (@sub_span_no_open LBRACKET RBRACKET _
               (@span_text_without LBRACKET LPAREN RPAREN pre inner post
                  ltac:(discriminate) ltac:(discriminate) H1)).
    rewrite (sub_span_removes _ _ _ _ H2 Hc Hl).
    rewrite (@sub_span_no_open LANGLE RANGLE _ (proj2 (proj2 (span_text_rest _ _ _ _ H3)))).
    rewrite (@sub_span_no_open MUSIC_NOTE MUSIC_NOTE _ (proj2 (proj2 (span_text_rest _ _ _ _ H4)))).
    reflexivity.
  - rewrite (@sub_span_no_open LBRACKET RBRACKET _
               (@span_text_without LBRACKET LANGLE RANGLE pre inner post
                  ltac:(discriminate) ltac:(discriminate) H1)).
    rewrite (@sub_span_no_open LPAREN RPAREN _
               (@span_text_without LPAREN LANGLE RANGLE pre inner post
                  ltac:(discriminate) ltac:(discriminate) H2)).
    rewrite (sub_span_removes _ _ _ _ H3 Hc Hl).
    rewrite (@sub_span_no_open MUSIC_NOTE MUSIC_NOTE _ (proj2 (proj2 (span_text_rest _ _ _ _ H4)))).
    reflexivity.
  - rewrite (@sub_span_no_open LBRACKET RBRACKET _
               (@span_text_without LBRACKET MUSIC_NOTE MUSIC_NOTE pre inner post
                  ltac:(discriminate) ltac:(discriminate) H1)).
    rewrite (@sub_span_no_open LPAREN RPAREN _
               (@span_text_without LPAREN MUSIC_NOTE MUSIC_NOTE pre inner post
                  ltac:(discriminate) ltac:(discriminate) H2)).
    rewrite (@sub_span_no_open LANGLE RANGLE _
               (@span_text_without LANGLE MUSIC_NOTE MUSIC_NOTE pre inner post
                  ltac:(discriminate) ltac:(discriminate) H3)).
    rewrite (sub_span_removes _ _ _ _ H4 Hc Hl).
    reflexivity.
Qed.

(** C7 (amended). [normalize_transcript] yields at most one output line per
    input segment.  [clean_transcript_text] is the four span passes, the
    white-space pass and the trimming, followed by the length test: its
    result is empty or at least 3 characters long, is trimmed, and holds
    no white space but single spaces; and when the raw text has no line
    feed, the result holds no [[...]], [(...)], [<...>] or [♪...♪] span.
    Each span pass copies the text before an opening delimiter; deletes a
    span from an opening delimiter to the first closing one, when no line
    feed comes between them, and goes on with the text after it; and
    copies an opening delimiter that is not closed on its line.  A text
    with none of the four opening delimiters only has its white space
    collapsed and trimmed before the length test; and a text with one
    span, closed on its line, and no other opening delimiter is cleaned
    as the text without the span, so what stands around a span is kept.  An opening delimiter that is not
    closed may reach the result (["a < b (c"] is returned as it is), may
    go with a span of another kind (["[x ( y] hello"] gives ["hello"]), or
    fall to the length test (["<a"] gives the empty string). *)
Theorem normalize_and_clean :
  (forall transcript_data : list raw_segment,
      line_count (normalize_transcript transcript_data) <= length transcript_data)
  /\ (forall text : str,
        let r := clean_transcript_text text in
        r = (if (length (cleaned text) <? 3)%nat then [] else cleaned text)
        /\ (r = [] \/ 3 <= length r)
        /\ strip r = r
        /\ single_spaced r = true
        /\ (one_line text ->
            has_span LBRACKET RBRACKET r = false
            /\ has_span LPAREN RPAREN r = false
            /\ has_span LANGLE RANGLE r = false
            /\ has_span MUSIC_NOTE MUSIC_NOTE r = false))
  /\ (forall (open close : char) (pre rest : str),
        ~ In open pre ->
        sub_span open close (pre ++ rest) = pre ++ sub_span open close rest)
  /\ (forall (open close : char) (inner post : str),
        ~ In close inner -> one_line inner ->
        sub_span open close (open :: inner ++ close :: post) = sub_span open close post)
  /\ (forall (open close : char) (rest : str),
        (forall inner post, rest = inner ++ close :: post -> In NEWLINE inner) ->
        sub_span open close (open :: rest) = open :: sub_span open close rest)
  /\ (forall text : str,
        ~ In LBRACKET text -> ~ In LPAREN text ->
        ~ In LANGLE text -> ~ In MUSIC_NOTE text ->
        clean_transcript_text text
        = if (length (strip (collapse_whitespace text)) <? 3)%nat then []
          else strip (collapse_whitespace text))
  /\ (forall (open close : char) (pre inner post : str),
        In (open, close)
           [(LBRACKET, RBRACKET); (LPAREN, RPAREN); (LANGLE, RANGLE);
            (MUSIC_NOTE, MUSIC_NOTE)] ->
        (forall c, In c [LBRACKET; LPAREN; LANGLE; MUSIC_NOTE] ->
                   ~ In c (pre ++ inner ++ post)) ->
        ~ In close inner -> one_line inner ->
        clean_transcript_text (pre ++ open :: inner ++ close :: post)
        = clean_transcript_text (pre ++ post))
  /\ (clean_transcript_text (lit "[a] keep [b] this") = lit "keep this"
      /\ clean_transcript_text (lit "keep (one) and <two> more") = lit "keep and more"
      /\ clean_transcript_text (lit "a < b (c") = lit "a < b (c"
      /\ clean_transcript_text (lit "[x ( y] hello") = lit "hello"
      /\ clean_transcript_text (lit "<a") = []).
Proof.
  split; [exact normalize_transcript_line_count|].
  split.
  { intros text r. subst r.
    rewrite clean_transcript_text_unfold.
    split; [reflexivity|].
    destruct (Nat.ltb_spec (length (cleaned text)) 3) as [Hlt|Hge].
    - repeat split; auto.
    - split; [right; exact Hge|].
      split; [unfold cleaned; apply strip_fix|].
      split; [apply cleaned_single_spaced|].
      apply cleaned_spans. }
  split; [intros open close pre rest; apply sub_span_prefix|].
  split; [intros open close inner post; apply sub_span_closed|].
  split; [intros open close rest; apply sub_span_unclosed|].
  split.
  { intros text H1 H2 H3 H4.
    rewrite clean_transcript_text_unfold, (@cleaned_plain text H1 H2 H3 H4).
    reflexivity. }
  split.
  { intros open close pre inner post Hp Hplain Hc Hl.
    rewrite !clean_transcript_text_unfold.
    rewrite (@cleaned_closed_span open close pre inner post Hp Hplain Hc Hl).
    reflexivity. }
  repeat split; vm_compute; reflexivity.
Qed.

(** Witness for [normalize_and_clean]: the cleaning scenario of the
    specification. *)
Lemma normalize_and_clean_witness :
  clean_transcript_text (lit "[Music] Hello world [Applause] (inaudible) <tag>")
  = lit "Hello world"
  /\ has_span LBRACKET RBRACKET
       (clean_transcript_text (lit "[Music] Hello world [Applause] (inaudible) <tag>"))
     = false.
Proof.
  split; [vm_compute; reflexivity|].
  refine (proj1 (proj2 (proj2 (proj2 (proj2
    (proj1 (proj2 normalize_and_clean)
       (lit "[Music] Hello world [Applause] (inaudible) <tag>")))))
    _)).
  unfold one_line. vm_compute. intuition discriminate.
Defined.

(** C7, as stated, fails: an opening delimiter without its closing one
    survives cleaning and reaches the output line. *)
Lemma normalize_keeps_unclosed_delimiter :
  normalize_transcript [mkRaw (Some (lit "a < b (c")) (Some 0%Q) (Some 2%Q)]
  = lit "[00:00] a < b (c"
  /\ In LANGLE (normalize_transcript [mkRaw (Some (lit "a < b (c")) (Some 0%Q) (Some 2%Q)])
  /\ In LPAREN (normalize_transcript [mkRaw (Some (lit "a < b (c")) (Some 0%Q) (Some 2%Q)]).
Proof.
  vm_compute. intuition.
Qed.

(** The normalising scenario of the specification: two segments give two
    lines, each with its time stamp. *)
Theorem normalize_transcript_scenario :
  normalize_transcript
    [mkRaw (Some (lit "Hello world")) (Some 0%Q) (Some 2%Q);
     mkRaw (Some (lit "This is a test")) (Some 2%Q) (Some 3%Q)]
  = lit "[00:00] Hello world" ++ [NEWLINE] ++ lit "[00:02] This is a test".
Proof.
  vm_compute. reflexivity.
Qed.

(* ----------------------------------------------------------------- *)
(** ** The chunker *)
(* ----------------------------------------------------------------- *)

Lemma window_tokens_sum (segments : list parsed_line) (i j : nat) :
  window_tokens segments i j = sum_tokens (firstn (j - i) (skipn i segments)).
Proof. reflexivity. Qed.

Lemma max_overlap_floor (x : Q) : Z.max 1 (py_int x) = Z.max 1 (Qfloor x).
Proof.
  unfold py_int. destruct (Qle_bool 0 x) eqn:E; [reflexivity|].
  assert (Hx : (x < 0)%Q).
  { apply Qnot_le_lt. intros H. apply Qle_bool_iff in H. congruence. }
  assert (H1 : (Qfloor x < 0)%Z).
  { apply Z.lt_nge. intros H. apply (Qlt_not_le _ _ Hx).
    eapply Qle_trans; [|apply Qfloor_le].
    change 0%Q with (inject_Z 0). rewrite <- Zle_Qle. exact H. }
  assert (H2 : (Qceiling x <= 0)%Z).
  { change 0%Z with (Qceiling (inject_Z 0)).
    apply Qceiling_resp_le. apply Qlt_le_weak. exact Hx. }
  lia.
Qed.

Lemma next_start_formula (i j : nat) (overlap_percent : Q) :
  next_start i j (Z.of_nat (j - i)) overlap_percent
  = Nat.max (i + 1)
      (j - Z.to_nat (Z.max 1 (Qfloor (inject_Z (Z.of_nat (j - i)) * overlap_percent)%Q))).
Proof.
  unfold next_start. cbv zeta. rewrite max_overlap_floor.
  generalize (Qfloor (inject_Z (Z.of_nat (j - i)) * overlap_percent)%Q). intros z.
  lia.
Qed.

(** Forward progress: the next window starts after the current one. *)
Lemma next_start_progress (i j : nat) (n : Z) (overlap_percent : Q) :
  i < next_start i j n overlap_percent.
Proof. unfold next_start. cbv zeta. lia. Qed.

Lemma next_start_le (i j : nat) (n : Z) (overlap_percent : Q) :
  i < j -> next_start i j n overlap_percent <= j.
Proof. unfold next_start. cbv zeta. lia. Qed.

Section Window.

Variable chunk_size : Z.

Lemma length_snoc_nonzero (A : Type) (l : list A) (x : A) :
  (length (l ++ [x]) =? 0) = false.
Proof. rewrite length_app. simpl. apply Nat.eqb_neq. lia. Qed.

Lemma last_nonempty_indep (A : Type) (l : list A) (x d d' : A) :
  last (x :: l) d = last (x :: l) d'.
Proof.
  revert x. induction l as [|y l IH]; intros x; [reflexivity|].
  change (last (y :: l) d = last (y :: l) d'). apply IH.
Qed.

Lemma last_cons_default (A : Type) (l : list A) (x d : A) :
  last (x :: l) d = last l x.
Proof.
  destruct l as [|y l]; [reflexivity|].
  change (last (y :: l) d = last (y :: l) x). apply last_nonempty_indep.
Qed.

(** The inner loop, in closed form. *)
Lemma accumulate_accepted (rest : list parsed_line) :
  forall parts e t j,
    accumulate chunk_size rest parts e t j =
    let n := accepted chunk_size rest (length parts =? 0) t in
    (parts ++ map line_text (firstn n rest),
     last (map line_start (firstn n rest)) e,
     (t + sum_tokens (firstn n rest))%Z,
     j + n).
Proof.
  induction rest as [|s rest IH]; intros parts e t j; simpl.
  - rewrite app_nil_r, Z.add_0_r, Nat.add_0_r. reflexivity.
  - destruct (t <? chunk_size)%Z;
      [|cbn; rewrite app_nil_r, Z.add_0_r, Nat.add_0_r; reflexivity].
    destruct ((t + estimate_tokens (line_text s) <=? chunk_size)%Z
              || (length parts =? 0));
      [|cbn; rewrite app_nil_r, Z.add_0_r, Nat.add_0_r; reflexivity].
    rewrite IH, length_snoc_nonzero. cbv zeta.
    set (n := accepted chunk_size rest false (t + estimate_tokens (line_text s))).
    cbn [firstn map]. rewrite <- app_assoc. cbn [app].
    rewrite last_cons_default.
    unfold sum_tokens. cbn [map fold_right].
    f_equal; [f_equal|]; lia.
Qed.

(** How many lines are taken, and why the loop stops. *)
Lemma accepted_spec (rest : list parsed_line) :
  forall first t,
    let n := accepted chunk_size rest first t in
    n <= length rest
    /\ (forall m, m < n ->
          (first = true /\ m = 0 /\ (t < chunk_size)%Z)
          \/ ((t + sum_tokens (firstn m rest) < chunk_size)%Z
              /\ (t + sum_tokens (firstn (S m) rest) <= chunk_size)%Z))
    /\ (n = length rest
        \/ (chunk_size <= t + sum_tokens (firstn n rest))%Z
        \/ (chunk_size < t + sum_tokens (firstn (S n) rest))%Z).
Proof.
  unfold sum_tokens.
  induction rest as [|s rest IH]; intros first t; cbn [accepted].
  - cbn. repeat split; [lia | intros m Hm; lia | left; reflexivity].
  - cbv zeta.
    destruct (Z.ltb_spec t chunk_size) as [Hlt|Hge].
    2: { cbn. repeat split; [lia | intros m Hm; lia | right; left; lia]. }
    destruct ((t + estimate_tokens (line_text s) <=? chunk_size)%Z || first) eqn:E.
    2: { apply orb_false_elim in E. destruct E as [E _].
         apply Z.leb_gt in E.
         cbn. repeat split; [lia | intros m Hm; lia | right; right; lia]. }
    specialize (IH false (t + estimate_tokens (line_text s))%Z).
    cbv zeta in IH. destruct IH as (IH1 & IH2 & IH3).
    set (n := accepted chunk_size rest false (t + estimate_tokens (line_text s))) in *.
    split; [cbn [length]; lia|]. split.
    + intros [|m] Hm.
      * apply orb_prop in E. destruct E as [E|E].
        -- right. apply Z.leb_le in E. cbn. lia.
        -- left. auto.
      * destruct (IH2 m ltac:(lia)) as [(F & _)|(H1 & H2)]; [discriminate|].
        right. cbn [firstn map fold_right] in *. lia.
    + cbn [length firstn map fold_right] in *.
      destruct IH3 as [H|[H|H]]; [left; lia | right; left; lia | right; right; lia].
Qed.

Lemma accepted_first (rest : list parsed_line) (s : parsed_line) :
  (0 < chunk_size)%Z -> 1 <= accepted chunk_size (s :: rest) true 0%Z.
Proof.
  intros H. cbn [accepted]. cbv zeta.
  destruct (Z.ltb_spec 0 chunk_size); [|lia].
  rewrite orb_true_r. lia.
Qed.

End Window.

Section Loop.

Variable segments : list parsed_line.
Variable chunk_size : Z.
Variable overlap_percent : Q.

Local Abbreviation taken := (window_size segments chunk_size).

Lemma skipn_nth_error_cons (i : nat) (first : parsed_line) :
  nth_error segments i = Some first ->
  skipn i segments = first :: skipn (S i) segments.
Proof.
  revert i. induction segments as [|s l IH]; intros [|i] H; simpl in *; try discriminate.
  - injection H as ->. reflexivity.
  - rewrite (IH i H). reflexivity.
Qed.

Lemma accumulate_window (i : nat) (first : parsed_line) :
  nth_error segments i = Some first ->
  accumulate chunk_size (skipn i segments) [] (line_start first) 0%Z i
  = (map line_text (window_lines segments (i, i + taken i)),
     last (map line_start (window_lines segments (i, i + taken i))) (line_start first),
     window_tokens segments i (i + taken i),
     i + taken i).
Proof.
  intros H. rewrite accumulate_accepted. cbv zeta.
  unfold window_tokens, window_lines, window_size. cbn [fst snd length Nat.eqb app].
  replace (i + accepted chunk_size (skipn i segments) true 0 - i)
    with (accepted chunk_size (skipn i segments) true 0) by lia.
  reflexivity.
Qed.

Lemma taken_le (i : nat) : i + taken i <= Nat.max i (length segments).
Proof.
  unfold window_size.
  pose proof (accepted_spec chunk_size (skipn i segments) true 0%Z) as (H & _).
  cbv zeta in H. rewrite length_skipn in H. lia.
Qed.

Lemma firstn_firstn_skipn (i a b : nat) :
  a <= b ->
  firstn a (firstn b (skipn i segments)) = firstn a (skipn i segments).
Proof. intros H. rewrite firstn_firstn. f_equal. lia. Qed.

(** The window the inner loop takes is the one [window_of] describes. *)
Lemma taken_window_of (i : nat) :
  (0 < chunk_size)%Z -> i < length segments ->
  window_of segments chunk_size i (i + taken i).
Proof.
  intros Hcs Hi.
  pose proof (accepted_spec chunk_size (skipn i segments) true 0%Z) as (H1 & H2 & H3).
  cbv zeta in H1, H2, H3. fold (taken i) in H1, H2, H3.
  rewrite length_skipn in H1, H3.
  assert (Hn : 1 <= taken i).
  { destruct (nth_error segments i) as [first|] eqn:E.
    - unfold window_size. rewrite (skipn_nth_error_cons i E).
      apply accepted_first, Hcs.
    - apply nth_error_None in E. lia. }
  unfold window_of. split; [lia|]. split.
  - intros m Hm.
    destruct (H2 (m - i) ltac:(lia)) as [(_ & F & _)|(A & B)]; [lia|].
    rewrite !window_tokens_sum.
    replace (S m - i) with (S (m - i)) by lia. lia.
  - rewrite !window_tokens_sum.
    replace (i + taken i - i) with (taken i) by lia.
    replace (S (i + taken i) - i) with (S (taken i)) by lia.
    destruct H3 as [H|[H|H]]; [left; lia | right; left; lia | right; right; lia].
Qed.

(** The windows of the loop follow the overlap rule. *)
Lemma chunk_windows_chain (fuel : nat) :
  (0 < chunk_size)%Z ->
  forall i, length segments - i <= fuel ->
    window_chain segments chunk_size overlap_percent i
      (chunk_windows fuel segments chunk_size overlap_percent i).
Proof.
  intros Hcs. induction fuel as [|fuel IH]; intros i Hf.
  - assert (Hi : length segments <= i) by lia.
    pose proof (proj2 (nth_error_None segments i) Hi) as E.
    cbn [chunk_windows]. rewrite E. constructor. exact Hi.
  - cbn [chunk_windows].
    destruct (nth_error segments i) as [first|] eqn:E.
    2: { apply nth_error_None in E. constructor. exact E. }
    assert (Hi : i < length segments) by (apply nth_error_Some; congruence).
    rewrite (accumulate_window i E).
    pose proof (taken_window_of Hcs Hi) as Hw.
    constructor; [exact Hw|].
    rewrite <- next_start_formula.
    replace (i + taken i - i) with (taken i) by lia.
    unfold len. rewrite length_map. unfold window_lines. cbn [fst snd].
    replace (i + taken i - i) with (taken i) by lia.
    assert (Hlen : length (firstn (taken i) (skipn i segments)) = taken i).
    { apply firstn_length_le. rewrite length_skipn.
      destruct Hw as (Hw & _). lia. }
    rewrite Hlen. apply IH.
    pose proof (next_start_progress i (i + taken i) (Z.of_nat (taken i)) overlap_percent).
    lia.
Qed.

Lemma start_of_nth_error (i : nat) (first : parsed_line) :
  nth_error segments i = Some first -> start_of segments i = line_start first.
Proof. unfold start_of. intros ->. reflexivity. Qed.

Lemma last_window_start (i n : nat) (d : Q) :
  1 <= n -> i + n <= length segments ->
  last (map line_start (firstn n (skipn i segments))) d
  = start_of segments (i + n - 1).
Proof.
  intros Hn Hlen.
  assert (Hl : length (firstn n (skipn i segments)) = n).
  { apply firstn_length_le. rewrite length_skipn. lia. }
  destruct (nth_error segments (i + n - 1)) as [s|] eqn:E.
  2: { apply nth_error_None in E. lia. }
  rewrite (start_of_nth_error _ E).
  assert (Hs : nth_error (firstn n (skipn i segments)) (n - 1) = Some s).
  { rewrite nth_error_firstn.
    destruct (Nat.ltb_spec (n - 1) n); [|lia].
    rewrite nth_error_skipn. rewrite <- E. f_equal. lia. }
  apply nth_error_split in Hs. destruct Hs as (l1 & l2 & Heq & Hl1).
  assert (l2 = []).
  { apply (f_equal (@length _)) in Heq. rewrite Hl, length_app in Heq.
    cbn [length] in Heq. destruct l2; [reflexivity | cbn [length] in Heq; lia]. }
  subst l2. rewrite Heq, map_app. cbn [map]. apply last_last.
Qed.

(** The loop emits the chunks of its windows, and does not run out of
    fuel when given one unit per line. *)
Lemma chunk_loop_emit (fuel : nat) :
  forall i chunk_id chunks,
    length segments - i <= fuel ->
    chunk_loop fuel segments chunk_size overlap_percent i chunk_id chunks
    = Some (chunks ++ emit segments
                        (chunk_windows fuel segments chunk_size overlap_percent i)
                        chunk_id).
Proof.
  induction fuel as [|fuel IH]; intros i chunk_id chunks Hf.
  - assert (Hi : length segments <= i) by lia.
    pose proof (proj2 (nth_error_None segments i) Hi) as E.
    cbn [chunk_loop chunk_windows]. rewrite E. cbn [emit]. rewrite app_nil_r. reflexivity.
  - cbn [chunk_loop chunk_windows].
    destruct (nth_error segments i) as [first|] eqn:E.
    2: { cbn [emit]. rewrite app_nil_r. reflexivity. }
    assert (Hi : i < length segments) by (apply nth_error_Some; congruence).
    rewrite (accumulate_window i E).
    pose proof (next_start_progress i (i + taken i)
                  (len (map line_text (window_lines segments (i, i + taken i))))
                  overlap_percent) as Hp.
    cbn [emit]. fold (window_text segments (i, i + taken i)).
    destruct (nonempty (strip (window_text segments (i, i + taken i)))) eqn:Hb.
    + rewrite IH by lia. rewrite <- app_assoc. cbn [app fst snd].
      rewrite (start_of_nth_error i E).
      assert (Hn : 1 <= taken i).
      { destruct (taken i) eqn:Ht; [|lia].
        unfold window_text, window_lines in Hb. cbn [fst snd] in Hb.
        replace (i + 0 - i) with 0 in Hb by lia. cbn in Hb. discriminate. }
      unfold window_lines. cbn [fst snd].
      replace (i + taken i - i) with (taken i) by lia.
      rewrite (last_window_start i (line_start first) Hn).
      * reflexivity.
      * pose proof (taken_le i). lia.
    + rewrite IH by lia. reflexivity.
Qed.

(** Every line lies in a window. *)
Lemma window_chain_cover (i : nat) (ws : list (nat * nat)) :
  window_chain segments chunk_size overlap_percent i ws ->
  forall k, i <= k < length segments ->
    exists a b, In (a, b) ws /\ a <= k < b.
Proof.
  induction 1 as [i Hi | i j ws Hw Hc IH]; intros k Hk; [lia|].
  destruct (Nat.lt_ge_cases k j) as [Hlt|Hge].
  - exists i, j. split; [left; reflexivity | lia].
  - destruct Hw as (Hij & _).
    destruct (IH k) as (a & b & Hin & Hab); [lia|].
    exists a, b. split; [right; exact Hin | exact Hab].
Qed.

(** The starts of the windows increase strictly, whatever the budget. *)
Lemma chunk_windows_increasing (fuel : nat) :
  forall i,
    match chunk_windows fuel segments chunk_size overlap_percent i with
    | [] => True
    | (a, _) :: _ => a = i
    end
    /\ (forall ws1 a b a' b' ws2,
          chunk_windows fuel segments chunk_size overlap_percent i
          = ws1 ++ (a, b) :: (a', b') :: ws2 -> a < a').
Proof.
  induction fuel as [|fuel IH]; intros i; cbn [chunk_windows].
  - destruct (nth_error segments i); split; try exact I;
      intros [|? ?] ? ? ? ? ? H; discriminate.
  - destruct (nth_error segments i) as [first|] eqn:E.
    2: { split; [exact I|]. intros [|? ?] ? ? ? ? ? H; discriminate. }
    rewrite (accumulate_window i E).
    split; [reflexivity|].
    match goal with |- context [chunk_windows fuel _ _ _ ?n] =>
      pose proof (IH n) as (IH1 & IH2);
      assert (Hp : i < n) by apply next_start_progress;
      destruct (chunk_windows fuel segments chunk_size overlap_percent n)
        as [|[a0 b0] rest] eqn:Ew
    end.
    + intros [|? [|? ?]] ? ? ? ? ? H; discriminate.
    + intros [|w ws1] a b a' b' ws2 Heq.
      * cbn [app] in Heq. injection Heq as <- <- <- <- <-. subst a0. exact Hp.
      * cbn [app] in Heq. injection Heq as _ Heq. exact (IH2 _ _ _ _ _ _ Heq).
Qed.

End Loop.

(** *** Blank chunks *)

Lemma lstrip_has_text (s : str) : has_text (lstrip s) = has_text s.
Proof.
  induction s as [|c s IH]; [reflexivity|].
  cbn [lstrip]. destruct (isspace c) eqn:E; [|reflexivity].
  rewrite IH. unfold has_text. cbn [existsb]. rewrite E. reflexivity.
Qed.

Lemma rstrip_nonempty (s : str) : nonempty (rstrip s) = has_text s.
Proof.
  induction s as [|c s IH]; [reflexivity|].
  cbn [rstrip]. unfold has_text in *. cbn [existsb]. rewrite <- IH.
  destruct (rstrip s); [destruct (isspace c); reflexivity|].
  cbn. rewrite orb_true_r. reflexivity.
Qed.

Lemma strip_nonempty (s : str) : nonempty (strip s) = has_text s.
Proof. unfold strip. rewrite rstrip_nonempty. apply lstrip_has_text. Qed.

Lemma has_text_app (a b : str) : has_text (a ++ b) = has_text a || has_text b.
Proof. apply existsb_app. Qed.

Lemma join_has_text (sep : str) (parts : list str) (x : str) :
  In x parts -> has_text x = true -> has_text (join sep parts) = true.
Proof.
  induction parts as [|p parts IH]; intros Hin Hx; [contradiction|].
  destruct parts as [|q parts].
  - destruct Hin as [->|[]]. exact Hx.
  - change (join sep (p :: q :: parts)) with (p ++ sep ++ join sep (q :: parts)).
    rewrite !has_text_app.
    destruct Hin as [->|Hin]; [rewrite Hx; reflexivity|].
    rewrite (IH Hin Hx), !orb_true_r. reflexivity.
Qed.

Lemma window_lines_In (segments : list parsed_line) (a b k : nat) (line : parsed_line) :
  a <= k < b -> nth_error segments k = Some line ->
  In line (window_lines segments (a, b)).
Proof.
  intros Hk E. unfold window_lines. cbn [fst snd].
  apply (nth_error_In _ (k - a)).
  rewrite nth_error_firstn.
  destruct (Nat.ltb_spec (k - a) (b - a)); [|lia].
  rewrite nth_error_skipn. rewrite <- E. f_equal. lia.
Qed.

Lemma emit_In (segments : list parsed_line) (ws : list (nat * nat)) (w : nat * nat) :
  In w ws -> nonempty (strip (window_text segments w)) = true ->
  forall chunk_id, exists id,
    In (mkChunk (window_text segments w)
                (start_of segments (fst w)) (start_of segments (snd w - 1)) id)
       (emit segments ws chunk_id).
Proof.
  induction ws as [|w0 ws IH]; intros Hin Hb chunk_id; [contradiction|].
  cbn [emit]. destruct Hin as [->|Hin].
  - rewrite Hb. exists chunk_id. left. reflexivity.
  - destruct (nonempty (strip (window_text segments w0))).
    + destruct (IH Hin Hb (chunk_id + 1)%Z) as (id & Hid). exists id. right. exact Hid.
    + exact (IH Hin Hb chunk_id).
Qed.

Lemma chunk_segments_emit (segments : list parsed_line)
    (chunk_size : option Z) (overlap_percent : option Q) :
  chunk_segments segments chunk_size overlap_percent
  = Some (emit segments
            (chunk_windows (length segments) segments
               (or_default Z_is_zero chunk_size CHUNK_SIZE_TOKENS)
               (or_default Qis_zero overlap_percent CHUNK_OVERLAP_PERCENT) 0)
            0%Z).
Proof.
  unfold chunk_segments. cbv zeta.
  destruct segments as [|s segments]; [reflexivity|].
  cbn [nonempty negb].
  rewrite chunk_loop_emit by lia. reflexivity.
Qed.

(** C1 (amended). For a positive token budget (the configured one when
    the argument is absent or zero), [chunk_transcript] on the parsed lines
    runs through windows [[i, j)], the first from line 0.  A window takes
    line [i] whatever its size, then each further line as long as the
    estimate so far is strictly under the budget and stays at or under it
    with that line; so it also stops when the budget is met exactly.  Each
    window whose text is not blank yields, in order, a chunk with the lines
    joined by spaces as text, the start of line [i] as [start_time] and the
    start of line [j - 1] as [end_time].  The next window starts at
    [max(i + 1, j - max(1, floor((j - i) * overlap)))]. *)
Theorem chunk_transcript_windows :
  forall (segments : list parsed_line)
         (chunk_size : option Z) (overlap_percent : option Q),
    let cs := or_default Z_is_zero chunk_size CHUNK_SIZE_TOKENS in
    let ov := or_default Qis_zero overlap_percent CHUNK_OVERLAP_PERCENT in
    (0 < cs)%Z ->
    exists ws : list (nat * nat),
      chunk_segments segments chunk_size overlap_percent
      = Some (emit segments ws 0%Z)
      /\ window_chain segments cs ov 0 ws.
Proof.
  intros segments chunk_size overlap_percent cs ov Hcs.
  exists (chunk_windows (length segments) segments cs ov 0). split.
  - apply chunk_segments_emit.
  - apply chunk_windows_chain; [exact Hcs | lia].
Qed.

(** Witness for [chunk_transcript_windows]: three lines and a budget of
    ten tokens. *)
Lemma chunk_transcript_windows_witness :
  (0 < or_default Z_is_zero (Some 10%Z) CHUNK_SIZE_TOKENS)%Z
  /\ exists ws : list (nat * nat),
       chunk_segments
         [mkLine (lit "Hello world this is a test") 0;
          mkLine (lit "This is another segment") 5;
          mkLine (lit "And this is the final segment") 10]
         (Some 10%Z) None
       = Some (emit
                 [mkLine (lit "Hello world this is a test") 0;
                  mkLine (lit "This is another segment") 5;
                  mkLine (lit "And this is the final segment") 10] ws 0%Z)
       /\ window_chain
            [mkLine (lit "Hello world this is a test") 0;
             mkLine (lit "This is another segment") 5;
             mkLine (lit "And this is the final segment") 10]
            10%Z CHUNK_OVERLAP_PERCENT 0 ws.
Proof.
  split; [reflexivity|].
  apply (chunk_transcript_windows
           [mkLine (lit "Hello world this is a test") 0;
            mkLine (lit "This is another segment") 5;
            mkLine (lit "And this is the final segment") 10]
           (Some 10%Z) None).
  reflexivity.
Defined.

(** C1, as stated, fails: the window is not the longest run of lines whose
    estimate stays at or under the budget.  With a budget of one token the
    line ["abcd"] (one token) fills it, and the line ["abc"] (no token),
    which would keep the estimate at the budget, is left to the next
    chunk. *)
Lemma chunk_window_not_greedy :
  chunk_segments [mkLine (lit "abcd") 0; mkLine (lit "abc") 5] (Some 1%Z) None
  = Some [mkChunk (lit "abcd") 0 0 0; mkChunk (lit "abc") 5 5 1]
  /\ chunk_windows 2 [mkLine (lit "abcd") 0; mkLine (lit "abc") 5]
       1%Z CHUNK_OVERLAP_PERCENT 0 = [(0, 1); (1, 2)]
  /\ (window_tokens [mkLine (lit "abcd") 0; mkLine (lit "abc") 5] 0 2 <= 1)%Z
  /\ ~ greedy_window [mkLine (lit "abcd") 0; mkLine (lit "abc") 5] 1%Z 0 1.
Proof.
  split; [vm_compute; reflexivity|].
  split; [vm_compute; reflexivity|].
  split; [vm_compute; discriminate|].
  intros (_ & _ & [H|H]).
  - discriminate H.
  - vm_compute in H. discriminate H.
Qed.

Lemma chunk_windows_fuel (segments : list parsed_line) (chunk_size : Z)
    (overlap_percent : Q) (fuel : nat) :
  forall i, length (chunk_windows fuel segments chunk_size overlap_percent i) <= fuel.
Proof.
  induction fuel as [|fuel IH]; intros i; cbn [chunk_windows].
  - destruct (nth_error segments i); apply Nat.le_refl.
  - destruct (nth_error segments i) as [first|]; [|cbn; lia].
    destruct (accumulate _ _ _ _ _ _) as [[[parts ?] ?] j].
    cbn [length]. specialize (IH (next_start i j (len parts) overlap_percent)). lia.
Qed.

Lemma existsb_map_comp (A B : Type) (f : B -> bool) (g : A -> B) (l : list A) :
  existsb f (map g l) = existsb (fun x => f (g x)) l.
Proof.
  induction l as [|x l IH]; [reflexivity|]. cbn [map existsb]. rewrite IH. reflexivity.
Qed.

Lemma has_text_join_space (parts : list str) :
  has_text (join (lit " ") parts) = existsb has_text parts.
Proof.
  induction parts as [|p parts IH]; [reflexivity|].
  destruct parts as [|q parts].
  - cbn [join existsb]. rewrite orb_false_r. reflexivity.
  - change (join (lit " ") (p :: q :: parts))
      with (p ++ lit " " ++ join (lit " ") (q :: parts)).
    rewrite !has_text_app, IH. reflexivity.
Qed.

(** One chunk for each window whose text is not blank, in order. *)
Lemma emit_texts (segments : list parsed_line) (ws : list (nat * nat)) :
  forall next_id,
    map text (emit segments ws next_id)
    = filter has_text (map (window_text segments) ws).
Proof.
  induction ws as [|w ws IH]; intros next_id; [reflexivity|].
  cbn [emit map filter]. rewrite strip_nonempty.
  destruct (has_text (window_text segments w)); cbn [map text]; rewrite IH; reflexivity.
Qed.

(** C2 (amended). For an overlap in force in [0, 1), the index at which a
    window starts increases strictly from one iteration to the next, so
    the loop ends within one iteration per line and returns the chunks of
    its windows; an iteration emits a chunk exactly when the text of its
    window is not blank, that is, when some line of the window has text
    that is not blank.  For a positive token budget every line lies in the
    window [[i, j)] of some iteration, and that iteration emits a chunk
    whenever the line has text that is not blank. *)
Theorem chunking_progress_and_coverage :
  forall (segments : list parsed_line)
         (chunk_size : option Z) (overlap_percent : option Q),
    let cs := or_default Z_is_zero chunk_size CHUNK_SIZE_TOKENS in
    let ov := or_default Qis_zero overlap_percent CHUNK_OVERLAP_PERCENT in
    let ws := chunk_windows (length segments) segments cs ov 0 in
    (0 <= ov)%Q -> (ov < 1)%Q ->
    (forall i j n, i < next_start i j n ov)
    /\ (forall ws1 a b a' b' ws2, ws = ws1 ++ (a, b) :: (a', b') :: ws2 -> a < a')
    /\ length ws <= length segments
    /\ chunk_segments segments chunk_size overlap_percent
       = Some (emit segments ws 0%Z)
    /\ map text (emit segments ws 0%Z)
       = filter has_text (map (window_text segments) ws)
    /\ (forall w,
          has_text (window_text segments w)
          = existsb (fun line => has_text (line_text line)) (window_lines segments w))
    /\ ((0 < cs)%Z ->
        forall k line, nth_error segments k = Some line ->
          exists a b,
            In (a, b) ws /\ a <= k < b
            /\ (has_text (line_text line) = true ->
                exists id,
                  In (mkChunk (window_text segments (a, b))
                              (start_of segments a) (start_of segments (b - 1)) id)
                     (emit segments ws 0%Z))).
Proof.
  intros segments chunk_size overlap_percent cs ov ws _ _.
  split; [intros; apply next_start_progress|].
  split; [apply (chunk_windows_increasing segments cs ov (length segments) 0)|].
  split; [apply chunk_windows_fuel|].
  split; [apply chunk_segments_emit|].
  split; [apply emit_texts|].
  split.
  { intros w. unfold window_text. rewrite has_text_join_space, existsb_map_comp. reflexivity. }
  intros Hcs k line E.
  assert (Hk : k < length segments) by (apply nth_error_Some; congruence).
  assert (Hc : window_chain segments cs ov 0 ws)
    by (apply chunk_windows_chain; [exact Hcs | lia]).
  destruct (window_chain_cover Hc (k := k)) as (a & b & Hin & Hab); [lia|].
  exists a, b. split; [exact Hin|]. split; [exact Hab|].
  intros Ht.
  apply (emit_In segments ws (a, b) Hin).
  rewrite strip_nonempty. unfold window_text.
  apply (join_has_text _ _ (line_text line)); [|exact Ht].
  apply in_map. exact (window_lines_In segments Hab E).
Qed.

(** Witness for [chunking_progress_and_coverage]: the second of three
    lines, with a budget of ten tokens and the configured overlap. *)
Lemma chunking_progress_and_coverage_witness :
  exists a b,
    In (a, b)
       (chunk_windows 3
          [mkLine (lit "Hello world this is a test") 0;
           mkLine (lit "This is another segment") 5;
           mkLine (lit "And this is the final segment") 10]
          10%Z CHUNK_OVERLAP_PERCENT 0)
    /\ a <= 1 < b.
Proof.
  destruct (proj2 (proj2 (proj2 (proj2 (proj2 (proj2
    (chunking_progress_and_coverage
       [mkLine (lit "Hello world this is a test") 0;
        mkLine (lit "This is another segment") 5;
        mkLine (lit "And this is the final segment") 10]
       (Some 10%Z) None ltac:(discriminate) ltac:(reflexivity)))))))
    eq_refl 1 (mkLine (lit "This is another segment") 5) eq_refl)
    as (a & b & Hin & Hab & _).
  exists a, b. split; [exact Hin | exact Hab].
Defined.

(** C2, as stated, fails: a line with no text is parsed, and the only
    window that holds it emits no chunk.  And with a negative token budget
    the inner loop takes no line: the windows are empty and no chunk is
    emitted, whatever the text. *)
Lemma blank_line_in_no_chunk :
  parse_lines (split NEWLINE (strip (lit "[01:23]"))) = [mkLine [] 83]
  /\ chunk_transcript (lit "[01:23]") None None = Some []
  /\ chunk_windows 1 [mkLine [] 83] CHUNK_SIZE_TOKENS CHUNK_OVERLAP_PERCENT 0
     = [(0, 1)]
  /\ chunk_transcript (lit "[00:00] abcd") (Some (-1)%Z) None = Some []
  /\ chunk_windows 1 [mkLine (lit "abcd") 0] (-1) CHUNK_OVERLAP_PERCENT 0
     = [(0, 0)].
Proof.
  repeat split; vm_compute; reflexivity.
Qed.

(** The chunking scenario of the specification: the single line
    ["[01:23] Test segment"] gives one chunk, cited as [[01:23–01:23]]. *)
Theorem chunk_transcript_citation_scenario :
  chunk_transcript (lit "[01:23] Test segment") None None
  = Some [mkChunk (lit "Test segment") 83 83 0]
  /\ get_citation (mkChunk (lit "Test segment") 83 83 0)
     = lit "[01:23" ++ [EN_DASH] ++ lit "01:23]".
Proof.
  split; vm_compute; reflexivity.
Qed.

(* ----------------------------------------------------------------- *)
(** ** Cosine similarity *)
(* ----------------------------------------------------------------- *)

Section Cosine.

Local Open Scope R_scope.

Lemma Req_bool_true (x y : R) : Req_bool x y = true <-> x = y.
Proof.
  unfold Req_bool. destruct (Req_dec_T x y); split; auto; discriminate.
Qed.

Lemma Req_bool_false (x y : R) : Req_bool x y = false <-> x <> y.
Proof.
  unfold Req_bool. destruct (Req_dec_T x y); split; auto; try discriminate.
  intros H. contradiction.
Qed.

Lemma Rle_bool_true (x y : R) : Rle_bool x y = true <-> x <= y.
Proof.
  unfold Rle_bool. destruct (Rle_dec x y); split; auto; discriminate.
Qed.

Lemma Rlt_bool_true (x y : R) : Rlt_bool x y = true <-> x < y.
Proof.
  unfold Rlt_bool. destruct (Rlt_dec x y); split; auto; discriminate.
Qed.

Lemma Rlt_bool_false (x y : R) : Rlt_bool x y = false <-> y <= x.
Proof.
  unfold Rlt_bool. destruct (Rlt_dec x y); split; intros H;
    try reflexivity; try discriminate; lra.
Qed.

Lemma dot_comm (a : list R) : forall b, dot a b = dot b a.
Proof.
  induction a as [|x a IH]; intros [|y b]; simpl; try reflexivity.
  rewrite IH. ring.
Qed.

Lemma np_dot_comm (a b : list R) : np_dot a b = np_dot b a.
Proof.
  unfold np_dot. rewrite Nat.eqb_sym, dot_comm. reflexivity.
Qed.

Lemma dot_self_nonneg (v : list R) : 0 <= dot v v.
Proof.
  induction v as [|x v IH]; simpl; [lra|].
  pose proof (Rle_0_sqr x) as H. unfold Rsqr in H. lra.
Qed.

Lemma dot_self_zero (v : list R) : dot v v = 0 <-> Forall (fun x => x = 0) v.
Proof.
  induction v as [|x v IH]; simpl.
  - split; [constructor | reflexivity].
  - pose proof (Rle_0_sqr x) as Hx. unfold Rsqr in Hx.
    pose proof (dot_self_nonneg v) as Hv.
    split.
    + intros H. assert (Hx0 : x * x = 0) by lra. assert (Hv0 : dot v v = 0) by lra.
      constructor; [|apply IH, Hv0].
      destruct (Rmult_integral _ _ Hx0); assumption.
    + intros H. inversion H as [|? ? H0 Hrest]; subst.
      rewrite (proj2 IH Hrest). ring.
Qed.

Lemma norm_zero (v : list R) : norm v = 0 <-> Forall (fun x => x = 0) v.
Proof.
  unfold norm. rewrite <- dot_self_zero. split.
  - apply sqrt_eq_0, dot_self_nonneg.
  - intros ->. apply sqrt_0.
Qed.

Lemma norm_nonzero (v : list R) : Exists (fun x => x <> 0) v -> norm v <> 0.
Proof.
  intros He Hn. apply norm_zero in Hn.
  apply Exists_exists in He. destruct He as (x & Hin & Hx).
  rewrite Forall_forall in Hn. exact (Hx (Hn x Hin)).
Qed.

Lemma cosine_similarity_comm (a b : list R) :
  cosine_similarity a b = cosine_similarity b a.
Proof.
  unfold cosine_similarity. cbv zeta.
  rewrite np_dot_comm, (orb_comm (Req_bool (norm a) 0)), (Rmult_comm (norm a)).
  reflexivity.
Qed.

Lemma cosine_similarity_zero_norm (a b : list R) :
  norm a = 0 \/ norm b = 0 -> cosine_similarity a b = Ok 0.
Proof.
  intros H. unfold cosine_similarity. cbv zeta.
  destruct H as [H|H]; rewrite H.
  - rewrite (proj2 (Req_bool_true 0 0) eq_refl). reflexivity.
  - rewrite (proj2 (Req_bool_true 0 0) eq_refl), orb_true_r. reflexivity.
Qed.

Lemma cosine_similarity_defined (a b : list R) :
  norm a <> 0 -> norm b <> 0 -> length a = length b ->
  norm a * norm b <> 0
  /\ cosine_similarity a b = Ok (dot a b / (norm a * norm b)).
Proof.
  intros Ha Hb Hl. split.
  - intros H. destruct (Rmult_integral _ _ H); contradiction.
  - unfold cosine_similarity, np_dot. cbv zeta.
    rewrite (proj2 (Req_bool_false _ _) Ha), (proj2 (Req_bool_false _ _) Hb).
    rewrite Hl, Nat.eqb_refl. reflexivity.
Qed.

Lemma cosine_similarity_self (v : list R) :
  Exists (fun x => x <> 0) v -> cosine_similarity v v = Ok 1.
Proof.
  intros He. pose proof (norm_nonzero He) as Hn.
  destruct (cosine_similarity_defined v v Hn Hn eq_refl) as (Hp & ->).
  f_equal. unfold norm in *.
  rewrite sqrt_sqrt by apply dot_self_nonneg.
  apply Rdiv_diag.
  intros H0. apply Hn. rewrite H0. apply sqrt_0.
Qed.

(** When the lengths agree the score is defined. *)
Lemma cosine_similarity_ok (a b : list R) :
  length a = length b -> exists s, cosine_similarity a b = Ok s.
Proof.
  intros Hl. unfold cosine_similarity, np_dot. cbv zeta.
  rewrite Hl, Nat.eqb_refl.
  destruct (Req_bool (norm a) 0 || Req_bool (norm b) 0); eauto.
Qed.

End Cosine.

(* ----------------------------------------------------------------- *)
(** ** The score in binary64 *)
(* ----------------------------------------------------------------- *)

(** The norms are square roots, and a square root is zero or at least
    2^-537: the product of two norms that are not zero does not underflow
    to zero.  The proof is on the specification of the operations
    ([SpecFloat]), which the primitive floats satisfy. *)
Section Binary64Rounding.

Import PrimFloat.
Import SpecFloat FloatOps FloatAxioms.
Local Open Scope Z_scope.















End Binary64Rounding.

Section Binary64Scores.

Import PrimFloat.
Local Open Scope float_scope.












End Binary64Scores.

(* ----------------------------------------------------------------- *)
(** ** Ranking *)
(* ----------------------------------------------------------------- *)

Section Ranking.

Local Open Scope R_scope.

Abbreviation scored := (list (TranscriptChunk * R)) (only parsing).

Lemma In_firstn (A : Type) (n : nat) (l : list A) (x : A) :
  In x (firstn n l) -> In x l.
Proof.
  revert l. induction n as [|n IH]; intros [|y l]; simpl; try tauto.
  intros [H|H]; [left; exact H | right; apply IH, H].
Qed.

Lemma insert_desc_Forall (P : TranscriptChunk * R -> Prop) (p : TranscriptChunk * R)
    (l : scored) :
  P p -> Forall P l -> Forall P (insert_desc p l).
Proof.
  intros Hp. induction 1 as [|q l Hq Hl IH]; simpl.
  - constructor; [exact Hp | constructor].
  - destruct (Rlt_bool (snd p) (snd q)).
    + constructor; assumption.
    + constructor; [exact Hp | constructor; assumption].
Qed.

Lemma insert_desc_sorted (p : TranscriptChunk * R) (l : scored) :
  sorted_desc l -> sorted_desc (insert_desc p l).
Proof.
  induction l as [|q l IH]; simpl; intros Hs.
  - split; [constructor | exact I].
  - destruct Hs as (Hq & Hs).
    destruct (Rlt_bool (snd p) (snd q)) eqn:E.
    + apply Rlt_bool_true in E. cbn [sorted_desc]. split.
      * apply insert_desc_Forall; [lra | exact Hq].
      * apply IH, Hs.
    + apply Rlt_bool_false in E. cbn [sorted_desc]. split.
      * constructor; [exact E|].
        revert Hq. apply Forall_impl. intros r Hr. lra.
      * split; assumption.
Qed.

Lemma sort_desc_sorted (l : scored) : sorted_desc (sort_desc l).
Proof.
  induction l as [|p l IH]; simpl; [exact I | apply insert_desc_sorted, IH].
Qed.

(** Stability: entries of equal score keep their order. *)
Lemma insert_desc_with_score (s : R) (p : TranscriptChunk * R) (l : scored) :
  with_score s (insert_desc p l) = with_score s (p :: l).
Proof.
  unfold with_score.
  induction l as [|q l IH]; [reflexivity|].
  cbn [insert_desc]. destruct (Rlt_bool (snd p) (snd q)) eqn:E; [|reflexivity].
  apply Rlt_bool_true in E.
  cbn [filter] in *. rewrite IH.
  destruct (Req_bool (snd p) s) eqn:Ep; destruct (Req_bool (snd q) s) eqn:Eq;
    try reflexivity.
  apply Req_bool_true in Ep, Eq. lra.
Qed.

Lemma sort_desc_with_score (s : R) (l : scored) :
  with_score s (sort_desc l) = with_score s l.
Proof.
  induction l as [|p l IH]; [reflexivity|].
  cbn [sort_desc]. rewrite insert_desc_with_score.
  unfold with_score in *. cbn [filter]. rewrite IH. reflexivity.
Qed.

Lemma sorted_desc_filter (f : TranscriptChunk * R -> bool) (l : scored) :
  sorted_desc l -> sorted_desc (filter f l).
Proof.
  induction l as [|p l IH]; simpl; [auto|].
  intros (Hp & Hs). destruct (f p); [|apply IH, Hs].
  split; [|apply IH, Hs].
  apply Forall_forall. intros q Hq. apply filter_In in Hq.
  rewrite Forall_forall in Hp. apply Hp, Hq.
Qed.

Lemma sorted_desc_firstn (n : nat) (l : scored) :
  sorted_desc l -> sorted_desc (firstn n l).
Proof.
  revert l. induction n as [|n IH]; intros [|p l]; simpl; auto.
  intros (Hp & Hs). split; [|apply IH, Hs].
  apply Forall_forall. intros q Hq. rewrite Forall_forall in Hp.
  apply Hp. exact (In_firstn _ _ _ Hq).
Qed.

Lemma slice_to_firstn (A : Type) (k : Z) (l : list A) :
  exists n, slice_to k l = firstn n l.
Proof. unfold slice_to. destruct (k <? 0)%Z; eauto. Qed.

Lemma slice_to_length (A : Type) (k : Z) (l : list A) :
  (0 <= k)%Z -> (len (slice_to k l) <= k)%Z.
Proof.
  intros Hk. unfold slice_to, len.
  destruct (Z.ltb_spec k 0); [lia|].
  rewrite length_firstn. lia.
Qed.

Lemma with_score_firstn (s : R) (n : nat) (l : scored) :
  exists later, with_score s l = with_score s (firstn n l) ++ later.
Proof.
  exists (with_score s (skipn n l)). unfold with_score.
  rewrite <- filter_app, firstn_skipn. reflexivity.
Qed.

Lemma with_score_threshold (s t : R) (l : scored) :
  with_score s (filter (fun p => Rle_bool t (snd p)) l)
  = if Rle_bool t s then with_score s l else [].
Proof.
  unfold with_score.
  induction l as [|p l IH]; [destruct (Rle_bool t s); reflexivity|].
  cbn [filter].
  destruct (Rle_bool t (snd p)) eqn:Et; cbn [filter]; rewrite IH;
    destruct (Req_bool (snd p) s) eqn:Es; try reflexivity;
    apply Req_bool_true in Es; rewrite Es in Et; rewrite Et; reflexivity.
Qed.

Lemma rank_properties (top_k : Z) (threshold : R) (similarities : scored) :
  sorted_desc (rank top_k threshold similarities)
  /\ Forall (fun p => threshold <= snd p) (rank top_k threshold similarities)
  /\ ((0 <= top_k)%Z -> (len (rank top_k threshold similarities) <= top_k)%Z)
  /\ (forall s, exists later,
        with_score s similarities
        = with_score s (rank top_k threshold similarities) ++ later).
Proof.
  unfold rank.
  destruct (slice_to_firstn top_k
              (filter (fun p => Rle_bool threshold (snd p)) (sort_desc similarities)))
    as (n & Hn).
  split; [|split; [|split]].
  - rewrite Hn. apply sorted_desc_firstn, sorted_desc_filter, sort_desc_sorted.
  - rewrite Hn. apply Forall_forall. intros p Hp.
    apply In_firstn, filter_In in Hp. apply Rle_bool_true, Hp.
  - apply slice_to_length.
  - intros s. rewrite Hn.
    destruct (with_score_firstn s n
                (filter (fun p => Rle_bool threshold (snd p)) (sort_desc similarities)))
      as (later & Hl).
    rewrite with_score_threshold, sort_desc_with_score in Hl.
    destruct (Rle_bool threshold s).
    + exists later. exact Hl.
    + exists (with_score s similarities).
      symmetry in Hl. apply app_eq_nil in Hl. destruct Hl as (-> & _). reflexivity.
Qed.

End Ranking.

(** [get_embedding] never raises: a failure of the hosted model is
    answered by the mock embedding. *)
Lemma get_embedding_ok (rt : runtime) (text : str) (w : world) :
  exists embedding w', get_embedding rt text w = (Ok embedding, w').
Proof.
  unfold get_embedding.
  destruct (cache_lookup (embeddings_cache w) text); [eauto|].
  destruct (OFFLINE_MODE rt); [cbv [bind cache_store ret]; eauto|].
  unfold try_except.
  match goal with |- context [match ?m w with _ => _ end] =>
    destruct (m w) as [[v|e] w1] end; [eauto|].
  cbv [bind cache_store ret]. eauto.
Qed.

Lemma score_chunks_ok (query_embedding : list R) (chunks : list TranscriptChunk) :
  forall chunk_embeddings,
    Forall (fun e => length e = length query_embedding) chunk_embeddings ->
    exists similarities,
      score_chunks query_embedding chunks chunk_embeddings = Ok similarities.
Proof.
  induction chunks as [|c chunks IH]; intros [|e embs] H; simpl; eauto.
  inversion H as [|? ? He Hembs]; subst.
  destruct (cosine_similarity_ok query_embedding e (eq_sym He)) as (s & ->).
  destruct (IH embs Hembs) as (rest & ->). eauto.
Qed.

Lemma find_similar_chunks_mismatch (rt : runtime) (query : str)
    (chunks : list TranscriptChunk) (chunk_embeddings : list (list R))
    (top_k : option Z) (threshold : option R) (w : world) :
  length chunks <> length chunk_embeddings ->
  find_similar_chunks rt query chunks chunk_embeddings top_k threshold w
  = (Raise (ValueError (lit "Number of chunks and embeddings must match")), w).
Proof.
  intros H. unfold find_similar_chunks. cbv zeta.
  rewrite (proj2 (Nat.eqb_neq _ _) H). reflexivity.
Qed.

Lemma find_similar_chunks_run (rt : runtime) (query : str)
    (chunks : list TranscriptChunk) (chunk_embeddings : list (list R))
    (top_k : option Z) (threshold : option R) (w w' : world)
    (query_embedding : list R) :
  length chunks = length chunk_embeddings ->
  get_embedding rt query w = (Ok query_embedding, w') ->
  find_similar_chunks rt query chunks chunk_embeddings top_k threshold w
  = (match score_chunks query_embedding chunks chunk_embeddings with
     | Ok similarities =>
         Ok (rank (or_default Z_is_zero top_k TOP_K_CHUNKS)
                  (or_default R_is_zero threshold SIMILARITY_THRESHOLD)
                  similarities)
     | Raise e => Raise e
     end, w').
Proof.
  intros Hl Hq. unfold find_similar_chunks. cbv zeta.
  rewrite Hl, Nat.eqb_refl. cbn [negb].
  unfold bind at 1. rewrite Hq. unfold bind, lift.
  destruct (score_chunks query_embedding chunks chunk_embeddings); reflexivity.
Qed.

(** Whatever [find_similar_chunks] returns is a ranking. *)
Lemma find_similar_chunks_returns (rt : runtime) (query : str)
    (chunks : list TranscriptChunk) (chunk_embeddings : list (list R))
    (top_k : option Z) (threshold : option R) (w w' : world)
    (results : list (TranscriptChunk * R)) :
  find_similar_chunks rt query chunks chunk_embeddings top_k threshold w
  = (Ok results, w') ->
  exists similarities,
    results = rank (or_default Z_is_zero top_k TOP_K_CHUNKS)
                   (or_default R_is_zero threshold SIMILARITY_THRESHOLD)
                   similarities.
Proof.
  intros H.
  destruct (Nat.eq_dec (length chunks) (length chunk_embeddings)) as [Hl|Hl].
  - destruct (get_embedding_ok rt query w) as (qe & w1 & Hq).
    rewrite (@find_similar_chunks_run rt query chunks chunk_embeddings top_k threshold
               w w1 qe Hl Hq) in H.
    destruct (score_chunks qe chunks chunk_embeddings) as [sims|e]; [|discriminate].
    injection H as <- _. eauto.
  - rewrite find_similar_chunks_mismatch in H by exact Hl. discriminate.
Qed.





(* ----------------------------------------------------------------- *)
(** ** Assembling the context *)
(* ----------------------------------------------------------------- *)

Section Context.

Variable max_length : Z.

Local Abbreviation blocks := (map (fun p : TranscriptChunk * R => block (fst p))).

Lemma len_app (A : Type) (a b : list A) : len (a ++ b) = (len a + len b)%Z.
Proof. unfold len. rewrite length_app. lia. Qed.

Lemma counted_app (a b : list str) : counted (a ++ b) = (counted a + counted b)%Z.
Proof.
  induction a as [|p a IH]; simpl; [reflexivity|]. rewrite IH. lia.
Qed.

Lemma join_blank_len (parts : list str) :
  parts <> [] -> len (join BLANK_LINE parts) = (counted parts - 2)%Z.
Proof.
  induction parts as [|p parts IH]; intros Hne; [contradiction|].
  destruct parts as [|q parts].
  - simpl. lia.
  - change (join BLANK_LINE (p :: q :: parts))
      with (p ++ BLANK_LINE ++ join BLANK_LINE (q :: parts)).
    rewrite !len_app, IH by discriminate.
    cbn [counted fold_right]. cbn [counted fold_right] in IH.
    change (len BLANK_LINE) with 2%Z. lia.
Qed.

(** The loop once the first block is in. *)
Lemma context_loop_later (rest : list (TranscriptChunk * R)) :
  forall parts current_length,
    parts <> [] -> current_length = counted parts ->
    exists n,
      n <= length rest
      /\ context_loop max_length rest parts current_length
         = parts ++ blocks (firstn n rest)
      /\ (n = 0 \/ (counted (parts ++ blocks (firstn n rest)) <= max_length)%Z)
      /\ (forall p, nth_error rest n = Some p ->
            (max_length
             < counted (parts ++ blocks (firstn n rest)) + len (block (fst p)) + 2)%Z).
Proof.
  induction rest as [|[chunk score] rest IH]; intros parts cur Hne Hcur.
  - exists 0. cbn. rewrite app_nil_r.
    repeat split; auto. intros p H. discriminate.
  - cbn [context_loop].
    assert (Hn : nonempty parts = true) by (destruct parts; [contradiction | reflexivity]).
    rewrite Hn. cbn [negb andb]. rewrite andb_true_r.
    fold (block chunk).
    destruct (Z.gtb_spec (cur + len (block chunk) + 2) max_length) as [Hgt|Hle].
    + exists 0. cbn [firstn map]. rewrite app_nil_r.
      split; [cbn [length]; lia|]. split; [reflexivity|]. split; [left; reflexivity|].
      intros p H. injection H as <-. cbn [fst]. lia.
    + destruct (IH (parts ++ [block chunk]) (cur + len (block chunk) + 2)%Z)
        as (n & Hlen & Hrun & Hfit & Hstop).
      * intros H. apply app_eq_nil in H. destruct H as (_ & H). discriminate.
      * rewrite counted_app. cbn [counted fold_right]. lia.
      * exists (S n). cbn [firstn map fst length nth_error].
        assert (Heq : (parts ++ [block chunk]) ++ blocks (firstn n rest)
                      = parts ++ block chunk :: blocks (firstn n rest))
          by (rewrite <- app_assoc; reflexivity).
        rewrite Heq in *.
        split; [lia|]. split; [exact Hrun|]. split; [|exact Hstop].
        right. destruct Hfit as [->|Hfit]; [|exact Hfit].
        cbn [firstn map]. rewrite counted_app. cbn [counted fold_right]. lia.
Qed.

Lemma first_block_fits (chunk : TranscriptChunk) :
  (len (get_citation chunk) + 1 <= max_length)%Z ->
  (len (if (len (block chunk) >? max_length)%Z
        then truncated_block max_length chunk else block chunk) <= max_length)%Z.
Proof.
  intros Hc. destruct (Z.gtb_spec (len (block chunk)) max_length) as [Hgt|Hle]; [|exact Hle].
  unfold truncated_block. rewrite !len_app.
  pose proof (@slice_to_length _ (max_length - len (get_citation chunk) - 1)%Z
                (text chunk) ltac:(lia)) as Hs.
  change (len (lit " ")) with 1%Z. lia.
Qed.

End Context.

(** The run of [prepare_context] on a list that is not empty: the first
    block, cut if need be, then some of the following ones. *)
Lemma prepare_context_run (chunk : TranscriptChunk) (score : R)
    (rest : list (TranscriptChunk * R)) (max_length : option Z) :
  let m := or_default Z_is_zero max_length MAX_CONTEXT_LENGTH in
  let first :=
    if (len (block chunk) >? m)%Z then truncated_block m chunk else block chunk in
  exists n,
    n <= length rest
    /\ prepare_context ((chunk, score) :: rest) max_length
       = join BLANK_LINE (first :: map (fun p => block (fst p)) (firstn n rest))
    /\ (n = 0
        \/ (counted (first :: map (fun p => block (fst p)) (firstn n rest)) <= m)%Z)
    /\ (forall p, nth_error rest n = Some p ->
          (m < counted (first :: map (fun p => block (fst p)) (firstn n rest))
               + len (block (fst p)) + 2)%Z).
Proof.
  intros m first.
  assert (Hrun : prepare_context ((chunk, score) :: rest) max_length
                 = join BLANK_LINE
                     (context_loop m rest [first] (len first + 2)%Z)).
  { unfold prepare_context. cbv zeta. fold m. cbn [nonempty negb context_loop andb].
    rewrite andb_false_r. fold (block chunk). unfold first, truncated_block.
    destruct (len (block chunk) >? m)%Z; reflexivity. }
  destruct (context_loop_later m rest (parts := [first])
              (current_length := (len first + 2)%Z))
    as (n & Hlen & Hloop & Hfit & Hstop).
  { discriminate. }
  { cbn [counted fold_right]. lia. }
  rewrite Hloop in Hrun. cbn [app] in Hrun, Hfit, Hstop.
  exists n. repeat split; assumption.
Qed.

(** C5 (amended). [prepare_context] returns the empty string for no
    chunk.  Otherwise it returns blocks ["{chunk.text} {citation}"] joined
    by blank lines, in ranked order: the first block always, with its text
    cut and its citation kept when the block alone exceeds the budget; then
    the following blocks up to, and not including, the first one that
    would bring the count of the loop over the budget.  When the budget in
    force (the given one, or 2000 when it is absent or zero) is at least
    the length of the first citation plus one, the returned string does
    not exceed it. *)
Theorem prepare_context_blocks :
  forall (similar_chunks : list (TranscriptChunk * R)) (max_length : option Z),
    let m := or_default Z_is_zero max_length MAX_CONTEXT_LENGTH in
    match similar_chunks with
    | [] => prepare_context similar_chunks max_length = []
    | (chunk, _) :: rest =>
        let first :=
          if (len (block chunk) >? m)%Z then truncated_block m chunk else block chunk in
        exists n,
          n <= length rest
          /\ prepare_context similar_chunks max_length
             = join BLANK_LINE
                 (first :: map (fun p => block (fst p)) (firstn n rest))
          /\ (forall p, nth_error rest n = Some p ->
                (m < len (prepare_context similar_chunks max_length) + 2
                     + len (block (fst p)) + 2)%Z)
          /\ ((len (get_citation chunk) + 1 <= m)%Z ->
              (len (prepare_context similar_chunks max_length) <= m)%Z)
    end.
Proof.
  intros [|[chunk score] rest] max_length m; [reflexivity|].
  cbv zeta.
  destruct (prepare_context_run chunk score rest max_length)
    as (n & Hlen & Hrun & Hfit & Hstop).
  fold m in Hrun, Hfit, Hstop.
  exists n. split; [exact Hlen|]. split; [exact Hrun|].
  rewrite Hrun, join_blank_len by discriminate.
  split.
  - intros p Hp. specialize (Hstop p Hp). lia.
  - intros Hc. pose proof (first_block_fits Hc) as Hf.
    destruct Hfit as [->|Hfit]; [|lia].
    cbn [firstn map counted fold_right]. lia.
Qed.

(** Witness for [prepare_context_blocks]: two chunks and the default
    budget. *)
Lemma prepare_context_blocks_witness :
  (len (prepare_context
          [(mkChunk (lit "First chunk") 0 10 0, (9 / 10)%R);
           (mkChunk (lit "Second chunk") 10 20 1, (8 / 10)%R)] None)
   <= MAX_CONTEXT_LENGTH)%Z.
Proof.
  destruct (prepare_context_blocks
              [(mkChunk (lit "First chunk") 0 10 0, (9 / 10)%R);
               (mkChunk (lit "Second chunk") 10 20 1, (8 / 10)%R)] None)
    as (n & _ & _ & _ & H).
  apply H. lazy. discriminate.
Defined.

(** C5, as stated, fails: a budget smaller than the citation cannot hold
    it, and the negative slice bound then cuts the text from its end. *)
Lemma prepare_context_exceeds_small_budget :
  prepare_context [(mkChunk (lit "Hello world and more") 0 5 0, 1%R)] (Some 5%Z)
  = lit "Hello world [00:00" ++ [EN_DASH] ++ lit "00:05]"
  /\ (5 < len (prepare_context
                 [(mkChunk (lit "Hello world and more") 0 5 0, 1%R)] (Some 5%Z)))%Z.
Proof.
  split; lazy; reflexivity.
Qed.

(* ----------------------------------------------------------------- *)
(** ** Answering questions *)
(* ----------------------------------------------------------------- *)

Lemma str_eqb_eq (a : str) : forall b, str_eqb a b = true <-> a = b.
Proof.
  induction a as [|x a IH]; intros [|y b]; simpl; split; intros H;
    try reflexivity; try discriminate.
  - apply andb_prop in H. destruct H as (Hx & Hab).
    apply N.eqb_eq in Hx. apply IH in Hab. congruence.
  - injection H as -> ->. rewrite N.eqb_refl. simpl. apply IH. reflexivity.
Qed.

Lemma or_default_idem (A : Type) (is_zero : A -> bool) (x : option A) (d : A) :
  or_default is_zero (Some (or_default is_zero x d)) d = or_default is_zero x d.
Proof.
  unfold or_default. destruct x as [v|].
  - destruct (is_zero v) eqn:E; [|rewrite E; reflexivity].
    destruct (is_zero d); reflexivity.
  - destruct (is_zero d); reflexivity.
Qed.

(** Only the values in force matter to [find_similar_chunks]. *)
Lemma find_similar_chunks_in_force (rt : runtime) (query : str)
    (chunks : list TranscriptChunk) (chunk_embeddings : list (list R))
    (top_k : option Z) (threshold : option R) :
  find_similar_chunks rt query chunks chunk_embeddings
    (Some (or_default Z_is_zero top_k TOP_K_CHUNKS))
    (Some (or_default R_is_zero threshold SIMILARITY_THRESHOLD))
  = find_similar_chunks rt query chunks chunk_embeddings top_k threshold.
Proof.
  unfold find_similar_chunks. cbv zeta. rewrite !or_default_idem. reflexivity.
Qed.

Lemma R_is_zero_0 : R_is_zero 0%R = true.
Proof. apply Req_bool_true. reflexivity. Qed.

Lemma join_nonempty (sep first : str) (rest : list str) :
  nonempty first = true -> nonempty (join sep (first :: rest)) = true.
Proof.
  destruct first as [|c first]; [discriminate|].
  intros _. destruct rest; reflexivity.
Qed.

Lemma prepare_context_nonempty (similar_chunks : list (TranscriptChunk * R))
    (max_length : option Z) :
  similar_chunks <> [] -> nonempty (prepare_context similar_chunks max_length) = true.
Proof.
  intros Hne. destruct similar_chunks as [|[chunk score] rest]; [contradiction|].
  destruct (prepare_context_run chunk score rest max_length) as (n & _ & -> & _).
  apply join_nonempty.
  unfold truncated_block, block.
  destruct (len _ >? _)%Z;
    [destruct (slice_to _ (text chunk)) | destruct (text chunk)]; reflexivity.
Qed.

(** [generate_answer] absorbs every exception. *)
Lemma generate_answer_ok (rt : runtime) (question context : str) (w : world) :
  exists answer w', generate_answer rt question context w = (Ok answer, w').
Proof.
  unfold generate_answer, try_except. cbv zeta.
  match goal with |- context [match ?m w with _ => _ end] =>
    destruct (m w) as [[a|e] w1] end; unfold ret; eauto.
Qed.

(** A failure of the service at every attempt gives the fixed message. *)
Lemma generate_answer_failure (rt : runtime) (question context : str) (w w' : world)
    (e : exn) :
  OFFLINE_MODE rt = false ->
  rate_limit_retry (call_text_generation rt (build_prompt question context)) w
  = (Raise e, w') ->
  generate_answer rt question context w = (Ok GENERATION_ERROR, w').
Proof.
  intros Hoff Hfail. unfold generate_answer, try_except, bind. cbv zeta.
  rewrite Hoff, Hfail. reflexivity.
Qed.

(** [answer_question] absorbs every exception. *)
Lemma answer_question_ok (rt : runtime) (agent : QAAgent) (question : str)
    (similarity_threshold : option R) (top_k : option Z) (w : world) :
  exists answer citations w',
    answer_question rt agent question similarity_threshold top_k w
    = (Ok (answer, citations), w').
Proof.
  unfold answer_question.
  destruct (negb (nonempty (chunks agent)) || negb (nonempty (chunk_embeddings agent)));
    [unfold ret; eauto|].
  cbv zeta. unfold try_except.
  match goal with |- context [match ?m w with _ => _ end] =>
    destruct (m w) as [[[a c]|e] w1] end; unfold ret; eauto.
Qed.

Lemma answer_question_empty (rt : runtime) (agent : QAAgent) (question : str)
    (similarity_threshold : option R) (top_k : option Z) (w : world) :
  chunks agent = [] \/ chunk_embeddings agent = [] ->
  answer_question rt agent question similarity_threshold top_k w
  = (Ok (NOTHING_INDEXED, []), w).
Proof.
  intros H. unfold answer_question.
  destruct H as [-> | ->]; cbn [nonempty negb orb]; rewrite ?orb_true_r; reflexivity.
Qed.

Lemma answer_question_nonempty_index (rt : runtime) (agent : QAAgent) (question : str)
    (similarity_threshold : option R) (top_k : option Z) :
  chunks agent <> [] -> chunk_embeddings agent <> [] ->
  negb (nonempty (chunks agent)) || negb (nonempty (chunk_embeddings agent)) = false.
Proof.
  intros H1 H2. destruct (chunks agent); [contradiction|].
  destruct (chunk_embeddings agent); [contradiction|]. reflexivity.
Qed.

(** Retrieval that finds nothing. *)
Lemma answer_question_nothing_found (rt : runtime) (agent : QAAgent) (question : str)
    (similarity_threshold : option R) (top_k : option Z) (w w1 : world) :
  chunks agent <> [] -> chunk_embeddings agent <> [] ->
  find_similar_chunks rt question (chunks agent) (chunk_embeddings agent)
    top_k similarity_threshold w = (Ok [], w1) ->
  answer_question rt agent question similarity_threshold top_k w
  = (Ok (NOT_FOUND, []), w1).
Proof.
  intros H1 H2 Hfind. unfold answer_question.
  rewrite (answer_question_nonempty_index rt agent question similarity_threshold top_k H1 H2).
  cbv zeta. rewrite find_similar_chunks_in_force.
  unfold try_except, bind. rewrite Hfind. reflexivity.
Qed.

(** Retrieval that raises. *)
Lemma answer_question_retrieval_error (rt : runtime) (agent : QAAgent) (question : str)
    (similarity_threshold : option R) (top_k : option Z) (w w1 : world) (e : exn) :
  chunks agent <> [] -> chunk_embeddings agent <> [] ->
  find_similar_chunks rt question (chunks agent) (chunk_embeddings agent)
    top_k similarity_threshold w = (Raise e, w1) ->
  answer_question rt agent question similarity_threshold top_k w
  = (Ok (PROCESSING_ERROR, []), w1).
Proof.
  intros H1 H2 Hfind. unfold answer_question.
  rewrite (answer_question_nonempty_index rt agent question similarity_threshold top_k H1 H2).
  cbv zeta. rewrite find_similar_chunks_in_force.
  unfold try_except, bind. rewrite Hfind. reflexivity.
Qed.

(** Retrieval that finds chunks: the answer is generated and cited. *)
Lemma answer_question_run (rt : runtime) (agent : QAAgent) (question : str)
    (similarity_threshold : option R) (top_k : option Z) (w w1 w2 : world)
    (similar_chunks : list (TranscriptChunk * R)) (answer : str) :
  chunks agent <> [] -> chunk_embeddings agent <> [] ->
  find_similar_chunks rt question (chunks agent) (chunk_embeddings agent)
    top_k similarity_threshold w = (Ok similar_chunks, w1) ->
  similar_chunks <> [] ->
  generate_answer rt question (prepare_context similar_chunks None) w1
  = (Ok answer, w2) ->
  answer_question rt agent question similarity_threshold top_k w
  = (Ok (add_citations answer (map (fun p => get_citation (fst p)) similar_chunks),
         map (fun p => get_citation (fst p)) similar_chunks), w2).
Proof.
  intros H1 H2 Hfind Hne Hgen. unfold answer_question.
  rewrite (answer_question_nonempty_index rt agent question similarity_threshold top_k H1 H2).
  cbv zeta. rewrite find_similar_chunks_in_force.
  unfold try_except. unfold bind at 1. rewrite Hfind.
  destruct (find_similar_chunks_returns _ _ _ _ _ _ _ Hfind) as (sims & Hrank).
  destruct (rank_properties (or_default Z_is_zero top_k TOP_K_CHUNKS)
              (or_default R_is_zero similarity_threshold SIMILARITY_THRESHOLD) sims)
    as (_ & Habove & _).
  rewrite <- Hrank in Habove.
  destruct similar_chunks as [|[chunk best] rest] eqn:Es; [contradiction|].
  inversion Habove as [|? ? Hbest _]; subst. cbn [snd] in Hbest.
  rewrite (proj2 (Rlt_bool_false _ _) Hbest).
  rewrite (@prepare_context_nonempty ((chunk, best) :: rest) None) by discriminate.
  cbn [negb]. unfold bind. rewrite Hgen. reflexivity.
Qed.

Lemma add_citations_cases (answer : str) (citations : list str) :
  citations <> [] ->
  (answer <> [] -> answer <> NOT_FOUND ->
   (forall c, In c citations -> contains c answer = false) ->
   add_citations answer citations = answer ++ lit " " ++ join (lit " ") citations)
  /\ (answer = NOT_FOUND \/ (exists c, In c citations /\ contains c answer = true) ->
      add_citations answer citations = answer).
Proof.
  intros Hc. unfold add_citations. split.
  - intros Ha Hnf Hnone.
    destruct answer as [|a0 answer]; [contradiction|].
    destruct citations as [|c0 citations]; [contradiction|].
    cbn [nonempty andb].
    destruct (str_eqb (a0 :: answer) NOT_FOUND) eqn:E.
    { apply str_eqb_eq in E. contradiction. }
    cbn [negb andb].
    assert (Hex : existsb (fun citation => contains citation (a0 :: answer))
                          (c0 :: citations) = false).
    { destruct (existsb _ _) eqn:Ex; [|reflexivity].
      apply existsb_exists in Ex. destruct Ex as (c & Hin & Hcont).
      rewrite (Hnone c Hin) in Hcont. discriminate. }
    rewrite Hex. reflexivity.
  - intros [-> | (c & Hin & Hcont)].
    + rewrite (proj2 (str_eqb_eq NOT_FOUND NOT_FOUND) eq_refl).
      cbn [negb andb]. rewrite andb_false_r. reflexivity.
    + destruct (nonempty answer && negb (str_eqb answer NOT_FOUND) && nonempty citations);
        [|reflexivity].
      assert (Hex : existsb (fun citation => contains citation answer) citations = true)
        by (apply existsb_exists; eauto).
      rewrite Hex. reflexivity.
Qed.

Lemma rank_single (top_k : Z) (threshold : R) (chunk : TranscriptChunk) (score : R) :
  (0 < top_k)%Z -> (threshold <= score)%R ->
  rank top_k threshold [(chunk, score)] = [(chunk, score)].
Proof.
  intros Hk Ht. unfold rank. cbn [sort_desc insert_desc filter snd].
  rewrite (proj2 (Rle_bool_true _ _) Ht).
  unfold slice_to. destruct (Z.ltb_spec top_k 0); [lia|].
  destruct (Z.to_nat top_k) eqn:E; [lia|].
  cbn [firstn]. rewrite firstn_nil. reflexivity.
Qed.

(** One chunk whose embedding is the query's: it is found, with score 1. *)
Lemma find_similar_chunks_single (rt : runtime) (query : str) (chunk : TranscriptChunk)
    (w w' : world) (query_embedding : list R) :
  get_embedding rt query w = (Ok query_embedding, w') ->
  Exists (fun x => x <> 0%R) query_embedding ->
  find_similar_chunks rt query [chunk] [query_embedding] None None w
  = (Ok [(chunk, 1%R)], w').
Proof.
  intros Hq Hnz.
  rewrite (@find_similar_chunks_run rt query [chunk] [query_embedding] None None
             w w' query_embedding eq_refl Hq).
  cbn [score_chunks]. rewrite (cosine_similarity_self Hnz).
  rewrite rank_single; [reflexivity | reflexivity |].
  cbn [or_default]. unfold SIMILARITY_THRESHOLD. lra.
Qed.


(** C4, the part that fails: when the text-generation service raises at
    every attempt, [generate_answer] returns its fixed message, and
    [answer_question] appends the citations to it and returns them; the
    answer is not the fixed message alone and the citation list is not
    empty.  Four calls are made: one embedding, three generations. *)
Lemma answer_question_generation_failure :
  fst (answer_question
         (example_runtime false (fun _ _ => Ok [1%R]) (@failing_service _))
         (mkAgent [mkChunk (lit "This is about cats") 0 10 0] [[1%R]])
         (lit "What is this about?") None None (mkWorld [] []))
  = Ok (GENERATION_ERROR ++ lit " [00:00" ++ [EN_DASH] ++ lit "00:10]",
        [lit "[00:00" ++ [EN_DASH] ++ lit "00:10]"])
  /\ length (calls (snd (answer_question
         (example_runtime false (fun _ _ => Ok [1%R]) (@failing_service _))
         (mkAgent [mkChunk (lit "This is about cats") 0 10 0] [[1%R]])
         (lit "What is this about?") None None (mkWorld [] [])))) = 4.
Proof.
  assert (Hnz : Exists (fun x => x <> 0%R) [1%R]) by (constructor; lra).
  set (rt := example_runtime false (fun _ _ => Ok [1%R]) (@failing_service _)).
  set (q := lit "What is this about?").
  set (c := mkChunk (lit "This is about cats") 0 10 0).
  set (w1 := mkWorld [(q, [1%R])] [FeatureExtraction q]).
  set (p := build_prompt q (prepare_context [(c, 1%R)] None)).
  set (w2 := mkWorld [(q, [1%R])]
               [FeatureExtraction q; TextGeneration p; TextGeneration p; TextGeneration p]).
  assert (Hfind : find_similar_chunks rt q [c] [[1%R]] None None (mkWorld [] [])
                  = (Ok [(c, 1%R)], w1))
    by (apply find_similar_chunks_single; [reflexivity | exact Hnz]).
  assert (Hgen : generate_answer rt q (prepare_context [(c, 1%R)] None) w1
                 = (Ok GENERATION_ERROR, w2))
    by (apply generate_answer_failure with (e := ServiceError 503); reflexivity).
  rewrite (@answer_question_run rt (mkAgent [c] [[1%R]]) q None None
             (mkWorld [] []) w1 w2 [(c, 1%R)] GENERATION_ERROR
             ltac:(discriminate) ltac:(discriminate) Hfind ltac:(discriminate) Hgen).
  split; lazy; reflexivity.
Qed.

(** X1. What holds of C4: [answer_question] never raises; with an empty
    index it returns the fixed response and no citation and leaves the
    state, and so the log of calls, as it was; when retrieval finds no
    chunk it returns ["Not found in video."] and no citation; and when
    retrieval raises it returns the fixed error message and no citation. *)
Theorem answer_question_never_raises :
  forall (rt : runtime) (agent : QAAgent) (question : str)
         (similarity_threshold : option R) (top_k : option Z) (w : world),
    (exists answer citations w',
        answer_question rt agent question similarity_threshold top_k w
        = (Ok (answer, citations), w'))
    /\ (chunks agent = [] \/ chunk_embeddings agent = [] ->
        answer_question rt agent question similarity_threshold top_k w
        = (Ok (NOTHING_INDEXED, []), w))
    /\ (forall w1,
          chunks agent <> [] -> chunk_embeddings agent <> [] ->
          find_similar_chunks rt question (chunks agent) (chunk_embeddings agent)
            top_k similarity_threshold w = (Ok [], w1) ->
          answer_question rt agent question similarity_threshold top_k w
          = (Ok (NOT_FOUND, []), w1))
    /\ (forall e w1,
          chunks agent <> [] -> chunk_embeddings agent <> [] ->
          find_similar_chunks rt question (chunks agent) (chunk_embeddings agent)
            top_k similarity_threshold w = (Raise e, w1) ->
          answer_question rt agent question similarity_threshold top_k w
          = (Ok (PROCESSING_ERROR, []), w1)).
Proof.
  intros rt agent question similarity_threshold top_k w.
  split; [apply answer_question_ok|].
  split; [apply answer_question_empty|].
  split.
  - intros w1. apply answer_question_nothing_found.
  - intros e w1. apply answer_question_retrieval_error.
Qed.

(** Witness for [answer_question_never_raises]: an agent with no index. *)
Lemma answer_question_never_raises_witness :
  answer_question
    (example_runtime false (@failing_service _) (@failing_service _))
    (mkAgent [] []) (lit "What is this about?") None None (mkWorld [] [])
  = (Ok (NOTHING_INDEXED, []), mkWorld [] []).
Proof.
  apply (proj1 (proj2 (answer_question_never_raises
           (example_runtime false (@failing_service _) (@failing_service _))
           (mkAgent [] []) (lit "What is this about?") None None (mkWorld [] [])))).
  left. reflexivity.
Defined.

(** C8 (amended). When retrieval finds chunks and an answer is generated
    from them, [answer_question] returns the citations of the chunks in
    ranked order, and as answer the generated text followed by a space and
    the citations joined by spaces, unless the text is exactly
    ["Not found in video."] or already holds one of the citations, in
    which case the text is returned as it is. *)
Theorem answer_question_citations :
  forall (rt : runtime) (agent : QAAgent) (question : str)
         (similarity_threshold : option R) (top_k : option Z) (w w1 w2 : world)
         (similar_chunks : list (TranscriptChunk * R)) (answer : str),
    chunks agent <> [] -> chunk_embeddings agent <> [] ->
    find_similar_chunks rt question (chunks agent) (chunk_embeddings agent)
      top_k similarity_threshold w = (Ok similar_chunks, w1) ->
    similar_chunks <> [] ->
    generate_answer rt question (prepare_context similar_chunks None) w1
    = (Ok answer, w2) ->
    let citations := map (fun p => get_citation (fst p)) similar_chunks in
    exists final,
      answer_question rt agent question similarity_threshold top_k w
      = (Ok (final, citations), w2)
      /\ (answer <> [] -> answer <> NOT_FOUND ->
          (forall c, In c citations -> contains c answer = false) ->
          final = answer ++ lit " " ++ join (lit " ") citations)
      /\ (answer = NOT_FOUND
          \/ (exists c, In c citations /\ contains c answer = true) ->
          final = answer).
Proof.
  intros rt agent question similarity_threshold top_k w w1 w2 similar_chunks answer
         H1 H2 Hfind Hne Hgen citations.
  exists (add_citations answer citations). split.
  - exact (@answer_question_run rt agent question similarity_threshold top_k
             w w1 w2 similar_chunks answer H1 H2 Hfind Hne Hgen).
  - apply add_citations_cases. unfold citations.
    destruct similar_chunks; [contradiction | discriminate].
Qed.

(** Witness for [answer_question_citations]: the service answers
    ["cats are discussed."]; the answer is capitalised and cited. *)
Lemma answer_question_citations_witness :
  exists final,
    answer_question
      (example_runtime false (fun _ _ => Ok [1%R])
         (fun _ _ => Ok (VStr (lit "cats are discussed."))))
      (mkAgent [mkChunk (lit "This is about cats") 0 10 0] [[1%R]])
      (lit "What is this about?") None None (mkWorld [] [])
    = (Ok (final, [get_citation (mkChunk (lit "This is about cats") 0 10 0)]),
       mkWorld [(lit "What is this about?", [1%R])]
         [FeatureExtraction (lit "What is this about?");
          TextGeneration
            (build_prompt (lit "What is this about?")
               (prepare_context
                  [(mkChunk (lit "This is about cats") 0 10 0, 1%R)] None))])
    /\ final = lit "Cats are discussed." ++ lit " "
               ++ get_citation (mkChunk (lit "This is about cats") 0 10 0).
Proof.
  assert (Hnz : Exists (fun x => x <> 0%R) [1%R]) by (constructor; lra).
  set (rt := example_runtime false (fun _ _ => Ok [1%R])
               (fun _ _ => Ok (VStr (lit "cats are discussed.")))).
  set (q := lit "What is this about?").
  set (c := mkChunk (lit "This is about cats") 0 10 0).
  set (w1 := mkWorld [(q, [1%R])] [FeatureExtraction q]).
  set (p := build_prompt q (prepare_context [(c, 1%R)] None)).
  set (w2 := mkWorld [(q, [1%R])] [FeatureExtraction q; TextGeneration p]).
  assert (Hfind : find_similar_chunks rt q [c] [[1%R]] None None (mkWorld [] [])
                  = (Ok [(c, 1%R)], w1))
    by (apply find_similar_chunks_single; [reflexivity | exact Hnz]).
  assert (Hgen : generate_answer rt q (prepare_context [(c, 1%R)] None) w1
                 = (Ok (lit "Cats are discussed."), w2))
    by reflexivity.
  destruct (@answer_question_citations rt (mkAgent [c] [[1%R]]) q None None
              (mkWorld [] []) w1 w2 [(c, 1%R)] (lit "Cats are discussed.")
              ltac:(discriminate) ltac:(discriminate) Hfind ltac:(discriminate) Hgen)
    as (final & Hrun & Happ & _).
  exists final. split; [exact Hrun|].
  apply Happ.
  - discriminate.
  - intros H. lazy in H. discriminate H.
  - intros x [<-|[]]. lazy. reflexivity.
Defined.

(** C8, as stated, fails: a generated answer that is exactly
    ["Not found in video."] holds no citation, yet none is appended to it,
    while the citation list is returned. *)
Lemma answer_question_not_found_uncited :
  fst (answer_question
         (example_runtime false (fun _ _ => Ok [1%R])
            (fun _ _ => Ok (VStr (lit "Not found in video."))))
         (mkAgent [mkChunk (lit "This is about cats") 0 10 0] [[1%R]])
         (lit "What is this about?") None None (mkWorld [] []))
  = Ok (lit "Not found in video.",
        [lit "[00:00" ++ [EN_DASH] ++ lit "00:10]"])
  /\ contains (lit "[00:00" ++ [EN_DASH] ++ lit "00:10]")
              (lit "Not found in video.") = false.
Proof.
  assert (Hnz : Exists (fun x => x <> 0%R) [1%R]) by (constructor; lra).
  set (rt := example_runtime false (fun _ _ => Ok [1%R])
               (fun _ _ => Ok (VStr (lit "Not found in video.")))).
  set (q := lit "What is this about?").
  set (c := mkChunk (lit "This is about cats") 0 10 0).
  set (w1 := mkWorld [(q, [1%R])] [FeatureExtraction q]).
  set (p := build_prompt q (prepare_context [(c, 1%R)] None)).
  set (w2 := mkWorld [(q, [1%R])] [FeatureExtraction q; TextGeneration p]).
  assert (Hfind : find_similar_chunks rt q [c] [[1%R]] None None (mkWorld [] [])
                  = (Ok [(c, 1%R)], w1))
    by (apply find_similar_chunks_single; [reflexivity | exact Hnz]).
  assert (Hgen : generate_answer rt q (prepare_context [(c, 1%R)] None) w1
                 = (Ok NOT_FOUND, w2))
    by reflexivity.
  rewrite (@answer_question_run rt (mkAgent [c] [[1%R]]) q None None
             (mkWorld [] []) w1 w2 [(c, 1%R)] NOT_FOUND
             ltac:(discriminate) ltac:(discriminate) Hfind ltac:(discriminate) Hgen).
  split; lazy; reflexivity.
Qed.

(** The run of [find_similar_chunks] with zeros for both optional
    arguments: the ranking with the configured 5 and 0.35. *)
Lemma find_similar_chunks_zeros (rt : runtime) (query : str)
    (chunks : list TranscriptChunk) (chunk_embeddings : list (list R))
    (w w' : world) (query_embedding : list R)
    (similarities : list (TranscriptChunk * R)) :
  length chunks = length chunk_embeddings ->
  get_embedding rt query w = (Ok query_embedding, w') ->
  score_chunks query_embedding chunks chunk_embeddings = Ok similarities ->
  forall top_k threshold,
    (top_k = None \/ top_k = Some 0%Z) ->
    (threshold = None \/ threshold = Some 0%R) ->
    find_similar_chunks rt query chunks chunk_embeddings top_k threshold w
    = (Ok (rank 5 (35 / 100) similarities), w').
Proof.
  intros Hl Hq Hs top_k threshold Hk Ht.
  rewrite (@find_similar_chunks_run rt query chunks chunk_embeddings top_k threshold
             w w' query_embedding Hl Hq), Hs.
  assert (Ek : or_default Z_is_zero top_k TOP_K_CHUNKS = 5%Z)
    by (destruct Hk as [-> | ->]; reflexivity).
  assert (Et : or_default R_is_zero threshold SIMILARITY_THRESHOLD = (35 / 100)%R).
  { destruct Ht as [-> | ->]; [reflexivity|].
    unfold or_default. rewrite R_is_zero_0. reflexivity. }
  rewrite Ek, Et. reflexivity.
Qed.

(** The score of the chunk of the examples: 1 for the embedding (1), 0 for
    the embedding (0). *)
Lemma cats_scores :
  score_chunks [1%R] [cats_chunk] [[1%R]] = Ok [(cats_chunk, 1%R)]
  /\ score_chunks [1%R] [cats_chunk] [[0%R]] = Ok [(cats_chunk, 0%R)].
Proof.
  split; cbn [score_chunks].
  - rewrite cosine_similarity_self by (constructor; lra). reflexivity.
  - rewrite cosine_similarity_zero_norm; [reflexivity|].
    right. apply norm_zero. repeat constructor.
Qed.

Lemma cats_ranks :
  rank 5 (35 / 100) [(cats_chunk, 1%R)] = [(cats_chunk, 1%R)]
  /\ rank 0 (35 / 100) [(cats_chunk, 1%R)] = []
  /\ rank 5 (35 / 100) [(cats_chunk, 0%R)] = []
  /\ rank 5 0 [(cats_chunk, 0%R)] = [(cats_chunk, 0%R)].
Proof.
  unfold rank. cbn [sort_desc insert_desc filter snd].
  rewrite (proj2 (Rle_bool_true (35 / 100) 1)) by lra.
  rewrite (proj2 (Rle_bool_true 0 0)) by lra.
  assert (E : Rle_bool (35 / 100) 0 = false).
  { destruct (Rle_bool (35 / 100) 0) eqn:E; [|reflexivity].
    apply Rle_bool_true in E. lra. }
  rewrite E. repeat split; reflexivity.
Qed.

(* ================================================================= *)
(** * Part III: further properties of the code *)
(* ================================================================= *)

(* ----------------------------------------------------------------- *)
(** ** Merging keeps the words and the first start *)
(* ----------------------------------------------------------------- *)

Lemma join_cons2 (sep a b : str) (rest : list str) :
  join sep ((a ++ sep ++ b) :: rest) = join sep (a :: b :: rest).
Proof.
  destruct rest as [|c rest]; cbn [join].
  - reflexivity.
  - rewrite <- !app_assoc. reflexivity.
Qed.

Lemma join_app_cons (sep : str) (l : list str) :
  forall (a : str) (rest : list str),
    join sep (l ++ a :: rest)
    = match l with
      | [] => join sep (a :: rest)
      | _ => join sep l ++ sep ++ join sep (a :: rest)
      end.
Proof.
  induction l as [|x l IH]; intros a rest; [reflexivity|].
  destruct l as [|y l].
  - reflexivity.
  - change ((x :: y :: l) ++ a :: rest) with (x :: ((y :: l) ++ a :: rest)).
    change (join sep (x :: (y :: l) ++ a :: rest))
      with (x ++ sep ++ join sep ((y :: l) ++ a :: rest)).
    rewrite IH.
    change (join sep (x :: y :: l)) with (x ++ sep ++ join sep (y :: l)).
    rewrite <- !app_assoc. reflexivity.
Qed.

Lemma merge_loop_text (min_duration : Q) (rest : list segment) :
  forall merged current_segment,
    join (lit " ") (map seg_text (merge_loop min_duration merged current_segment rest))
    = join (lit " ") (map seg_text (merged ++ current_segment :: rest)).
Proof.
  induction rest as [|next rest IH]; intros merged cur; cbn [merge_loop].
  - reflexivity.
  - unfold merge_step.
    destruct (Qltb (seg_duration cur) min_duration).
    + rewrite IH. rewrite !map_app. cbn [map seg_text].
      rewrite !join_app_cons. rewrite join_cons2. reflexivity.
    + rewrite IH. rewrite <- app_assoc. reflexivity.
Qed.

Lemma merge_loop_head (min_duration : Q) (rest : list segment) :
  forall merged current_segment,
    hd_error (map seg_start (merge_loop min_duration merged current_segment rest))
    = hd_error (map seg_start (merged ++ [current_segment])).
Proof.
  induction rest as [|next rest IH]; intros merged cur; cbn [merge_loop].
  - reflexivity.
  - unfold merge_step.
    destruct (Qltb (seg_duration cur) min_duration).
    + rewrite IH. rewrite !map_app. destruct merged; reflexivity.
    + rewrite IH. rewrite !map_app. destruct merged; reflexivity.
Qed.

Lemma merge_loop_long (min_duration : Q) (rest : list segment) :
  forall merged current_segment,
    Forall (fun s => (min_duration <= seg_duration s)%Q)
           (removelast (current_segment :: rest)) ->
    merge_loop min_duration merged current_segment rest
    = merged ++ current_segment :: rest.
Proof.
  induction rest as [|next rest IH]; intros merged cur H; cbn [merge_loop].
  - reflexivity.
  - change (removelast (cur :: next :: rest)) with (cur :: removelast (next :: rest)) in H.
    inversion H as [|? ? Hc Hr]; subst.
    unfold merge_step.
    apply Qltb_ge in Hc. rewrite Hc.
    rewrite (IH _ _ Hr). rewrite <- app_assoc. reflexivity.
Qed.

(** X2. Merging loses no text and keeps the order: the texts of the
    merged segments, joined by single spaces, are the texts of the input
    joined by single spaces.  The result has no more segments than the
    input, is empty only for an empty input, and starts when the input
    starts.  When every segment but the last lasts at least the
    threshold, nothing is merged. *)
Theorem merge_short_segments_conserves :
  forall (segments : list segment) (min_duration : Q),
    let merged := merge_short_segments segments min_duration in
    join (lit " ") (map seg_text merged) = join (lit " ") (map seg_text segments)
    /\ length merged <= length segments
    /\ nonempty merged = nonempty segments
    /\ hd_error (map seg_start merged) = hd_error (map seg_start segments)
    /\ (Forall (fun s => (min_duration <= seg_duration s)%Q) (removelast segments)
        -> merged = segments).
Proof.
  intros [|first rest] min_duration; cbn zeta.
  - repeat split; auto.
  - cbn [merge_short_segments].
    split; [apply (merge_loop_text min_duration rest [] first)|].
    split; [apply (merge_loop_length min_duration rest [] first)|].
    split.
    + pose proof (merge_loop_head min_duration rest [] first) as H.
      destruct (merge_loop min_duration [] first rest); [discriminate H | reflexivity].
    + split; [apply (merge_loop_head min_duration rest [] first)|].
      intros H. apply (@merge_loop_long min_duration rest [] first H).
Qed.

(** Witness for [merge_short_segments_conserves]: two segments of three
    seconds and a threshold of two. *)
Lemma merge_short_segments_conserves_witness :
  merge_short_segments
    [mkSegment (lit "Hello world") 0 3; mkSegment (lit "This is a test") 3 3] 2
  = [mkSegment (lit "Hello world") 0 3; mkSegment (lit "This is a test") 3 3].
Proof.
  apply (merge_short_segments_conserves
           [mkSegment (lit "Hello world") 0 3; mkSegment (lit "This is a test") 3 3] 2).
  repeat constructor; discriminate.
Defined.
(* ----------------------------------------------------------------- *)
(** ** Time stamps: what is written is read back *)
(* ----------------------------------------------------------------- *)

(** *** Decimal digits *)

Lemma int_from_uint_acc (d : Decimal.uint) :
  forall acc : positive,
    int_from (Zpos acc) (uint_digits d) = Some (Zpos (Pos.of_uint_acc d acc)).
Proof.
  induction d; intros acc; cbn [uint_digits int_from Pos.of_uint_acc];
    [reflexivity | ..];
    match goal with
    | |- context [digit_value ?c] =>
        let v := eval vm_compute in (digit_value c) in
        change (digit_value c) with v; cbv iota beta
    end;
    match goal with
    | |- int_from ?z _ = Some (Zpos (Pos.of_uint_acc _ ?p)) =>
        replace z with (Zpos p) by lia
    end; apply IHd.
Qed.

Lemma int_from_uint (d : Decimal.uint) :
  int_from 0%Z (uint_digits d) = Some (Z.of_N (Pos.of_uint d)).
Proof.
  induction d; cbn [uint_digits int_from Pos.of_uint];
    [reflexivity | ..];
    match goal with
    | |- context [digit_value ?c] =>
        let v := eval vm_compute in (digit_value c) in
        change (digit_value c) with v; cbv iota beta
    end;
    [exact IHd | ..];
    match goal with
    | |- int_from ?z _ = _ =>
        let v := eval vm_compute in z in change z with v
    end; rewrite int_from_uint_acc; reflexivity.
Qed.

Lemma uint_digits_digits (d : Decimal.uint) :
  forallb is_digit (uint_digits d) = true.
Proof. induction d; cbn [uint_digits forallb]; [reflexivity | ..]; exact IHd. Qed.

Lemma uint_digits_nonempty (p : positive) : uint_digits (Pos.to_uint p) <> [].
Proof.
  intros H.
  pose proof (DecimalPos.Unsigned.of_to p) as E.
  destruct (Pos.to_uint p); try discriminate H. discriminate E.
Qed.

Lemma int_of_str_decimal (n : N) : int_of_str (decimal n) = Some (Z.of_N n).
Proof.
  destruct n as [|p]; [reflexivity|].
  unfold decimal, int_of_str.
  pose proof (@uint_digits_nonempty p) as Hne.
  change (N.to_uint (N.pos p)) with (Pos.to_uint p).
  destruct (uint_digits (Pos.to_uint p)) eqn:E; [contradiction|].
  rewrite <- E, int_from_uint, DecimalPos.Unsigned.of_to. reflexivity.
Qed.

Lemma decimal_digits (n : N) : forallb is_digit (decimal n) = true.
Proof. destruct n; [reflexivity | apply uint_digits_digits]. Qed.

Lemma int_of_str_fmt_02d (z : Z) :
  (0 <= z)%Z -> int_of_str (fmt_02d z) = Some z.
Proof.
  intros Hz. unfold fmt_02d.
  destruct (Z.ltb_spec z 0); [lia|].
  pose proof (int_of_str_decimal (Z.to_N z)) as E.
  rewrite Z2N.id in E by lia.
  destruct (Z.ltb_spec z 10); [|exact E].
  unfold int_of_str in E |- *.
  destruct (decimal (Z.to_N z)) eqn:D.
  - discriminate E.
  - exact E.
Qed.

Lemma fmt_02d_digits (z : Z) :
  (0 <= z)%Z -> forallb is_digit (fmt_02d z) = true.
Proof.
  intros Hz. unfold fmt_02d.
  destruct (Z.ltb_spec z 0); [lia|].
  destruct (z <? 10)%Z; cbn [forallb]; rewrite ?decimal_digits; reflexivity.
Qed.

(** *** Splitting at a separator *)

Lemma split_from_app (sep : char) (a : str) :
  forall cur b,
    ~ In sep a ->
    split_from sep cur (a ++ sep :: b) = (cur ++ a) :: split_from sep [] b.
Proof.
  induction a as [|c a IH]; intros cur b Hn; cbn [app split_from].
  - rewrite N.eqb_refl, app_nil_r. reflexivity.
  - destruct (N.eqb_spec c sep) as [->|_]; [exfalso; apply Hn; left; reflexivity|].
    rewrite IH by (intros Hin; apply Hn; right; exact Hin).
    rewrite <- app_assoc. reflexivity.
Qed.

Lemma split_from_none (sep : char) (a : str) :
  forall cur, ~ In sep a -> split_from sep cur a = [cur ++ a].
Proof.
  induction a as [|c a IH]; intros cur Hn; cbn [split_from].
  - rewrite app_nil_r. reflexivity.
  - destruct (N.eqb_spec c sep) as [->|_]; [exfalso; apply Hn; left; reflexivity|].
    rewrite IH by (intros Hin; apply Hn; right; exact Hin).
    rewrite <- app_assoc. reflexivity.
Qed.

Lemma split_join (sep : char) (parts : list str) :
  parts <> [] ->
  Forall (fun p => ~ In sep p) parts ->
  split sep (join [sep] parts) = parts.
Proof.
  intros Hne H. induction H as [|p parts Hp Hps IH]; [contradiction|].
  destruct parts as [|q parts].
  - cbn [join]. unfold split. rewrite split_from_none by exact Hp. reflexivity.
  - change (join [sep] (p :: q :: parts)) with (p ++ sep :: join [sep] (q :: parts)).
    unfold split. rewrite split_from_app by exact Hp.
    cbn [app]. f_equal. apply IH. discriminate.
Qed.

Lemma digits_no (sep : char) (s : str) :
  is_digit sep = false -> forallb is_digit s = true -> ~ In sep s.
Proof.
  intros Hs Hd Hin. rewrite forallb_forall in Hd.
  specialize (Hd _ Hin). congruence.
Qed.

(** *** Floors *)

Lemma Qfloor_div (x : Q) (m : positive) :
  Qfloor (x / inject_Z (Zpos m)) = (Qfloor x / Zpos m)%Z.
Proof.
  destruct x as [p q]. unfold Qdiv, Qinv, Qmult, inject_Z, Qfloor. cbn [Qnum Qden].
  rewrite Z.mul_1_r, Pos2Z.inj_mul. rewrite Z.div_div by lia. reflexivity.
Qed.

Lemma Qfloor_sub (x : Q) (k : Z) :
  Qfloor (x - inject_Z k) = (Qfloor x - k)%Z.
Proof.
  destruct x as [p q]. unfold Qminus, Qplus, Qopp, inject_Z, Qfloor. cbn [Qnum Qden].
  rewrite Pos.mul_1_r, Z.mul_1_r.
  replace (p + - k * Zpos q)%Z with (p + (- k) * Zpos q)%Z by lia.
  rewrite Z.div_add by lia. lia.
Qed.

Lemma Qfloor_nonneg (x : Q) : (0 <= x)%Q -> (0 <= Qfloor x)%Z.
Proof.
  intros H. change 0%Z with (Qfloor 0). apply Qfloor_resp_le. exact H.
Qed.

(** The three fields of a time stamp, from the whole seconds. *)
Lemma timestamp_fields (seconds : Q) :
  let n := Qfloor seconds in
  floordiv seconds 3600 = (n / 3600)%Z
  /\ floordiv (pymod seconds 3600) 60 = (n mod 3600 / 60)%Z
  /\ Qfloor (pymod seconds 60) = (n mod 60)%Z.
Proof.
  cbn zeta. unfold pymod, floordiv.
  rewrite ?Qfloor_div, ?Qfloor_sub, ?Qfloor_div.
  repeat split.
  - f_equal. rewrite Z.mod_eq by lia. reflexivity.
  - rewrite Z.mod_eq by lia. reflexivity.
Qed.

Lemma split_two (a b : str) :
  forallb is_digit a = true -> forallb is_digit b = true ->
  split 58%N (a ++ lit ":" ++ b) = [a; b].
Proof.
  intros Ha Hb. unfold split. change (lit ":" ++ b) with (58%N :: b).
  rewrite split_from_app by (apply digits_no; [reflexivity | exact Ha]).
  rewrite split_from_none by (apply digits_no; [reflexivity | exact Hb]).
  reflexivity.
Qed.

Lemma split_three (a b c : str) :
  forallb is_digit a = true -> forallb is_digit b = true ->
  forallb is_digit c = true ->
  split 58%N (a ++ lit ":" ++ b ++ lit ":" ++ c) = [a; b; c].
Proof.
  intros Ha Hb Hc. unfold split. change (lit ":" ++ b ++ lit ":" ++ c) with (58%N :: b ++ 58%N :: c).
  rewrite split_from_app by (apply digits_no; [reflexivity | exact Ha]).
  rewrite split_from_app by (apply digits_no; [reflexivity | exact Hb]).
  rewrite split_from_none by (apply digits_no; [reflexivity | exact Hc]).
  reflexivity.
Qed.

(** The time stamp of a time that is not negative, in its fields. *)
Lemma format_timestamp_fields (seconds : Q) :
  format_timestamp seconds = timestamp_of_fields (Qfloor seconds).
Proof.
  unfold format_timestamp, timestamp_of_fields.
  destruct (timestamp_fields seconds) as (-> & -> & ->). reflexivity.
Qed.

Lemma parse_timestamp_of_fields (n : Z) :
  (0 <= n)%Z -> parse_timestamp (timestamp_of_fields n) = Some (inject_Z n).
Proof.
  intros Hn. unfold timestamp_of_fields.
  assert (Hh : (0 <= n / 3600)%Z) by (apply Z.div_pos; lia).
  assert (Hm : (0 <= n mod 3600 / 60)%Z)
    by (apply Z.div_pos; [apply Z.mod_pos_bound|]; lia).
  assert (Hc : (0 <= n mod 60)%Z) by (apply Z.mod_pos_bound; lia).
  unfold parse_timestamp.
  destruct (Z.ltb_spec 0 (n / 3600)) as [Hpos|Hzero].
  - rewrite split_three by (apply fmt_02d_digits; assumption).
    rewrite !int_of_str_fmt_02d by assumption.
    do 2 f_equal. Z.div_mod_to_equations. lia.
  - rewrite split_two by (apply fmt_02d_digits; assumption).
    rewrite !int_of_str_fmt_02d by assumption.
    do 2 f_equal. Z.div_mod_to_equations. lia.
Qed.

(** X3. [parse_timestamp] reads back what [format_timestamp] writes: for
    a time that is not negative, the whole seconds of it.  The fraction of
    a second is lost. *)
Theorem parse_format_timestamp :
  forall seconds : Q,
    (0 <= seconds)%Q ->
    parse_timestamp (format_timestamp seconds) = Some (inject_Z (Qfloor seconds)).
Proof.
  intros seconds Hs.
  rewrite format_timestamp_fields.
  apply parse_timestamp_of_fields, Qfloor_nonneg, Hs.
Qed.

(** Witness for [parse_format_timestamp]: one hour, two minutes and five
    and a half seconds. *)
Lemma parse_format_timestamp_witness :
  parse_timestamp (format_timestamp (7451 # 2)%Q) = Some (inject_Z 3725).
Proof.
  apply (@parse_format_timestamp (7451 # 2)%Q). discriminate.
Defined.

(** *** Lines that match *)

Lemma expect_inv (c : char) (s s' : str) :
  expect c s = Some s' -> s = c :: s'.
Proof.
  destruct s as [|x s]; cbn [expect]; [discriminate|].
  destruct (N.eqb_spec x c) as [->|]; [|discriminate].
  intros [= ->]. reflexivity.
Qed.

Lemma digit_inv (s : str) (d : char) (s' : str) :
  digit s = Some (d, s') -> s = d :: s' /\ is_digit d = true.
Proof.
  destruct s as [|x s]; cbn [digit]; [discriminate|].
  unfold is_digit. destruct (digit_value x) eqn:E; [|discriminate].
  intros [= -> ->]. rewrite E. split; reflexivity.
Qed.

Lemma and_then_inv (A B : Type) (a : option A) (k : A -> option B) (r : B) :
  and_then a k = Some r -> exists x, a = Some x /\ k x = Some r.
Proof. destruct a as [x|]; cbn [and_then]; [eauto | discriminate]. Qed.

Lemma or_else_inv (A : Type) (a b : option A) (r : A) :
  or_else a b = Some r -> a = Some r \/ b = Some r.
Proof. destruct a; cbn [or_else]; auto. Qed.

Ltac invert_match :=
  repeat match goal with
  | H : and_then _ _ = Some _ |- _ =>
      apply and_then_inv in H; destruct H as (? & ? & H)
  | H : expect _ _ = Some _ |- _ => apply expect_inv in H; subst
  | H : digit _ = Some (_, _) |- _ => apply digit_inv in H; destruct H as [? ?]; subst
  | H : digit _ = Some ?p |- _ => destruct p
  | H : or_else _ _ = Some _ |- _ => apply or_else_inv in H; destruct H as [H|H]
  | H : Some _ = Some _ |- _ => injection H as H; subst
  | H : (_, _) = (_, _) |- _ => injection H as ? ?; subst
  end.

(** What [match_after_minutes] accepts. *)
Lemma match_after_minutes_inv (pre s ts rest : str) :
  match_after_minutes pre s = Some (ts, rest) ->
  exists tail,
    ts = pre ++ 58%N :: tail /\ s = 58%N :: tail ++ RBRACKET :: rest
    /\ ((exists d1 d2, tail = [d1; d2] /\ is_digit d1 = true /\ is_digit d2 = true)
        \/ (exists d1 d2 e1 e2,
              tail = [d1; d2; 58%N; e1; e2]
              /\ is_digit d1 = true /\ is_digit d2 = true
              /\ is_digit e1 = true /\ is_digit e2 = true)).
Proof.
  unfold match_after_minutes. intros H. invert_match.
  - eexists. split; [rewrite <- app_assoc; reflexivity|].
    split; [reflexivity|]. right. eauto 10.
  - eexists. split; [reflexivity|].
    split; [reflexivity|]. left. eauto.
Qed.

Lemma lstrip_split (s : str) :
  exists ws, s = ws ++ lstrip s /\ forallb isspace ws = true.
Proof.
  induction s as [|c s (ws & E & Hws)]; cbn [lstrip].
  - exists []. split; reflexivity.
  - destruct (isspace c) eqn:Ec.
    + exists (c :: ws). cbn [app forallb]. rewrite Ec, Hws, <- E. split; reflexivity.
    + exists []. split; reflexivity.
Qed.

Lemma lstrip_idem (s : str) : lstrip (lstrip s) = lstrip s.
Proof. apply lstrip_fix, lstrip_head. Qed.

Lemma int_from_digits (s : str) :
  forallb is_digit s = true ->
  forall acc, (0 <= acc)%Z -> exists z, (0 <= z)%Z /\ int_from acc s = Some z.
Proof.
  induction s as [|c s IH]; cbn [forallb int_from]; intros H acc Hacc; [eauto|].
  apply andb_prop in H. destruct H as [Hc Hs].
  unfold is_digit in Hc. unfold digit_value in Hc |- *.
  destruct ((48 <=? c) && (c <=? 57))%N eqn:E; [|discriminate].
  apply IH; [exact Hs|].
  apply andb_prop in E. destruct E as [E _]. apply N.leb_le in E. lia.
Qed.

Lemma int_of_str_digits (s : str) :
  forallb is_digit s = true -> s <> [] ->
  exists z, (0 <= z)%Z /\ int_of_str s = Some z.
Proof.
  intros H Hne. unfold int_of_str. destruct s as [|c s]; [contradiction|].
  apply int_from_digits; [exact H | lia].
Qed.

Lemma match_line_inv (line ts text : str) :
  match_line line = Some (ts, text) ->
  timestamp_shape ts
  /\ exists ws,
       line = LBRACKET :: ts ++ RBRACKET :: ws ++ text
       /\ forallb isspace ws = true /\ lstrip text = text.
Proof.
  unfold match_line. intros H. invert_match;
    match goal with
    | H : match_after_minutes _ _ = Some ?p |- _ =>
        destruct p as [ts0 rest]; apply match_after_minutes_inv in H;
        destruct H as (tail & -> & Hs & Hshape)
    end;
    match goal with
    | H : Some _ = Some _ |- _ => injection H as <- <-
    end;
    (split;
     [ match goal with
       | |- timestamp_shape (?a :: 58%N :: _) => exists [a], tail
       | |- timestamp_shape (?a :: ?b :: 58%N :: _) => exists [a; b], tail
       end; split; [reflexivity|];
       split; [discriminate|]; split; [cbn; lia|];
       split; [cbn [forallb]; repeat match goal with H : is_digit _ = true |- _ => rewrite H; clear H end; reflexivity | exact Hshape]
     | destruct (lstrip_split rest) as (ws & E & Hws);
       exists ws; split; [|split; [exact Hws | apply lstrip_idem]];
       rewrite <- E; cbn [app]; rewrite ?Hs; try (injection Hs as ->);
       rewrite <- ?app_assoc; reflexivity ]).
Qed.

Lemma timestamp_shape_parses (ts : str) :
  timestamp_shape ts ->
  exists z, (0 <= z)%Z /\ parse_timestamp ts = Some (inject_Z z).
Proof.
  intros (pre & tail & -> & Hne & _ & Hpre & Hshape).
  destruct (int_of_str_digits Hpre Hne) as (a & Ha & Ea).
  unfold parse_timestamp.
  destruct Hshape as [(d1 & d2 & -> & H1 & H2) | (d1 & d2 & e1 & e2 & -> & H1 & H2 & H3 & H4)].
  - assert (Hd : forallb is_digit [d1; d2] = true) by (cbn [forallb]; rewrite H1, H2; reflexivity).
    destruct (@int_of_str_digits [d1; d2] Hd) as (b & Hb & Eb); [discriminate|].
    change (pre ++ [58%N; d1; d2]) with (pre ++ lit ":" ++ [d1; d2]).
    rewrite (split_two _ _ Hpre Hd), Ea, Eb.
    exists (a * 60 + b)%Z. split; [lia | reflexivity].
  - assert (Hd : forallb is_digit [d1; d2] = true) by (cbn [forallb]; rewrite H1, H2; reflexivity).
    assert (He : forallb is_digit [e1; e2] = true) by (cbn [forallb]; rewrite H3, H4; reflexivity).
    destruct (@int_of_str_digits [d1; d2] Hd) as (b & Hb & Eb); [discriminate|].
    destruct (@int_of_str_digits [e1; e2] He) as (c & Hc & Ec); [discriminate|].
    change (pre ++ [58%N; d1; d2; 58%N; e1; e2])
      with (pre ++ lit ":" ++ [d1; d2] ++ lit ":" ++ [e1; e2]).
    rewrite (split_three _ _ _ Hpre Hd He), Ea, Eb, Ec.
    exists (a * 3600 + b * 60 + c)%Z. split; [lia | reflexivity].
Qed.

(** X4. A line that the pattern of [chunk_transcript] matches is an
    opening bracket, the time stamp, a closing bracket, white space and
    the text, which has no leading white space; and [parse_timestamp]
    does not fail on that time stamp: it returns a whole number of
    seconds that is not negative, and the line is parsed.  So the
    [ValueError] of [int] cannot leave the parsing loop. *)
Theorem match_line_timestamp_parses :
  forall line ts text : str,
    match_line line = Some (ts, text) ->
    (exists ws,
        line = LBRACKET :: ts ++ RBRACKET :: ws ++ text
        /\ forallb isspace ws = true /\ lstrip text = text)
    /\ exists z,
         (0 <= z)%Z
         /\ parse_timestamp ts = Some (inject_Z z)
         /\ parse_line line = Some (mkLine text (inject_Z z)).
Proof.
  intros line ts text H.
  destruct (match_line_inv _ H) as (Hshape & Hline).
  destruct (timestamp_shape_parses Hshape) as (z & Hz & Ez).
  split; [exact Hline|].
  exists z. split; [exact Hz|]. split; [exact Ez|].
  unfold parse_line. rewrite H. cbn [and_then]. rewrite Ez.
  destruct Hline as (ws & E & _).
  rewrite strip_nonempty, E. reflexivity.
Qed.

(** Witness for [match_line_timestamp_parses]: a line of a transcript. *)
Lemma match_line_timestamp_parses_witness :
  exists z,
    (0 <= z)%Z
    /\ parse_timestamp (lit "1:02:03") = Some (inject_Z z)
    /\ parse_line (lit "[1:02:03]  Hello") = Some (mkLine (lit "Hello") (inject_Z z)).
Proof.
  apply (@match_line_timestamp_parses (lit "[1:02:03]  Hello") (lit "1:02:03") (lit "Hello")).
  reflexivity.
Defined.
(* ----------------------------------------------------------------- *)
(** ** Chunking reads back what normalising wrote *)
(* ----------------------------------------------------------------- *)

Lemma strip_trimmed (s : str) : nonempty (strip s) = true -> trimmed (strip s).
Proof.
  intros Hne. unfold trimmed, strip in *. split; [|apply rstrip_idem].
  pose proof (lstrip_head s) as Hh. pose proof (rstrip_head (lstrip s)) as Hr.
  destruct (lstrip s) as [|c t]; [discriminate Hne|].
  destruct (Hr Hh) as [r ->]. exact Hh.
Qed.

Lemma rstrip_app (a b : str) : rstrip b <> [] -> rstrip (a ++ b) = a ++ rstrip b.
Proof.
  intros Hb. induction a as [|c a IH]; [reflexivity|].
  cbn [app rstrip]. rewrite IH.
  destruct (a ++ rstrip b) eqn:E; [|reflexivity].
  apply app_eq_nil in E. tauto.
Qed.

Lemma trimmed_nonempty (t : str) : trimmed t -> t <> [].
Proof. intros [H _] ->. exact H. Qed.

Lemma trimmed_lstrip (t : str) : trimmed t -> lstrip t = t.
Proof.
  intros [H _]. destruct t as [|c t]; [contradiction|].
  cbn [lstrip]. rewrite H. reflexivity.
Qed.

Lemma trimmed_merge (a b : str) : trimmed a -> trimmed b -> trimmed (a ++ lit " " ++ b).
Proof.
  intros [Ha _] Hb. split.
  - destruct a; [contradiction | exact Ha].
  - rewrite app_assoc, rstrip_app.
    + rewrite (proj2 Hb). reflexivity.
    + rewrite (proj2 Hb). apply trimmed_nonempty, Hb.
Qed.

Lemma clean_transcript_text_trimmed (text : str) :
  nonempty (clean_transcript_text text) = true -> trimmed (clean_transcript_text text).
Proof.
  rewrite clean_transcript_text_unfold.
  destruct (length (cleaned text) <? 3)%nat; [discriminate|].
  unfold cleaned. apply strip_trimmed.
Qed.

(** What merging keeps: a property of the texts that joining with a space
    keeps, and a property of the starts. *)
Lemma merge_loop_Forall (PT : str -> Prop) (PS : Q -> Prop) (min_duration : Q)
    (Hjoin : forall a b, PT a -> PT b -> PT (a ++ lit " " ++ b))
    (rest : list segment) :
  forall merged current_segment,
    Forall (fun s => PT (seg_text s) /\ PS (seg_start s)) merged ->
    PT (seg_text current_segment) /\ PS (seg_start current_segment) ->
    Forall (fun s => PT (seg_text s) /\ PS (seg_start s)) rest ->
    Forall (fun s => PT (seg_text s) /\ PS (seg_start s))
           (merge_loop min_duration merged current_segment rest).
Proof.
  induction rest as [|next rest IH]; intros merged cur Hm Hc Hr; cbn [merge_loop].
  - apply Forall_app. split; [exact Hm | constructor; [exact Hc | constructor]].
  - inversion Hr as [|? ? Hn Hr']; subst.
    unfold merge_step. destruct (Qltb (seg_duration cur) min_duration).
    + apply IH; try assumption. cbn [seg_text seg_start].
      split; [apply Hjoin; [apply Hc | apply Hn] | apply Hc].
    + apply IH; try assumption.
      apply Forall_app. split; [exact Hm | constructor; [exact Hc | constructor]].
Qed.

Lemma merge_short_segments_Forall (PT : str -> Prop) (PS : Q -> Prop) (min_duration : Q)
    (Hjoin : forall a b, PT a -> PT b -> PT (a ++ lit " " ++ b))
    (segments : list segment) :
  Forall (fun s => PT (seg_text s) /\ PS (seg_start s)) segments ->
  Forall (fun s => PT (seg_text s) /\ PS (seg_start s))
         (merge_short_segments segments min_duration).
Proof.
  intros H. destruct segments as [|first rest]; [constructor|].
  inversion H; subst. cbn [merge_short_segments].
  apply merge_loop_Forall; auto.
Qed.

Lemma normalized_segments_Forall (PS : Q -> Prop) (transcript_data : list raw_segment) :
  PS 0%Q ->
  Forall (fun r => match raw_start r with Some x => PS x | None => True end)
         transcript_data ->
  Forall (fun s => (trimmed (seg_text s) /\ one_line (seg_text s)) /\ PS (seg_start s))
         (normalized_segments transcript_data).
Proof.
  intros H0 H. induction H as [|r rest Hr Hrest IH]; cbn [normalized_segments]; [constructor|].
  unfold normalize_segment.
  destruct (negb (nonempty (strip _))); [exact IH|].
  destruct (negb (nonempty (clean_transcript_text _))) eqn:E; [exact IH|].
  apply negb_false_iff in E.
  constructor; [|exact IH]. cbn [seg_text seg_start].
  split; [split; [apply clean_transcript_text_trimmed, E | apply clean_transcript_text_one_line]|].
  destruct (raw_start r); [exact Hr | exact H0].
Qed.

(** *** Two-digit fields *)

Lemma fmt_02d_two (z : Z) : (0 <= z < 100)%Z -> two_digits (fmt_02d z) = true.
Proof.
  intros Hz.
  assert (H : forallb (fun n => two_digits (fmt_02d (Z.of_nat n))) (seq 0 100) = true)
    by (vm_compute; reflexivity).
  rewrite forallb_forall in H.
  specialize (H (Z.to_nat z)). rewrite Z2Nat.id in H by lia.
  apply H, in_seq. lia.
Qed.

Lemma two_digits_inv (s : str) :
  two_digits s = true -> exists a b, s = [a; b] /\ is_digit a = true /\ is_digit b = true.
Proof.
  destruct s as [|a [|b [|c s]]]; cbn [two_digits]; try discriminate.
  intros H. apply andb_prop in H. eauto.
Qed.

Lemma digit_cons (a : char) (s : str) : is_digit a = true -> digit (a :: s) = Some (a, s).
Proof.
  unfold is_digit. cbn [digit]. destruct (digit_value a); [reflexivity | discriminate].
Qed.

Lemma match_line_render (n : Z) (text : str) :
  (0 <= n < 360000)%Z ->
  match_line (lit "[" ++ timestamp_of_fields n ++ lit "] " ++ text)
  = Some (timestamp_of_fields n, lstrip text).
Proof.
  intros Hn. unfold timestamp_of_fields.
  assert (Hh : (0 <= n / 3600 < 100)%Z) by (Z.div_mod_to_equations; lia).
  assert (Hm : (0 <= n mod 3600 / 60 < 100)%Z) by (Z.div_mod_to_equations; lia).
  assert (Hc : (0 <= n mod 60 < 100)%Z) by (Z.div_mod_to_equations; lia).
  destruct (two_digits_inv _ (fmt_02d_two Hh)) as (h1 & h2 & -> & Hh1 & Hh2).
  destruct (two_digits_inv _ (fmt_02d_two Hm)) as (m1 & m2 & -> & Hm1 & Hm2).
  destruct (two_digits_inv _ (fmt_02d_two Hc)) as (c1 & c2 & -> & Hc1 & Hc2).
  destruct (0 <? n / 3600)%Z.
  - change (lit "[" ++ ([h1; h2] ++ lit ":" ++ [m1; m2] ++ lit ":" ++ [c1; c2]) ++ lit "] " ++ text)
      with (LBRACKET :: h1 :: h2 :: 58%N :: m1 :: m2 :: 58%N :: c1 :: c2
              :: RBRACKET :: SPACE :: text).
    unfold match_line, match_after_minutes.
    repeat first [ rewrite digit_cons by assumption
                 | progress cbn [expect and_then or_else N.eqb Pos.eqb LBRACKET RBRACKET] ].
    reflexivity.
  - change (lit "[" ++ ([m1; m2] ++ lit ":" ++ [c1; c2]) ++ lit "] " ++ text)
      with (LBRACKET :: m1 :: m2 :: 58%N :: c1 :: c2 :: RBRACKET :: SPACE :: text).
    unfold match_line, match_after_minutes.
    repeat first [ rewrite digit_cons by assumption
                 | progress cbn [expect and_then or_else N.eqb Pos.eqb LBRACKET RBRACKET] ].
    reflexivity.
Qed.

Lemma Qfloor_lt (x : Q) (k : Z) : (x < inject_Z k)%Q -> (Qfloor x < k)%Z.
Proof.
  intros H. rewrite Zlt_Qlt.
  eapply Qle_lt_trans; [apply Qfloor_le | exact H].
Qed.

Lemma parse_line_render (s : segment) :
  (0 <= seg_start s)%Q -> (seg_start s < 360000)%Q -> trimmed (seg_text s) ->
  parse_line (render_line s) = Some (line_of_segment s).
Proof.
  intros H0 H1 Ht. unfold parse_line, render_line.
  rewrite strip_nonempty. cbn [lit list_ascii_of_string map app has_text existsb].
  change (negb (negb (isspace (N_of_ascii "[")) || _)) with false. cbv iota.
  rewrite format_timestamp_fields.
  pose proof (Qfloor_nonneg H0) as Hn.
  pose proof (@Qfloor_lt (seg_start s) 360000 H1) as Hn'.
  change (N_of_ascii "[" :: timestamp_of_fields (Qfloor (seg_start s))
            ++ N_of_ascii "]" :: N_of_ascii " " :: seg_text s)
    with (lit "[" ++ timestamp_of_fields (Qfloor (seg_start s)) ++ lit "] " ++ seg_text s).
  rewrite match_line_render by lia. cbn [and_then].
  rewrite parse_timestamp_of_fields by exact Hn. cbn [and_then].
  rewrite (trimmed_lstrip Ht). reflexivity.
Qed.

Lemma render_line_trimmed (s : segment) : trimmed (seg_text s) -> trimmed (render_line s).
Proof.
  intros Ht. unfold render_line. split; [reflexivity|].
  rewrite !app_assoc. rewrite rstrip_app; rewrite (proj2 Ht); [reflexivity|].
  apply trimmed_nonempty, Ht.
Qed.

Lemma trimmed_join (sep : str) (parts : list str) :
  Forall trimmed parts -> parts <> [] -> trimmed (join sep parts).
Proof.
  induction 1 as [|p parts Hp Hps IH]; intros Hne; [contradiction|].
  destruct parts as [|q parts]; [exact Hp|].
  change (join sep (p :: q :: parts)) with (p ++ sep ++ join sep (q :: parts)).
  assert (Hq : trimmed (join sep (q :: parts))) by (apply IH; discriminate).
  split.
  - destruct p; [destruct Hp as [[] _] | exact (proj1 Hp)].
  - rewrite app_assoc, rstrip_app; rewrite (proj2 Hq); [reflexivity|].
    apply trimmed_nonempty, Hq.
Qed.

Lemma trimmed_strip (t : str) : trimmed t -> strip t = t.
Proof.
  intros Ht. unfold strip. rewrite (trimmed_lstrip Ht). exact (proj2 Ht).
Qed.

Lemma parse_lines_render (segments : list segment) :
  Forall (fun s => (trimmed (seg_text s) /\ one_line (seg_text s))
                   /\ ((0 <= seg_start s)%Q /\ (seg_start s < 360000)%Q)) segments ->
  parse_lines (map render_line segments) = map line_of_segment segments.
Proof.
  induction 1 as [|s segments ((Ht & _) & H0 & H1) _ IH]; [reflexivity|].
  cbn [map parse_lines]. rewrite (@parse_line_render s H0 H1 Ht), IH. reflexivity.
Qed.

Lemma normalize_transcript_join (transcript_data : list raw_segment) :
  normalize_transcript transcript_data
  = join [NEWLINE]
      (map render_line
         (merge_short_segments (normalized_segments transcript_data) DEFAULT_MIN_DURATION)).
Proof. destruct transcript_data; reflexivity. Qed.

Lemma normalized_in_range (transcript_data : list raw_segment) :
  Forall start_in_range transcript_data ->
  Forall (fun s => (trimmed (seg_text s) /\ one_line (seg_text s))
                   /\ ((0 <= seg_start s)%Q /\ (seg_start s < 360000)%Q))
         (merge_short_segments (normalized_segments transcript_data) DEFAULT_MIN_DURATION).
Proof.
  intros H.
  apply (@merge_short_segments_Forall
           (fun t => trimmed t /\ one_line t)
           (fun x => (0 <= x)%Q /\ (x < 360000)%Q)).
  - intros a b [Ha Ha'] [Hb Hb']. split; [apply trimmed_merge; assumption|].
    apply one_line_app; [exact Ha'|].
    apply one_line_cons; [not_newline | exact Hb'].
  - apply (@normalized_segments_Forall (fun x => (0 <= x)%Q /\ (x < 360000)%Q)).
    + split; [discriminate | reflexivity].
    + exact H.
Qed.

(** The lines parsed from a normalised transcript. *)
Lemma parse_lines_normalized (transcript_data : list raw_segment) :
  Forall start_in_range transcript_data ->
  parse_lines (split NEWLINE (strip (normalize_transcript transcript_data)))
  = map line_of_segment
        (merge_short_segments (normalized_segments transcript_data) DEFAULT_MIN_DURATION).
Proof.
  intros Hdata.
  set (merged := merge_short_segments (normalized_segments transcript_data)
                   DEFAULT_MIN_DURATION).
  rewrite normalize_transcript_join. fold merged.
  pose proof (normalized_in_range Hdata) as Hm. fold merged in Hm.
  destruct merged as [|first more] eqn:E; [reflexivity|]. rewrite <- E in *.
  assert (Hne : map render_line merged <> []) by (rewrite E; discriminate).
  assert (Htrim : Forall trimmed (map render_line merged)).
  { apply Forall_map. revert Hm. apply Forall_impl.
    intros s ((Ht & _) & _). apply render_line_trimmed, Ht. }
  rewrite (trimmed_strip (trimmed_join [NEWLINE] Htrim Hne)).
  rewrite split_join.
  - apply parse_lines_render, Hm.
  - exact Hne.
  - apply Forall_map. revert Hm. apply Forall_impl.
    intros s ((_ & Hl) & _). apply render_line_one_line, Hl.
Qed.

(** X5. [chunk_transcript] reads back exactly what [normalize_transcript]
    wrote: when the starts of the raw segments lie between zero and a
    hundred hours, the lines parsed from the normalised transcript are the
    merged segments, in order, each with its text and the whole seconds of
    its start; so chunking the normalised transcript is chunking those
    lines, and no line is dropped or misread. *)
Theorem chunk_reads_normalized :
  forall transcript_data : list raw_segment,
    Forall start_in_range transcript_data ->
    let merged :=
      merge_short_segments (normalized_segments transcript_data) DEFAULT_MIN_DURATION in
    parse_lines (split NEWLINE (strip (normalize_transcript transcript_data)))
    = map line_of_segment merged
    /\ forall chunk_size overlap_percent,
         chunk_transcript (normalize_transcript transcript_data) chunk_size overlap_percent
         = chunk_segments (map line_of_segment merged) chunk_size overlap_percent.
Proof.
  intros data Hdata merged.
  pose proof (parse_lines_normalized Hdata) as Hparse. fold merged in Hparse.
  split; [exact Hparse|].
  intros chunk_size overlap_percent. unfold chunk_transcript. rewrite Hparse. reflexivity.
Qed.

(** Witness for [chunk_reads_normalized]: a short segment merged into the
    next, and a third one an hour later. *)
Lemma chunk_reads_normalized_witness :
  parse_lines
    (split NEWLINE
       (strip (normalize_transcript
                 [mkRaw (Some (lit " Hello [Music] world ")) (Some (1 # 2)%Q) (Some 1%Q);
                  mkRaw (Some (lit "This is a test")) (Some (3 # 2)%Q) (Some 3%Q);
                  mkRaw (Some (lit "The end")) (Some 3725%Q) None])))
  = [mkLine (lit "Hello world This is a test") 0; mkLine (lit "The end") 3725].
Proof.
  refine (proj1 (@chunk_reads_normalized
           [mkRaw (Some (lit " Hello [Music] world ")) (Some (1 # 2)%Q) (Some 1%Q);
            mkRaw (Some (lit "This is a test")) (Some (3 # 2)%Q) (Some 3%Q);
            mkRaw (Some (lit "The end")) (Some 3725%Q) None] _)).
  repeat constructor; discriminate.
Defined.
(* ----------------------------------------------------------------- *)
(** ** The chunks: numbering, texts and times *)
(* ----------------------------------------------------------------- *)

Lemma emit_ids (segments : list parsed_line) (ws : list (nat * nat)) :
  forall next_id,
    map chunk_id (emit segments ws next_id)
    = map (fun k => (next_id + Z.of_nat k)%Z)
          (seq 0 (length (emit segments ws next_id))).
Proof.
  induction ws as [|w ws IH]; intros id; cbn [emit]; [reflexivity|].
  destruct (nonempty (strip (window_text segments w))); [|apply IH].
  cbn [map length seq]. rewrite IH. f_equal; [cbn; lia|].
  rewrite <- seq_shift, map_map. apply map_ext. intros k. lia.
Qed.

Lemma emit_Forall (Q : TranscriptChunk -> Prop) (segments : list parsed_line)
    (ws : list (nat * nat)) :
  (forall w id, In w ws -> nonempty (strip (window_text segments w)) = true ->
     Q (mkChunk (window_text segments w)
                (start_of segments (fst w)) (start_of segments (snd w - 1)) id)) ->
  forall next_id, Forall Q (emit segments ws next_id).
Proof.
  induction ws as [|w ws IH]; intros H id; cbn [emit]; [constructor|].
  destruct (nonempty (strip (window_text segments w))) eqn:E.
  - constructor; [apply H; [left; reflexivity | exact E]|].
    apply IH. intros w' id' Hin. apply H. right. exact Hin.
  - apply IH. intros w' id' Hin. apply H. right. exact Hin.
Qed.

Lemma emit_length (segments : list parsed_line) (ws : list (nat * nat)) :
  forall next_id, length (emit segments ws next_id) <= length ws.
Proof.
  induction ws as [|w ws IH]; intros id; cbn [emit]; [apply Nat.le_refl|].
  destruct (nonempty (strip (window_text segments w))); cbn [length].
  - specialize (IH (id + 1)%Z). lia.
  - specialize (IH id). lia.
Qed.

(** X6. For an overlap in force between 0 and 1, [chunk_transcript]
    returns; the chunks are numbered 0, 1, 2, ... in the order in which
    they are returned; no chunk has a blank text; and there are at most as
    many chunks as parsed lines. *)
Theorem chunk_ids_and_texts :
  forall (segments : list parsed_line)
         (chunk_size : option Z) (overlap_percent : option Q),
    (0 <= or_default Qis_zero overlap_percent CHUNK_OVERLAP_PERCENT)%Q ->
    (or_default Qis_zero overlap_percent CHUNK_OVERLAP_PERCENT <= 1)%Q ->
    exists chunks,
      chunk_segments segments chunk_size overlap_percent = Some chunks
      /\ map chunk_id chunks = map Z.of_nat (seq 0 (length chunks))
      /\ Forall (fun c => has_text (text c) = true) chunks
      /\ length chunks <= length segments.
Proof.
  intros segments chunk_size overlap_percent _ _.
  eexists. split; [apply chunk_segments_emit|].
  split; [rewrite emit_ids; apply map_ext; intros k; lia|].
  split.
  - apply emit_Forall. intros w id _ H. cbn [text].
    rewrite <- strip_nonempty. exact H.
  - etransitivity; [apply emit_length | apply chunk_windows_fuel].
Qed.

(** Witness for [chunk_ids_and_texts]: three lines, a budget of ten
    tokens and the configured overlap. *)
Lemma chunk_ids_and_texts_witness :
  exists chunks,
    chunk_segments
      [mkLine (lit "Hello world this is a test") 0;
       mkLine (lit "This is another segment") 5;
       mkLine (lit "And this is the final segment") 10]
      (Some 10%Z) None
    = Some chunks
    /\ map chunk_id chunks = map Z.of_nat (seq 0 (length chunks))
    /\ Forall (fun c => has_text (text c) = true) chunks
    /\ length chunks <= 3.
Proof.
  apply (@chunk_ids_and_texts
           [mkLine (lit "Hello world this is a test") 0;
            mkLine (lit "This is another segment") 5;
            mkLine (lit "And this is the final segment") 10]
           (Some 10%Z) None).
  - discriminate.
  - discriminate.
Defined.

(** *** Times in order *)

Lemma estimate_tokens_nonneg (t : str) : (0 <= estimate_tokens t)%Z.
Proof. unfold estimate_tokens, len. apply Z.div_pos; lia. Qed.

Lemma sum_tokens_app (a b : list parsed_line) :
  sum_tokens (a ++ b) = (sum_tokens a + sum_tokens b)%Z.
Proof.
  unfold sum_tokens. induction a as [|x a IH]; [reflexivity|].
  cbn [app map fold_right]. rewrite IH. lia.
Qed.

Lemma sum_tokens_nonneg (a : list parsed_line) : (0 <= sum_tokens a)%Z.
Proof.
  unfold sum_tokens. induction a as [|x a IH]; cbn [map fold_right]; [lia|].
  pose proof (estimate_tokens_nonneg (line_text x)). lia.
Qed.

Lemma firstn_plus (A : Type) (a b : nat) (l : list A) :
  firstn (a + b) l = firstn a l ++ firstn b (skipn a l).
Proof.
  revert l. induction a as [|a IH]; intros l; [reflexivity|].
  destruct l as [|x l]; cbn [Nat.add firstn skipn app].
  - rewrite firstn_nil. reflexivity.
  - rewrite IH. reflexivity.
Qed.

(** A window that starts later holds no more tokens. *)
Lemma window_tokens_mono (segments : list parsed_line) (i i' m : nat) :
  i <= i' <= m ->
  (window_tokens segments i' m <= window_tokens segments i m)%Z.
Proof.
  intros H. rewrite !window_tokens_sum.
  replace (m - i) with ((i' - i) + (m - i')) by lia.
  rewrite firstn_plus, sum_tokens_app, skipn_skipn.
  replace (i' - i + i) with i' by lia.
  pose proof (sum_tokens_nonneg (firstn (i' - i) (skipn i segments))). lia.
Qed.

(** A window that starts inside another one ends no earlier. *)
Lemma window_end_mono (segments : list parsed_line) (chunk_size : Z) (i j i' j' : nat) :
  window_of segments chunk_size i j ->
  window_of segments chunk_size i' j' ->
  i < i' <= j -> j <= j'.
Proof.
  intros (Hij & Hin & _) (Hij' & _ & Hstop) Hi.
  destruct (Nat.le_gt_cases j j') as [|Hlt]; [assumption|]. exfalso.
  destruct (Hin j' ltac:(lia)) as (H1 & H2).
  pose proof (@window_tokens_mono segments i i' j' ltac:(lia)).
  pose proof (@window_tokens_mono segments i i' (S j') ltac:(lia)).
  destruct Hstop as [Hst|[Hst|Hst]]; lia.
Qed.

Lemma window_before_trans (a b c : nat * nat) :
  window_before a b -> window_before b c -> window_before a c.
Proof. unfold window_before. lia. Qed.

Lemma chunk_before_trans (a b c : TranscriptChunk) :
  chunk_before a b -> chunk_before b c -> chunk_before a c.
Proof.
  unfold chunk_before. intros [H1 H2] [H3 H4].
  split; eapply Qle_trans; eassumption.
Qed.

(** The windows of a run, each after the one before. *)
Lemma window_chain_sorted (segments : list parsed_line) (chunk_size : Z)
    (overlap_percent : Q) (i : nat) (ws : list (nat * nat)) :
  window_chain segments chunk_size overlap_percent i ws ->
  Sorted window_before ws
  /\ Forall (fun w => window_of segments chunk_size (fst w) (snd w)) ws
  /\ match ws with [] => True | w :: _ => fst w = i end.
Proof.
  induction 1 as [i Hi | i j ws Hw Hc (IH1 & IH2 & IH3)].
  - repeat split; constructor.
  - split; [|split; [constructor; [exact Hw | exact IH2] | reflexivity]].
    constructor; [exact IH1|].
    destruct ws as [|[a b] ws]; constructor.
    inversion IH2 as [|? ? Hab _]; subst. cbn [fst snd] in *.
    assert (Hi : i < a <= j).
    { destruct Hw as (Hij & _). clear Hc. revert IH3.
      generalize (Z.to_nat (Z.max 1 (Qfloor (inject_Z (Z.of_nat (j - i)) * overlap_percent)))).
      intros k ->. lia. }
    split; cbn [fst snd]; [lia|].
    exact (window_end_mono Hw Hab Hi).
Qed.

Lemma starts_sorted_tail (a : parsed_line) (segments : list parsed_line) :
  starts_sorted (a :: segments) = true -> starts_sorted segments = true.
Proof.
  destruct segments as [|b rest]; [reflexivity|].
  cbn [starts_sorted]. intros H. apply andb_prop in H. apply H.
Qed.

Lemma starts_sorted_head (a : parsed_line) (segments : list parsed_line) :
  starts_sorted (a :: segments) = true ->
  Forall (fun b => (line_start a <= line_start b)%Q) segments.
Proof.
  revert a. induction segments as [|b rest IH]; intros a H; [constructor|].
  pose proof (starts_sorted_tail _ _ H) as Ht.
  cbn [starts_sorted] in H. apply andb_prop in H. destruct H as [Hab _].
  apply Qle_bool_iff in Hab.
  constructor; [exact Hab|].
  specialize (IH b Ht). revert IH. apply Forall_impl.
  intros c Hc. eapply Qle_trans; eassumption.
Qed.

Lemma starts_sorted_nth (segments : list parsed_line) :
  starts_sorted segments = true ->
  forall i j, i <= j < length segments ->
    (start_of segments i <= start_of segments j)%Q.
Proof.
  induction segments as [|a rest IH]; intros H i j Hij; [cbn in Hij; lia|].
  destruct i as [|i], j as [|j]; try lia.
  - apply Qle_refl.
  - unfold start_of. cbn [nth_error].
    destruct (nth_error rest j) as [b|] eqn:E.
    + pose proof (starts_sorted_head _ _ H) as Hh.
      rewrite Forall_forall in Hh. apply Hh. exact (nth_error_In _ _ E).
    + apply nth_error_None in E. cbn [length] in Hij. lia.
  - apply (IH (starts_sorted_tail _ _ H) i j). cbn [length] in Hij. lia.
Qed.

Lemma emit_sorted (segments : list parsed_line) (chunk_size : Z) (ws : list (nat * nat)) :
  starts_sorted segments = true ->
  StronglySorted window_before ws ->
  Forall (fun w => window_of segments chunk_size (fst w) (snd w)) ws ->
  forall next_id,
    StronglySorted chunk_before (emit segments ws next_id)
    /\ Forall (fun c => (start_time c <= end_time c)%Q) (emit segments ws next_id).
Proof.
  intros Hs Hsorted Hwf.
  induction Hsorted as [|w ws Hsorted IH Hall]; intros id; cbn [emit].
  - split; constructor.
  - inversion Hwf as [|? ? Hw Hwf']; subst.
    destruct (IH Hwf' id) as (IH1 & IH2).
    destruct (IH Hwf' (id + 1)%Z) as (IH1' & IH2').
    destruct (nonempty (strip (window_text segments w))); [|split; assumption].
    destruct Hw as (Hw & _).
    split; constructor; try assumption.
    + apply emit_Forall. intros w' id' Hin _.
      rewrite Forall_forall in Hall, Hwf'.
      destruct (Hall _ Hin) as (Hlt & Hle).
      destruct (Hwf' _ Hin) as (Hw' & _).
      split; cbn [start_time end_time]; apply (starts_sorted_nth _ Hs); lia.
    + cbn [start_time end_time]. apply (starts_sorted_nth _ Hs). lia.
Qed.

(** X7. When the budget is positive and the starts of the parsed lines do
    not decrease, no chunk ends before it starts, and each chunk starts no
    later and ends no later than every chunk returned after it. *)
Theorem chunk_times_ordered :
  forall (segments : list parsed_line)
         (chunk_size : option Z) (overlap_percent : option Q)
         (chunks : list TranscriptChunk),
    (0 < or_default Z_is_zero chunk_size CHUNK_SIZE_TOKENS)%Z ->
    starts_sorted segments = true ->
    chunk_segments segments chunk_size overlap_percent = Some chunks ->
    Forall (fun c => (start_time c <= end_time c)%Q) chunks
    /\ StronglySorted chunk_before chunks.
Proof.
  intros segments chunk_size overlap_percent chunks Hcs Hs Hrun.
  rewrite chunk_segments_emit in Hrun. injection Hrun as <-.
  set (cs := or_default Z_is_zero chunk_size CHUNK_SIZE_TOKENS) in *.
  set (ov := or_default Qis_zero overlap_percent CHUNK_OVERLAP_PERCENT).
  assert (Hc : window_chain segments cs ov 0
                 (chunk_windows (length segments) segments cs ov 0))
    by (apply chunk_windows_chain; [exact Hcs | lia]).
  destruct (window_chain_sorted Hc) as (H1 & H2 & _).
  apply Sorted_StronglySorted in H1;
    [|intros a b c; apply window_before_trans].
  destruct (emit_sorted Hs H1 H2 0%Z) as (Ha & Hb).
  split; assumption.
Qed.

(** Witness for [chunk_times_ordered]: three lines, five seconds apart,
    with a budget of ten tokens. *)
Lemma chunk_times_ordered_witness :
  Forall (fun c => (start_time c <= end_time c)%Q)
         [mkChunk (lit "Hello world this is a test") 0 0 0;
          mkChunk (lit "This is another segment") 5 5 1;
          mkChunk (lit "And this is the final segment") 10 10 2]
  /\ StronglySorted chunk_before
       [mkChunk (lit "Hello world this is a test") 0 0 0;
        mkChunk (lit "This is another segment") 5 5 1;
        mkChunk (lit "And this is the final segment") 10 10 2].
Proof.
  apply (@chunk_times_ordered
           [mkLine (lit "Hello world this is a test") 0;
            mkLine (lit "This is another segment") 5;
            mkLine (lit "And this is the final segment") 10]
           (Some 10%Z) None); reflexivity.
Defined.
(* ----------------------------------------------------------------- *)
(** ** Results come from the index *)
(* ----------------------------------------------------------------- *)

Lemma sort_desc_Forall (P : TranscriptChunk * R -> Prop) (l : list (TranscriptChunk * R)) :
  Forall P l -> Forall P (sort_desc l).
Proof.
  induction 1 as [|p l Hp Hl IH]; cbn [sort_desc]; [constructor|].
  apply insert_desc_Forall; assumption.
Qed.

Lemma rank_Forall (P : TranscriptChunk * R -> Prop) (top_k : Z) (threshold : R)
    (similarities : list (TranscriptChunk * R)) :
  Forall P similarities -> Forall P (rank top_k threshold similarities).
Proof.
  intros H. unfold rank.
  destruct (slice_to_firstn top_k
              (filter (fun p => Rle_bool threshold (snd p)) (sort_desc similarities)))
    as (n & ->).
  apply sort_desc_Forall in H. rewrite Forall_forall in H |- *.
  intros p Hp. apply In_firstn in Hp. apply filter_In in Hp. apply H, Hp.
Qed.

Lemma score_chunks_indexed (query_embedding : list R) (chunks : list TranscriptChunk) :
  forall chunk_embeddings similarities,
    score_chunks query_embedding chunks chunk_embeddings = Ok similarities ->
    Forall (fun p => exists i embedding,
                nth_error chunks i = Some (fst p)
                /\ nth_error chunk_embeddings i = Some embedding
                /\ cosine_similarity query_embedding embedding = Ok (snd p))
           similarities.
Proof.
  induction chunks as [|c chunks IH]; intros [|e embs] sims; cbn [score_chunks];
    try (intros [= <-]; constructor).
  destruct (cosine_similarity query_embedding e) as [s|] eqn:Es; [|discriminate].
  destruct (score_chunks query_embedding chunks embs) as [rest|] eqn:Er; [|discriminate].
  intros [= <-]. constructor.
  - exists 0, e. repeat split; [exact Es].
  - specialize (IH _ _ Er). revert IH. apply Forall_impl.
    intros p (i & emb & H1 & H2 & H3). exists (S i), emb. repeat split; assumption.
Qed.

(** X8. A result of [find_similar_chunks] is only returned when there are
    as many embeddings as chunks; the query has then been embedded, and
    every pair returned is a chunk of the index with the cosine similarity
    of the query's embedding and the embedding at the chunk's own
    position. *)
Theorem find_similar_chunks_results_indexed :
  forall (rt : runtime) (query : str) (chunks : list TranscriptChunk)
         (chunk_embeddings : list (list R)) (top_k : option Z) (threshold : option R)
         (w w' : world) (results : list (TranscriptChunk * R)),
    find_similar_chunks rt query chunks chunk_embeddings top_k threshold w
    = (Ok results, w') ->
    length chunks = length chunk_embeddings
    /\ exists query_embedding,
         get_embedding rt query w = (Ok query_embedding, w')
         /\ Forall (fun p => exists i embedding,
                       nth_error chunks i = Some (fst p)
                       /\ nth_error chunk_embeddings i = Some embedding
                       /\ cosine_similarity query_embedding embedding = Ok (snd p))
                   results.
Proof.
  intros rt query chunks embs top_k threshold w w' results H.
  destruct (Nat.eq_dec (length chunks) (length embs)) as [Hl|Hl].
  - split; [exact Hl|].
    destruct (get_embedding_ok rt query w) as (qe & w1 & Hq).
    rewrite (@find_similar_chunks_run rt query chunks embs top_k threshold
               w w1 qe Hl Hq) in H.
    destruct (score_chunks qe chunks embs) as [sims|e] eqn:Es; [|discriminate].
    injection H as <- <-.
    exists qe. split; [exact Hq|].
    apply rank_Forall. exact (score_chunks_indexed _ _ _ Es).
  - rewrite find_similar_chunks_mismatch in H by exact Hl. discriminate.
Qed.

(** Witness for [find_similar_chunks_results_indexed]: one chunk, whose
    embedding is that of the query. *)
Lemma find_similar_chunks_results_indexed_witness :
  length [cats_chunk] = length [[1%R]]
  /\ exists query_embedding,
       get_embedding no_service (lit "cats") cats_cached
       = (Ok query_embedding, cats_cached)
       /\ Forall (fun p => exists i embedding,
                     nth_error [cats_chunk] i = Some (fst p)
                     /\ nth_error [[1%R]] i = Some embedding
                     /\ cosine_similarity query_embedding embedding = Ok (snd p))
                 [(cats_chunk, 1%R)].
Proof.
  apply (@find_similar_chunks_results_indexed no_service (lit "cats") [cats_chunk]
           [[1%R]] None None cats_cached cats_cached [(cats_chunk, 1%R)]).
  rewrite <- (proj1 cats_ranks) at 1.
  apply (@find_similar_chunks_zeros no_service (lit "cats") [cats_chunk] [[1%R]]
           cats_cached cats_cached [1%R] [(cats_chunk, 1%R)]
           eq_refl eq_refl (proj1 cats_scores)); left; reflexivity.
Defined.
(* ----------------------------------------------------------------- *)
(** ** Retries *)
(* ----------------------------------------------------------------- *)

Lemma repeat_snoc (A : Type) (x : A) (n : nat) : repeat x n ++ [x] = repeat x (S n).
Proof. induction n as [|n IH]; [reflexivity|]. cbn [repeat app]. rewrite IH. reflexivity. Qed.

(** What [n] attempts at a logged call do: [k] calls are logged; all but
    the last raise; the result is that of the last one; and fewer than [n]
    are made only when the last one succeeds. *)
Lemma retry_from_logged (A : Type) (service : list call -> result A) (c : call) (n : nat) :
  forall (last_exception : exn) (w : world),
    0 < n ->
    exists k,
      1 <= k <= n
      /\ retry_from (logged_call service c) n last_exception w
         = (service (calls w ++ repeat c (k - 1)),
            mkWorld (embeddings_cache w) (calls w ++ repeat c k))
      /\ (forall j, j < k - 1 -> is_ok (service (calls w ++ repeat c j)) = false)
      /\ (k < n -> is_ok (service (calls w ++ repeat c (k - 1))) = true).
Proof.
  induction n as [|n IH]; intros e w Hn; [lia|].
  cbn [retry_from]. unfold try_except, logged_call at 1.
  destruct (service (calls w)) as [a|e1] eqn:E1.
  - exists 1. cbn [Nat.sub repeat]. rewrite app_nil_r, E1.
    split; [lia|]. split; [reflexivity|].
    split; [intros j Hj; lia | reflexivity].
  - destruct n as [|n].
    + exists 1. cbn [retry_from Nat.sub repeat]. rewrite app_nil_r, E1.
      unfold raise. split; [lia|]. split; [reflexivity|].
      split; [intros j Hj; lia | intros Hk; lia].
    + destruct (IH e1 (mkWorld (embeddings_cache w) (calls w ++ [c])) ltac:(lia))
        as (k & Hk & Hrun & Hbefore & Hlast).
      cbn [calls embeddings_cache] in *.
      exists (S k). split; [lia|].
      assert (Hrep : forall m, (calls w ++ [c]) ++ repeat c m = calls w ++ repeat c (S m))
        by (intros m; rewrite <- app_assoc; reflexivity).
      rewrite !Hrep in Hrun.
      replace (S k - 1) with (S (k - 1)) by lia.
      split; [exact Hrun|]. split.
      * intros [|j] Hj; [cbn [repeat]; rewrite app_nil_r, E1; reflexivity|].
        rewrite <- Hrep. apply Hbefore. lia.
      * intros Hlt. rewrite <- Hrep. apply Hlast. lia.
Qed.

Lemma call_feature_extraction_logged (rt : runtime) (text : str) :
  call_feature_extraction rt text
  = logged_call (fun cs => feature_extraction rt cs text) (FeatureExtraction text).
Proof. reflexivity. Qed.

Lemma call_text_generation_logged (rt : runtime) (prompt : str) :
  call_text_generation rt prompt
  = logged_call (fun cs => text_generation rt cs prompt) (TextGeneration prompt).
Proof. reflexivity. Qed.

(** X9. [rate_limit_retry] around a call to a hosted model, for
    embeddings or for text generation, makes between one and
    [MAX_RETRIES] = 3 attempts, each logged; every attempt before the last
    raises; the result, value or exception, is that of the last attempt;
    and it stops before the third attempt only on a success.  The cache is
    not touched. *)
Theorem rate_limit_retry_attempts :
  (forall (rt : runtime) (text : str) (w : world),
      let c := FeatureExtraction text in
      exists k,
        1 <= k <= MAX_RETRIES
        /\ rate_limit_retry (call_feature_extraction rt text) w
           = (feature_extraction rt (calls w ++ repeat c (k - 1)) text,
              mkWorld (embeddings_cache w) (calls w ++ repeat c k))
        /\ (forall j, j < k - 1 ->
              is_ok (feature_extraction rt (calls w ++ repeat c j) text) = false)
        /\ (k < MAX_RETRIES ->
            is_ok (feature_extraction rt (calls w ++ repeat c (k - 1)) text) = true))
  /\ (forall (rt : runtime) (prompt : str) (w : world),
        let c := TextGeneration prompt in
        exists k,
          1 <= k <= MAX_RETRIES
          /\ rate_limit_retry (call_text_generation rt prompt) w
             = (text_generation rt (calls w ++ repeat c (k - 1)) prompt,
                mkWorld (embeddings_cache w) (calls w ++ repeat c k))
          /\ (forall j, j < k - 1 ->
                is_ok (text_generation rt (calls w ++ repeat c j) prompt) = false)
          /\ (k < MAX_RETRIES ->
              is_ok (text_generation rt (calls w ++ repeat c (k - 1)) prompt) = true)).
Proof.
  split.
  - intros rt text w c. rewrite call_feature_extraction_logged.
    unfold rate_limit_retry.
    apply (@retry_from_logged _ (fun cs => feature_extraction rt cs text) c MAX_RETRIES).
    unfold MAX_RETRIES. lia.
  - intros rt prompt w c. rewrite call_text_generation_logged.
    unfold rate_limit_retry.
    apply (@retry_from_logged _ (fun cs => text_generation rt cs prompt) c MAX_RETRIES).
    unfold MAX_RETRIES. lia.
Qed.

(* ----------------------------------------------------------------- *)
(** ** The embedding cache *)
(* ----------------------------------------------------------------- *)

Lemma str_eqb_refl (s : str) : str_eqb s s = true.
Proof. apply str_eqb_eq. reflexivity. Qed.

Lemma str_eqb_neq (a b : str) : a <> b -> str_eqb a b = false.
Proof.
  intros H. destruct (str_eqb a b) eqn:E; [|reflexivity].
  apply str_eqb_eq in E. contradiction.
Qed.

Lemma cache_lookup_filter_other (cache : list (str * list R)) (text other : str) :
  other <> text ->
  cache_lookup (filter (fun kv => negb (str_eqb (fst kv) text)) cache) other
  = cache_lookup cache other.
Proof.
  intros Hne. induction cache as [|[key v] cache IH]; [reflexivity|].
  cbn [filter fst cache_lookup].
  destruct (str_eqb key text) eqn:E; cbn [negb].
  - apply str_eqb_eq in E. subst key.
    rewrite (str_eqb_neq (fun H => Hne (eq_sym H))). exact IH.
  - cbn [cache_lookup]. rewrite IH. reflexivity.
Qed.

(** What one [get_embedding] does. *)
Lemma get_embedding_spec (rt : runtime) (text : str) (w : world) :
  exists embedding w' k,
    get_embedding rt text w = (Ok embedding, w')
    /\ k <= MAX_RETRIES
    /\ calls w' = calls w ++ repeat (FeatureExtraction text) k
    /\ (OFFLINE_MODE rt = true -> k = 0)
    /\ (forall v, cache_lookup (embeddings_cache w) text = Some v ->
          k = 0 /\ w' = w /\ embedding = v)
    /\ (cache_lookup (embeddings_cache w) text = None ->
          embedding = generate_mock_embedding rt text
          \/ (OFFLINE_MODE rt = false
              /\ exists j, j < MAX_RETRIES
                   /\ feature_extraction rt
                        (calls w ++ repeat (FeatureExtraction text) j) text
                      = Ok embedding))
    /\ cache_lookup (embeddings_cache w') text = Some embedding
    /\ (forall other, other <> text ->
          cache_lookup (embeddings_cache w') other
          = cache_lookup (embeddings_cache w) other).
Proof.
  unfold get_embedding.
  destruct (cache_lookup (embeddings_cache w) text) as [v|] eqn:Hlook.
  - exists v, w, 0. cbn [repeat]. rewrite app_nil_r.
    repeat split; try reflexivity; try lia; try congruence;
      try (intros v' [= <-]; reflexivity); try discriminate.
  - destruct (OFFLINE_MODE rt) eqn:Hoff.
    + exists (generate_mock_embedding rt text),
        (mkWorld ((text, generate_mock_embedding rt text)
                    :: filter (fun kv => negb (str_eqb (fst kv) text)) (embeddings_cache w))
                 (calls w)), 0.
      split; [reflexivity|]. cbn [calls embeddings_cache repeat cache_lookup fst].
      rewrite app_nil_r, str_eqb_refl.
      split; [lia|]. split; [reflexivity|]. split; [reflexivity|].
      split; [discriminate|]. split; [left; reflexivity|]. split; [reflexivity|].
      intros other Hne.
      rewrite (str_eqb_neq (fun H => Hne (eq_sym H))).
      apply cache_lookup_filter_other, Hne.
    + destruct (@retry_from_logged _ (fun cs => feature_extraction rt cs text)
                  (FeatureExtraction text) MAX_RETRIES
                  (TypeError (lit "exceptions must derive from BaseException")) w
                  ltac:(unfold MAX_RETRIES; lia))
        as (k & Hk & Hrun & _ & _).
      unfold try_except, bind at 1, rate_limit_retry.
      rewrite call_feature_extraction_logged, Hrun.
      destruct (feature_extraction rt (calls w ++ repeat (FeatureExtraction text) (k - 1)) text)
        as [v|e] eqn:Hfe.
      * exists v,
          (mkWorld ((text, v)
                      :: filter (fun kv => negb (str_eqb (fst kv) text)) (embeddings_cache w))
                   (calls w ++ repeat (FeatureExtraction text) k)), k.
        split; [reflexivity|]. cbn [calls embeddings_cache cache_lookup fst].
        rewrite str_eqb_refl.
        split; [lia|]. split; [reflexivity|]. split; [discriminate|].
        split; [discriminate|].
        split; [right; split; [reflexivity|]; exists (k - 1); split; [lia | exact Hfe]|].
        split; [reflexivity|].
        intros other Hne.
        rewrite (str_eqb_neq (fun H => Hne (eq_sym H))).
        apply cache_lookup_filter_other, Hne.
      * exists (generate_mock_embedding rt text),
          (mkWorld ((text, generate_mock_embedding rt text)
                      :: filter (fun kv => negb (str_eqb (fst kv) text)) (embeddings_cache w))
                   (calls w ++ repeat (FeatureExtraction text) k)), k.
        split; [reflexivity|]. cbn [calls embeddings_cache cache_lookup fst].
        rewrite str_eqb_refl.
        split; [lia|]. split; [reflexivity|]. split; [discriminate|].
        split; [discriminate|]. split; [left; reflexivity|]. split; [reflexivity|].
        intros other Hne.
        rewrite (str_eqb_neq (fun H => Hne (eq_sym H))).
        apply cache_lookup_filter_other, Hne.
Qed.

Lemma get_embedding_keeps (rt : runtime) (text : str) (w w' : world) (embedding : list R) :
  get_embedding rt text w = (Ok embedding, w') ->
  forall t v, cache_lookup (embeddings_cache w) t = Some v ->
              cache_lookup (embeddings_cache w') t = Some v.
Proof.
  intros Hrun t v Hv.
  destruct (get_embedding_spec rt text w)
    as (e & w1 & k & Hrun' & _ & _ & _ & Hhit & _ & _ & Hother).
  rewrite Hrun in Hrun'. injection Hrun' as <- <-.
  destruct (list_eq_dec N.eq_dec t text) as [->|Hne].
  - destruct (Hhit _ Hv) as (_ & -> & _). exact Hv.
  - rewrite (Hother _ Hne). exact Hv.
Qed.

(** X10. [get_embedding] always returns a vector and caches it: a miss
    costs at most [MAX_RETRIES] calls to the embedding model, and none in
    offline mode; a hit costs none.  Asking again for the same text gives
    the same vector with no further call and no change of state, and the
    entries of other texts are still served from the cache. *)
Theorem get_embedding_caches :
  forall (rt : runtime) (text : str) (w : world),
    exists embedding w' k,
      get_embedding rt text w = (Ok embedding, w')
      /\ k <= MAX_RETRIES
      /\ calls w' = calls w ++ repeat (FeatureExtraction text) k
      /\ (OFFLINE_MODE rt = true \/ cache_lookup (embeddings_cache w) text <> None
          -> k = 0)
      /\ get_embedding rt text w' = (Ok embedding, w')
      /\ (forall other v,
            cache_lookup (embeddings_cache w) other = Some v ->
            get_embedding rt other w' = (Ok v, w')).
Proof.
  intros rt text w.
  destruct (get_embedding_spec rt text w)
    as (e & w1 & k & Hrun & Hk & Hcalls & Hoff & Hhit & _ & Hcached & Hother).
  exists e, w1, k.
  split; [exact Hrun|]. split; [exact Hk|]. split; [exact Hcalls|].
  split; [|split].
  - intros [H|H]; [exact (Hoff H)|].
    destruct (cache_lookup (embeddings_cache w) text) as [v|] eqn:E; [|contradiction].
    exact (proj1 (Hhit v eq_refl)).
  - unfold get_embedding. rewrite Hcached. reflexivity.
  - intros other v Hv. unfold get_embedding.
    rewrite (get_embedding_keeps _ _ _ Hrun _ Hv). reflexivity.
Qed.

(* ----------------------------------------------------------------- *)
(** ** The batch and the index *)
(* ----------------------------------------------------------------- *)

Lemma extends_refl (w : world) (n : nat) : extends_by_embedding_calls w w n.
Proof.
  exists []. rewrite app_nil_r. repeat split; [cbn; lia | constructor].
Qed.

Lemma extends_trans (a b c : world) (n m : nat) :
  extends_by_embedding_calls a b n -> extends_by_embedding_calls b c m ->
  extends_by_embedding_calls a c (n + m).
Proof.
  intros (x & Hx & Lx & Fx) (y & Hy & Ly & Fy). exists (x ++ y).
  rewrite Hy, Hx, app_assoc, length_app.
  repeat split; [lia | apply Forall_app; split; assumption].
Qed.

Lemma get_embedding_extends (rt : runtime) (text : str) (w w' : world) (embedding : list R) :
  get_embedding rt text w = (Ok embedding, w') ->
  extends_by_embedding_calls w w' MAX_RETRIES
  /\ (OFFLINE_MODE rt = true -> calls w' = calls w).
Proof.
  intros Hrun.
  destruct (get_embedding_spec rt text w)
    as (e & w1 & k & Hrun' & Hk & Hcalls & Hoff & _).
  rewrite Hrun in Hrun'. injection Hrun' as <- <-. split.
  - exists (repeat (FeatureExtraction text) k).
    split; [exact Hcalls|]. rewrite repeat_length. split; [exact Hk|].
    apply Forall_forall. intros c Hc. apply repeat_spec in Hc. eauto.
  - intros H. rewrite Hcalls, (Hoff H). cbn [repeat]. apply app_nil_r.
Qed.

(** What the batch does, from any list built so far. *)
Lemma batch_loop_spec (rt : runtime) (texts : list str) :
  forall (embeddings : list (list R)) (w : world),
    exists new w',
      batch_loop rt texts embeddings w = (Ok (embeddings ++ new), w')
      /\ length new = length texts
      /\ extends_by_embedding_calls w w' (length texts * MAX_RETRIES)
      /\ (OFFLINE_MODE rt = true -> calls w' = calls w)
      /\ (forall t v, cache_lookup (embeddings_cache w) t = Some v ->
                      cache_lookup (embeddings_cache w') t = Some v)
      /\ (forall i t, nth_error texts i = Some t ->
                      nth_error new i = cache_lookup (embeddings_cache w') t
                      /\ nth_error new i <> None).
Proof.
  induction texts as [|text rest IH]; intros acc w.
  - exists [], w. rewrite app_nil_r.
    split; [reflexivity|]. split; [reflexivity|]. split; [apply extends_refl|].
    split; [reflexivity|]. split; [auto|]. intros [|i] t H; discriminate H.
  - destruct (get_embedding_spec rt text w)
      as (e & w1 & k & Hrun & _ & _ & _ & _ & _ & Hcached & _).
    destruct (get_embedding_extends _ _ _ Hrun) as (Hext & Hoff).
    destruct (IH (acc ++ [e]) w1) as (new & w2 & Hrest & Hlen & Hext' & Hoff' & Hkeep & Hnth).
    exists (e :: new), w2.
    split.
    { cbn [batch_loop]. unfold bind at 1, try_except. rewrite Hrun, Hrest.
      rewrite <- app_assoc. reflexivity. }
    split; [cbn [length]; rewrite Hlen; reflexivity|].
    split.
    { cbn [length]. replace (S (length rest) * MAX_RETRIES)
        with (MAX_RETRIES + length rest * MAX_RETRIES) by lia.
      exact (extends_trans Hext Hext'). }
    split; [intros H; rewrite (Hoff' H); exact (Hoff H)|].
    split; [intros t v Hv; apply Hkeep; exact (get_embedding_keeps _ _ _ Hrun _ Hv)|].
    intros [|i] t Ht; cbn [nth_error] in *.
    + injection Ht as <-. rewrite (Hkeep _ _ Hcached). split; [reflexivity | discriminate].
    + apply Hnth, Ht.
Qed.

Lemma get_embeddings_batch_ok (rt : runtime) (texts : list str) (w : world) :
  exists embeddings w',
    get_embeddings_batch rt texts w = (Ok embeddings, w')
    /\ length embeddings = length texts.
Proof.
  destruct (batch_loop_spec rt texts [] w) as (new & w' & Hrun & Hlen & _).
  exists new, w'. split; [exact Hrun | exact Hlen].
Qed.

(** X11. [get_embeddings_batch] never raises and returns one vector per
    text, in order; it makes at most [MAX_RETRIES] calls per text, all to
    the embedding model, and none in offline mode; afterwards the cache
    holds, for every text of the batch, the vector returned for it, and
    still holds every entry it held before. *)
Theorem get_embeddings_batch_properties :
  forall (rt : runtime) (texts : list str) (w : world),
    exists embeddings w',
      get_embeddings_batch rt texts w = (Ok embeddings, w')
      /\ length embeddings = length texts
      /\ extends_by_embedding_calls w w' (length texts * MAX_RETRIES)
      /\ (OFFLINE_MODE rt = true -> calls w' = calls w)
      /\ (forall t v, cache_lookup (embeddings_cache w) t = Some v ->
                      cache_lookup (embeddings_cache w') t = Some v)
      /\ (forall i t, nth_error texts i = Some t ->
            exists embedding,
              nth_error embeddings i = Some embedding
              /\ cache_lookup (embeddings_cache w') t = Some embedding
              /\ get_embedding rt t w' = (Ok embedding, w')).
Proof.
  intros rt texts w.
  destruct (batch_loop_spec rt texts [] w)
    as (new & w' & Hrun & Hlen & Hext & Hoff & Hkeep & Hnth).
  exists new, w'.
  split; [exact Hrun|]. split; [exact Hlen|]. split; [exact Hext|].
  split; [exact Hoff|]. split; [exact Hkeep|].
  intros i t Ht. destruct (Hnth i t Ht) as (E & Hne).
  destruct (nth_error new i) as [e|] eqn:En; [|contradiction].
  exists e. split; [reflexivity|]. split; [symmetry; exact E|].
  unfold get_embedding. rewrite <- E. reflexivity.
Qed.

(** X12. [index_chunks] never raises.  With no chunks it changes nothing,
    so an index built before stays in place.  Otherwise the agent holds
    the given chunks and one embedding per chunk, in order, each being the
    vector now cached for the text of its chunk; so both guards of
    [answer_question] and the length check of [find_similar_chunks] pass.
    In offline mode no hosted model is called. *)
Theorem index_chunks_properties :
  forall (rt : runtime) (agent : QAAgent) (new_chunks : list TranscriptChunk) (w : world),
    exists agent' w',
      index_chunks rt agent new_chunks w = (Ok agent', w')
      /\ (new_chunks = [] -> agent' = agent /\ w' = w)
      /\ (new_chunks <> [] ->
          chunks agent' = new_chunks
          /\ length (chunk_embeddings agent') = length (chunks agent')
          /\ negb (nonempty (chunks agent')) || negb (nonempty (chunk_embeddings agent'))
             = false
          /\ forall i c, nth_error new_chunks i = Some c ->
               exists embedding,
                 nth_error (chunk_embeddings agent') i = Some embedding
                 /\ cache_lookup (embeddings_cache w') (text c) = Some embedding)
      /\ extends_by_embedding_calls w w' (length new_chunks * MAX_RETRIES)
      /\ (OFFLINE_MODE rt = true -> calls w' = calls w).
Proof.
  intros rt agent cs w. unfold index_chunks.
  destruct cs as [|c0 cs'] eqn:Ecs.
  - exists agent, w. cbn [nonempty negb]. split; [reflexivity|].
    split; [auto|]. split; [intros H; contradiction|].
    split; [apply extends_refl | reflexivity].
  - rewrite <- Ecs. replace (negb (nonempty cs)) with false by (rewrite Ecs; reflexivity).
    cbv zeta.
    destruct (batch_loop_spec rt (map text cs) [] w)
      as (new & w' & Hrun & Hlen & Hext & Hoff & _ & Hnth).
    rewrite length_map in Hlen, Hext.
    exists (mkAgent cs new), w'.
    split; [unfold bind, get_embeddings_batch; rewrite Hrun; reflexivity|].
    split; [intros H; rewrite Ecs in H; discriminate H|].
    split; [|split; [exact Hext | exact Hoff]].
    intros _. cbn [chunks chunk_embeddings].
    split; [reflexivity|]. split; [exact Hlen|]. split.
    + rewrite Ecs in *. destruct new; [discriminate Hlen | reflexivity].
    + intros i c Hc.
      destruct (Hnth i (text c)) as (E & Hne); [rewrite nth_error_map, Hc; reflexivity|].
      destruct (nth_error new i) as [e|]; [|contradiction].
      exists e. split; [reflexivity | symmetry; exact E].
Qed.

(** Witness for [index_chunks_properties]: one chunk, offline. *)
Lemma index_chunks_properties_witness :
  exists agent' w',
    index_chunks (example_runtime true (@failing_service _) (@failing_service _))
      (mkAgent [] []) [mkChunk (lit "Hello world") 0 5 0] (mkWorld [] [])
    = (Ok agent', w')
    /\ chunks agent' = [mkChunk (lit "Hello world") 0 5 0]
    /\ length (chunk_embeddings agent') = 1.
Proof.
  destruct (index_chunks_properties
              (example_runtime true (@failing_service _) (@failing_service _))
              (mkAgent [] []) [mkChunk (lit "Hello world") 0 5 0] (mkWorld [] []))
    as (agent' & w' & Hrun & _ & Hsome & _).
  destruct (Hsome ltac:(discriminate)) as (Hc & Hl & _).
  exists agent', w'. split; [exact Hrun|]. split; [exact Hc|].
  rewrite Hl, Hc. reflexivity.
Defined.

(** X13. [clear_index] empties the index and the cache and makes no
    call.  Afterwards [answer_question] gives the nothing-indexed
    response, indexing an empty list leaves the index empty, and outside
    offline mode the next [get_embedding] has to call the embedding model
    again. *)
Theorem clear_index_forgets :
  forall (agent : QAAgent) (w : world),
    exists agent' w',
      clear_index agent w = (Ok agent', w')
      /\ clear_session agent w = (Ok agent', w')
      /\ calls w' = calls w
      /\ (forall text, cache_lookup (embeddings_cache w') text = None)
      /\ (forall rt question similarity_threshold top_k,
            answer_question rt agent' question similarity_threshold top_k w'
            = (Ok (NOTHING_INDEXED, []), w'))
      /\ (forall rt, index_chunks rt agent' [] w' = (Ok agent', w'))
      /\ (forall rt text,
            OFFLINE_MODE rt = false ->
            exists embedding w'' k,
              get_embedding rt text w' = (Ok embedding, w'')
              /\ 1 <= k
              /\ calls w'' = calls w' ++ repeat (FeatureExtraction text) k).
Proof.
  intros agent w. exists (mkAgent [] []), (mkWorld [] (calls w)).
  split; [reflexivity|]. split; [reflexivity|]. split; [reflexivity|].
  split; [reflexivity|].
  split; [intros; apply answer_question_empty; left; reflexivity|].
  split; [reflexivity|].
  intros rt text Hoff.
  destruct (@retry_from_logged _ (fun cs => feature_extraction rt cs text)
              (FeatureExtraction text) MAX_RETRIES
              (TypeError (lit "exceptions must derive from BaseException"))
              (mkWorld [] (calls w)) ltac:(unfold MAX_RETRIES; lia))
    as (k & Hk & Hrun & _ & _).
  unfold get_embedding. cbn [embeddings_cache cache_lookup]. rewrite Hoff.
  unfold try_except, bind at 1, rate_limit_retry.
  rewrite call_feature_extraction_logged, Hrun.
  destruct (feature_extraction rt _ text) as [v|e];
    eexists _, _, k; (split; [reflexivity|]); (split; [lia | reflexivity]).
Qed.
(* ----------------------------------------------------------------- *)
(** ** Offline mode *)
(* ----------------------------------------------------------------- *)

Lemma generate_mock_embedding_length (rt : runtime) (text : str) :
  length (generate_mock_embedding rt text) = 384.
Proof.
  unfold generate_mock_embedding. cbv zeta.
  destruct (Rlt_bool 0 _); rewrite ?length_map, length_seq; reflexivity.
Qed.

Lemma cache_lookup_In (cache : list (str * list R)) (text : str) (v : list R) :
  cache_lookup cache text = Some v -> exists key, In (key, v) cache.
Proof.
  induction cache as [|[key v0] cache IH]; cbn [cache_lookup]; [discriminate|].
  destruct (str_eqb key text).
  - intros [= <-]. exists key. left. reflexivity.
  - intros H. destruct (IH H) as (k & Hk). exists k. right. exact Hk.
Qed.

Lemma cache_dim_lookup (dim : nat) (w : world) (text : str) (v : list R) :
  cache_dim dim w -> cache_lookup (embeddings_cache w) text = Some v -> length v = dim.
Proof.
  intros Hd Hv. destruct (cache_lookup_In _ _ Hv) as (key & Hin).
  unfold cache_dim in Hd. rewrite Forall_forall in Hd. exact (Hd _ Hin).
Qed.

Lemma cache_dim_store (dim : nat) (w : world) (text : str) (v : list R) (cs : list call) :
  cache_dim dim w -> length v = dim ->
  cache_dim dim
    (mkWorld ((text, v) :: filter (fun kv => negb (str_eqb (fst kv) text)) (embeddings_cache w))
             cs).
Proof.
  intros Hd Hv. unfold cache_dim in *. cbn [embeddings_cache].
  constructor; [exact Hv|].
  rewrite Forall_forall in Hd |- *. intros kv Hin. apply filter_In in Hin. apply Hd, Hin.
Qed.

(** Offline, an embedding is a cached vector or a mock one, and no call
    is made. *)
Lemma get_embedding_offline (rt : runtime) (text : str) (w : world) :
  OFFLINE_MODE rt = true -> cache_dim 384 w ->
  exists embedding w',
    get_embedding rt text w = (Ok embedding, w')
    /\ length embedding = 384 /\ cache_dim 384 w' /\ calls w' = calls w.
Proof.
  intros Hoff Hd. unfold get_embedding.
  destruct (cache_lookup (embeddings_cache w) text) as [v|] eqn:Hlook.
  - exists v, w. split; [reflexivity|].
    split; [exact (cache_dim_lookup _ Hd Hlook)|]. split; [exact Hd | reflexivity].
  - rewrite Hoff.
    exists (generate_mock_embedding rt text),
      (mkWorld ((text, generate_mock_embedding rt text)
                  :: filter (fun kv => negb (str_eqb (fst kv) text)) (embeddings_cache w))
               (calls w)).
    split; [reflexivity|].
    split; [apply generate_mock_embedding_length|].
    split; [|reflexivity].
    apply cache_dim_store; [exact Hd | apply generate_mock_embedding_length].
Qed.

Lemma batch_loop_offline (rt : runtime) (texts : list str) :
  OFFLINE_MODE rt = true ->
  forall (embeddings : list (list R)) (w : world),
    cache_dim 384 w ->
    exists new w',
      batch_loop rt texts embeddings w = (Ok (embeddings ++ new), w')
      /\ length new = length texts
      /\ Forall (fun e => length e = 384) new
      /\ cache_dim 384 w' /\ calls w' = calls w.
Proof.
  intros Hoff. induction texts as [|text rest IH]; intros acc w Hd.
  - exists [], w. rewrite app_nil_r. repeat split; [constructor | exact Hd].
  - destruct (@get_embedding_offline rt text w Hoff Hd) as (e & w1 & Hrun & Hlen & Hd1 & Hc1).
    destruct (IH (acc ++ [e]) w1 Hd1) as (new & w2 & Hrest & Hlen' & Hall & Hd2 & Hc2).
    exists (e :: new), w2.
    split.
    { cbn [batch_loop]. unfold bind at 1, try_except. rewrite Hrun, Hrest.
      rewrite <- app_assoc. reflexivity. }
    split; [cbn [length]; rewrite Hlen'; reflexivity|].
    split; [constructor; assumption|].
    split; [exact Hd2 | congruence].
Qed.

Lemma generate_answer_offline (rt : runtime) (question context : str) (w : world) :
  OFFLINE_MODE rt = true ->
  exists answer, generate_answer rt question context w = (Ok answer, w).
Proof.
  intros Hoff. unfold generate_answer, try_except, bind, ret. cbv zeta.
  rewrite Hoff. eauto.
Qed.

(** X14. In offline mode, from a cache whose vectors have 384 components
    (an empty cache, for one), indexing chunks and then asking a question
    never calls a hosted model, retrieval does not raise, and
    [answer_question] does not take its error path: it returns the
    not-found response with no citation, or an answer with at least one
    citation. *)
Theorem offline_question_answering :
  forall (rt : runtime) (agent : QAAgent) (new_chunks : list TranscriptChunk)
         (question : str) (similarity_threshold : option R) (top_k : option Z)
         (w : world),
    OFFLINE_MODE rt = true ->
    cache_dim 384 w ->
    new_chunks <> [] ->
    exists agent' w1 results w2 answer citations,
      index_chunks rt agent new_chunks w = (Ok agent', w1)
      /\ find_similar_chunks rt question (chunks agent') (chunk_embeddings agent')
           top_k similarity_threshold w1 = (Ok results, w2)
      /\ answer_question rt agent' question similarity_threshold top_k w1
         = (Ok (answer, citations), w2)
      /\ citations = map (fun p => get_citation (fst p)) results
      /\ (results = [] -> answer = NOT_FOUND)
      /\ calls w2 = calls w.
Proof.
  intros rt agent cs question threshold top_k w Hoff Hd Hne.
  destruct (@batch_loop_offline rt (map text cs) Hoff [] w Hd)
    as (embs & w1 & Hbatch & Hlen & Hall & Hd1 & Hc1).
  rewrite length_map in Hlen.
  set (agent' := mkAgent cs embs).
  assert (Hindex : index_chunks rt agent cs w = (Ok agent', w1)).
  { unfold index_chunks. destruct cs as [|c0 cs']; [contradiction|].
    cbn [nonempty negb]. cbv zeta. unfold bind, get_embeddings_batch.
    rewrite Hbatch. reflexivity. }
  destruct (@get_embedding_offline rt question w1 Hoff Hd1) as (qe & w2 & Hq & Hqlen & _ & Hc2).
  assert (Hscore : exists sims, score_chunks qe cs embs = Ok sims).
  { apply score_chunks_ok. revert Hall. apply Forall_impl. intros e He. congruence. }
  destruct Hscore as (sims & Hsims).
  pose proof (@find_similar_chunks_run rt question cs embs top_k threshold w1 w2 qe
                (eq_sym Hlen) Hq) as Hfind.
  rewrite Hsims in Hfind.
  set (results := rank (or_default Z_is_zero top_k TOP_K_CHUNKS)
                       (or_default R_is_zero threshold SIMILARITY_THRESHOLD) sims) in *.
  assert (Hcs : chunks agent' <> []) by exact Hne.
  assert (Hes : chunk_embeddings agent' <> []).
  { cbn [agent' chunk_embeddings]. intros ->. destruct cs; [contradiction | discriminate Hlen]. }
  exists agent', w1, results, w2.
  destruct results as [|r0 rest] eqn:Er.
  - exists NOT_FOUND, []. split; [exact Hindex|]. split; [exact Hfind|].
    split; [apply answer_question_nothing_found; assumption|].
    split; [reflexivity|]. split; [reflexivity | congruence].
  - destruct (@generate_answer_offline rt question
                (prepare_context (r0 :: rest) None) w2 Hoff) as (answer & Hgen).
    exists (add_citations answer (map (fun p => get_citation (fst p)) (r0 :: rest))),
      (map (fun p => get_citation (fst p)) (r0 :: rest)).
    split; [exact Hindex|]. split; [exact Hfind|].
    split.
    { apply (@answer_question_run rt agent' question threshold top_k w1 w2 w2
               (r0 :: rest) answer Hcs Hes Hfind); [discriminate | exact Hgen]. }
    split; [reflexivity|]. split; [discriminate | congruence].
Qed.

(** Witness for [offline_question_answering]: one chunk indexed from an
    empty cache. *)
Lemma offline_question_answering_witness :
  exists agent' w1 results w2 answer citations,
    index_chunks (example_runtime true (@failing_service _) (@failing_service _))
      (mkAgent [] []) [mkChunk (lit "Hello world") 0 5 0] (mkWorld [] [])
    = (Ok agent', w1)
    /\ find_similar_chunks (example_runtime true (@failing_service _) (@failing_service _))
         (lit "What is said?") (chunks agent') (chunk_embeddings agent')
         None None w1 = (Ok results, w2)
    /\ answer_question (example_runtime true (@failing_service _) (@failing_service _))
         agent' (lit "What is said?") None None w1
       = (Ok (answer, citations), w2)
    /\ citations = map (fun p => get_citation (fst p)) results
    /\ (results = [] -> answer = NOT_FOUND)
    /\ calls w2 = [].
Proof.
  apply (@offline_question_answering
           (example_runtime true (@failing_service _) (@failing_service _))
           (mkAgent [] []) [mkChunk (lit "Hello world") 0 5 0]
           (lit "What is said?") None None (mkWorld [] [])).
  - reflexivity.
  - constructor.
  - discriminate.
Defined.
(* ----------------------------------------------------------------- *)
(** ** The mock embedding *)
(* ----------------------------------------------------------------- *)

Section Mock.

Local Open Scope R_scope.

Lemma dot_nonneg (a : list R) :
  forall b, Forall (fun x => 0 <= x) a -> Forall (fun x => 0 <= x) b -> 0 <= dot a b.
Proof.
  induction a as [|x a IH]; intros [|y b] Ha Hb; cbn [dot]; try lra.
  inversion Ha; inversion Hb; subst.
  specialize (IH b ltac:(assumption) ltac:(assumption)). nra.
Qed.

Lemma nth_nonneg (l : list R) (k : nat) :
  Forall (fun x => 0 <= x) l -> 0 <= nth k l 0.
Proof.
  intros H. revert k. induction H as [|x l Hx Hl IH]; intros [|k]; cbn [nth]; try lra.
  apply IH.
Qed.

Lemma ratio_nonneg (a : nat) (text : str) :
  0 <= (if nonempty text then INR a / INR (length text) else 0).
Proof.
  destruct text as [|c text]; cbn [nonempty]; [lra|].
  apply Rle_mult_inv_pos; [apply pos_INR | apply lt_0_INR; cbn; lia].
Qed.

Lemma generate_mock_embedding_nonneg (rt : runtime) (text : str) :
  Forall (fun x => 0 <= x) (generate_mock_embedding rt text).
Proof.
  unfold generate_mock_embedding. cbv zeta.
  match goal with |- context [Rlt_bool 0 (norm ?raw)] => set (v := raw) end.
  assert (Hv : Forall (fun x => 0 <= x) v).
  { subst v. apply Forall_map, Forall_forall. intros i _.
    apply Rle_mult_inv_pos; [|lra].
    apply Rplus_le_le_0_compat.
    - apply Rle_mult_inv_pos; [|lra]. apply IZR_le. lia.
    - apply nth_nonneg.
      apply Forall_cons; [apply Rle_mult_inv_pos; [apply pos_INR | lra]|].
      apply Forall_cons; [apply ratio_nonneg|].
      apply Forall_cons; [apply ratio_nonneg | apply Forall_nil]. }
  destruct (Rlt_bool 0 (norm v)) eqn:E; [|exact Hv].
  apply Rlt_bool_true in E.
  apply Forall_map. revert Hv. apply Forall_impl. intros x Hx.
  apply Rle_mult_inv_pos; assumption.
Qed.

End Mock.

(** X15. The mock embedding has 384 components, none of them negative.
    Hence the score of two mock embeddings is defined (the dimensions
    agree) and is not negative. *)
Theorem generate_mock_embedding_properties :
  forall (rt : runtime) (text : str),
    let e := generate_mock_embedding rt text in
    length e = 384
    /\ Forall (fun x => (0 <= x)%R) e
    /\ forall other : str,
         exists s, cosine_similarity e (generate_mock_embedding rt other) = Ok s
                   /\ (0 <= s)%R.
Proof.
  intros rt text e. subst e.
  pose proof (generate_mock_embedding_nonneg rt text) as Hpos.
  split; [apply generate_mock_embedding_length|].
  split; [exact Hpos|].
  intros other.
  pose proof (generate_mock_embedding_nonneg rt other) as Hpos'.
  destruct (@cosine_similarity_ok (generate_mock_embedding rt text)
              (generate_mock_embedding rt other)) as (s & Hs).
  { rewrite !generate_mock_embedding_length. reflexivity. }
  exists s. split; [exact Hs|].
  revert Hs. unfold cosine_similarity. cbv zeta.
  destruct (Req_bool (norm (generate_mock_embedding rt text)) 0) eqn:E1;
    [intros [= <-]; apply Rle_refl|].
  destruct (Req_bool (norm (generate_mock_embedding rt other)) 0) eqn:E2;
    [intros [= <-]; apply Rle_refl|].
  cbn [orb]. unfold np_dot. destruct (_ =? _); [|discriminate]. intros [= <-].
  apply Req_bool_false in E1, E2.
  apply Rmult_le_pos; [apply dot_nonneg; assumption|].
  apply Rlt_le, Rinv_0_lt_compat.
  pose proof (sqrt_pos (dot (generate_mock_embedding rt text)
                            (generate_mock_embedding rt text))) as H1.
  pose proof (sqrt_pos (dot (generate_mock_embedding rt other)
                            (generate_mock_embedding rt other))) as H2.
  unfold norm in *. apply Rmult_lt_0_compat; lra.
Qed.
(* ----------------------------------------------------------------- *)
(** ** Substrings *)
(* ----------------------------------------------------------------- *)

Lemma startswith_app (sub post : str) : startswith sub (sub ++ post) = true.
Proof.
  induction sub as [|c sub IH]; [reflexivity|].
  cbn [app startswith]. rewrite N.eqb_refl. exact IH.
Qed.

Lemma contains_app (pre sub post : str) : contains sub (pre ++ sub ++ post) = true.
Proof.
  induction pre as [|c pre IH].
  - cbn [app]. destruct (sub ++ post) eqn:E; cbn [contains];
      rewrite <- E, startswith_app; reflexivity.
  - cbn [app contains]. rewrite IH. apply orb_true_r.
Qed.

Lemma join_In_split (sep : str) (parts : list str) (p : str) :
  In p parts -> exists pre post, join sep parts = pre ++ p ++ post.
Proof.
  induction parts as [|q parts IH]; intros Hin; [contradiction|].
  destruct parts as [|r parts].
  - destruct Hin as [->|[]]. exists [], []. cbn [join app]. rewrite app_nil_r. reflexivity.
  - change (join sep (q :: r :: parts)) with (q ++ sep ++ join sep (r :: parts)).
    destruct Hin as [->|Hin].
    + exists [], (sep ++ join sep (r :: parts)). reflexivity.
    + destruct (IH Hin) as (pre & post & ->).
      exists (q ++ sep ++ pre), post. rewrite <- !app_assoc. reflexivity.
Qed.

(* ----------------------------------------------------------------- *)
(** ** A context that fits *)
(* ----------------------------------------------------------------- *)

Lemma len_nonneg (A : Type) (l : list A) : (0 <= len l)%Z.
Proof. unfold len. lia. Qed.

Lemma counted_nonneg (parts : list str) : (0 <= counted parts)%Z.
Proof.
  induction parts as [|p parts IH]; cbn [counted fold_right]; [lia|].
  pose proof (len_nonneg p). unfold counted in IH. lia.
Qed.

Lemma counted_firstn_next (parts : list str) (n : nat) (p : str) :
  nth_error parts n = Some p ->
  (counted (firstn n parts) + len p + 2 <= counted parts)%Z.
Proof.
  revert n. induction parts as [|q parts IH]; intros [|n] H; try discriminate.
  - injection H as ->. cbn [firstn counted fold_right].
    pose proof (counted_nonneg parts). unfold counted in *. lia.
  - cbn [nth_error] in H. specialize (IH n H).
    cbn [firstn counted fold_right]. unfold counted in *. lia.
Qed.

(** X16. When all blocks fit in the budget, with two characters counted
    after each, [prepare_context] cuts and drops nothing: the context is
    the blocks of all ranked chunks joined by blank lines, so it holds the
    citation of every one of them. *)
Theorem prepare_context_keeps_all :
  forall (similar_chunks : list (TranscriptChunk * R)) (max_length : option Z),
    (counted (map (fun p => block (fst p)) similar_chunks)
     <= or_default Z_is_zero max_length MAX_CONTEXT_LENGTH)%Z ->
    prepare_context similar_chunks max_length
    = join BLANK_LINE (map (fun p => block (fst p)) similar_chunks)
    /\ forall p, In p similar_chunks ->
         contains (get_citation (fst p)) (prepare_context similar_chunks max_length) = true.
Proof.
  intros sims max_length Hfit.
  assert (Hrun : prepare_context sims max_length
                 = join BLANK_LINE (map (fun p => block (fst p)) sims)).
  { destruct sims as [|[chunk score] rest]; [reflexivity|].
    destruct (prepare_context_run chunk score rest max_length)
      as (n & Hlen & Hrun & _ & Hstop).
    cbv zeta in Hrun, Hstop.
    set (m := or_default Z_is_zero max_length MAX_CONTEXT_LENGTH) in *.
    cbn [map fst counted fold_right] in Hfit.
    pose proof (counted_nonneg (map (fun p => block (fst p)) rest)) as Hrest.
    unfold counted in Hrest.
    destruct (Z.gtb_spec (len (block chunk)) m) as [Hgt|Hle]; [lia|].
    assert (Hn : firstn n rest = rest).
    { apply firstn_all2. destruct (nth_error rest n) as [p|] eqn:Ep.
      - exfalso. specialize (Hstop p eq_refl).
        pose proof (@counted_firstn_next (map (fun p => block (fst p)) rest) n
                      (block (fst p))) as Hc.
        rewrite nth_error_map, Ep in Hc. specialize (Hc eq_refl).
        rewrite firstn_map in Hc.
        cbn [counted fold_right] in Hstop. unfold counted in *. lia.
      - apply nth_error_None in Ep. exact Ep. }
    rewrite Hn in Hrun. exact Hrun. }
  split; [exact Hrun|].
  intros p Hp. rewrite Hrun.
  destruct (@join_In_split BLANK_LINE (map (fun p => block (fst p)) sims) (block (fst p)))
    as (pre & post & ->); [apply (in_map (fun p => block (fst p))), Hp|].
  unfold block. rewrite <- !app_assoc, !app_assoc, <- app_assoc.
  apply contains_app.
Qed.

(** Witness for [prepare_context_keeps_all]: two chunks and the default
    budget. *)
Lemma prepare_context_keeps_all_witness :
  prepare_context
    [(mkChunk (lit "First chunk") 0 10 0, (9 / 10)%R);
     (mkChunk (lit "Second chunk") 10 20 1, (8 / 10)%R)] None
  = join BLANK_LINE
      [block (mkChunk (lit "First chunk") 0 10 0);
       block (mkChunk (lit "Second chunk") 10 20 1)].
Proof.
  apply (@prepare_context_keeps_all
           [(mkChunk (lit "First chunk") 0 10 0, (9 / 10)%R);
            (mkChunk (lit "Second chunk") 10 20 1, (8 / 10)%R)] None).
  lazy. discriminate.
Defined.
(* ----------------------------------------------------------------- *)
(** ** The prompt *)
(* ----------------------------------------------------------------- *)

Lemma format_prompt_len (context question : str) :
  len (format_prompt context question) = (163 + len context + len question)%Z.
Proof.
  unfold format_prompt. rewrite !len_app.
  change (len (lit "Answer the following question using ONLY the provided context. "))
    with 63%Z.
  change (len (lit "If the context does not contain the answer, reply 'Not found in video.' "))
    with 72%Z.
  change (len (lit "Context: ")) with 9%Z.
  change (len (lit " Question: ")) with 11%Z.
  change (len (lit " Answer:")) with 8%Z.
  lia.
Qed.

(** X17. The prompt always holds the whole question, after a prefix of
    the context.  When the question has at most 1800 characters the prompt
    has at most [MAX_CONTEXT_LENGTH] = 2000 characters; and a prompt that
    fits is not cut. *)
Theorem build_prompt_bounded :
  forall question context : str,
    (exists kept dropped,
        context = kept ++ dropped
        /\ build_prompt question context = format_prompt kept question)
    /\ ((len (format_prompt context question) <= MAX_CONTEXT_LENGTH)%Z ->
        build_prompt question context = format_prompt context question)
    /\ ((len question <= 1800)%Z ->
        (len (build_prompt question context) <= MAX_CONTEXT_LENGTH)%Z).
Proof.
  intros question context. unfold build_prompt. cbv zeta.
  destruct (Z.gtb_spec (len (format_prompt context question)) MAX_CONTEXT_LENGTH)
    as [Hgt|Hle].
  - split; [|split].
    + destruct (slice_to_firstn (MAX_CONTEXT_LENGTH - len question - 200) context)
        as (n & ->).
      exists (firstn n context), (skipn n context).
      split; [symmetry; apply firstn_skipn | reflexivity].
    + intros H. lia.
    + intros Hq. rewrite format_prompt_len.
      pose proof (@slice_to_length _ (MAX_CONTEXT_LENGTH - len question - 200)%Z context)
        as Hs.
      unfold MAX_CONTEXT_LENGTH in *. specialize (Hs ltac:(lia)). lia.
  - split; [|split].
    + exists context, []. rewrite app_nil_r. split; reflexivity.
    + reflexivity.
    + intros _. exact Hle.
Qed.

(** Witness for [build_prompt_bounded]: a short question. *)
Lemma build_prompt_bounded_witness :
  (len (build_prompt (lit "What is this?") (lit "Some context")) <= MAX_CONTEXT_LENGTH)%Z.
Proof.
  apply (proj2 (proj2 (build_prompt_bounded (lit "What is this?") (lit "Some context")))).
  vm_compute. discriminate.
Defined.

(* ----------------------------------------------------------------- *)
(** ** Answers *)
(* ----------------------------------------------------------------- *)

Lemma clean_answer_nonempty (rt : runtime) (answer : str) :
  str_lower rt [] = [] ->
  (forall c, nonempty (str_upper rt [c]) = true) ->
  nonempty (clean_answer rt answer) = true.
Proof.
  intros Hlow Hup. unfold clean_answer.
  destruct (nonempty answer); [|reflexivity]. cbn [negb]. cbv zeta.
  match goal with |- context [existsb (str_eqb (str_lower rt ?a)) _] =>
    generalize a end.
  intros a.
  destruct (existsb (str_eqb (str_lower rt a)) _) eqn:E; [reflexivity|].
  destruct a as [|first rest].
  - rewrite Hlow in E. discriminate E.
  - destruct (char_islower rt first); [|reflexivity].
    specialize (Hup first). destruct (str_upper rt [first]); [discriminate Hup | reflexivity].
Qed.

(** X18. With a case table under which lowering the empty string gives
    the empty string and raising a character never gives it,
    [clean_answer] never returns the empty string, and neither does
    [generate_answer]; so the test [if answer] that [answer_question]
    makes before it appends the citations never fails. *)
Theorem answers_are_not_empty :
  forall rt : runtime,
    str_lower rt [] = [] ->
    (forall c, nonempty (str_upper rt [c]) = true) ->
    (forall answer, nonempty (clean_answer rt answer) = true)
    /\ (forall question context w answer w',
          generate_answer rt question context w = (Ok answer, w') ->
          nonempty answer = true).
Proof.
  intros rt Hlow Hup.
  split; [intros answer; apply clean_answer_nonempty; assumption|].
  intros question context w answer w'. unfold generate_answer. cbv zeta.
  unfold try_except, bind, ret.
  destruct (if OFFLINE_MODE rt then _ else _) as [[response|e] w1].
  - intros [= <- _]. apply clean_answer_nonempty; assumption.
  - intros [= <- _]. reflexivity.
Qed.

(** Witness for [answers_are_not_empty]: the ASCII case table and an
    answer that only repeats the prompt. *)
Lemma answers_are_not_empty_witness :
  nonempty (clean_answer
              (example_runtime false (@failing_service _) (@failing_service _))
              (lit "Answer:  ")) = true.
Proof.
  apply (@answers_are_not_empty
           (example_runtime false (@failing_service _) (@failing_service _))).
  - reflexivity.
  - intros c. reflexivity.
Defined.

(** X19. Appending the citations is idempotent, and only ever adds to the
    end of the answer: an answer that already went through
    [add_citations] is not given the citations a second time. *)
Theorem add_citations_idempotent :
  forall (answer : str) (citations : list str),
    add_citations (add_citations answer citations) citations
    = add_citations answer citations
    /\ exists suffix, add_citations answer citations = answer ++ suffix.
Proof.
  intros answer citations.
  destruct (nonempty answer && negb (str_eqb answer NOT_FOUND) && nonempty citations)
    eqn:G.
  - destruct (existsb (fun citation => contains citation answer) citations) eqn:E.
    + assert (Hr : add_citations answer citations = answer)
        by (unfold add_citations; rewrite G, E; reflexivity).
      rewrite Hr. split; [exact Hr|]. exists []. symmetry. apply app_nil_r.
    + assert (Hr : add_citations answer citations
                   = answer ++ lit " " ++ join (lit " ") citations)
        by (unfold add_citations; rewrite G, E; reflexivity).
      rewrite Hr. split; [|eauto].
      destruct citations as [|c rest]; [rewrite !andb_false_r in G; discriminate G|].
      clear G E Hr. unfold add_citations.
      destruct (_ && _ && _); [|reflexivity].
      assert (Hc : contains c (answer ++ lit " " ++ join (lit " ") (c :: rest)) = true).
      { destruct (@join_In_split (lit " ") (c :: rest) c) as (pre & post & ->);
          [left; reflexivity|].
        rewrite !app_assoc, <- app_assoc. apply contains_app. }
      cbn [existsb]. rewrite Hc. reflexivity.
  - assert (Hr : add_citations answer citations = answer)
      by (unfold add_citations; rewrite G; reflexivity).
    rewrite Hr. split; [exact Hr|]. exists []. symmetry. apply app_nil_r.
Qed.

(* ----------------------------------------------------------------- *)
(** ** Translation *)
(* ----------------------------------------------------------------- *)

(** X20. [translate_to_english] never raises.  A blank text is returned
    as it is, with no call.  Otherwise the text-generation model is called
    between one and [MAX_RETRIES] times, whether or not offline mode is
    on; a string answer is returned trimmed, as is the string under
    ['generated_text'] of a dictionary; and in every other case (the last
    attempt raised, the answer has another shape, or the value under
    ['generated_text'] is not a string) the original text is returned.
    [translate_content] with a target other than English returns the text
    as it is, with no call. *)
Theorem translate_to_english_properties :
  forall (rt : runtime) (text : str) (w : world),
    exists result w',
      translate_to_english rt text w = (Ok result, w')
      /\ (has_text text = false -> result = text /\ w' = w)
      /\ (has_text text = true ->
          let prompt := lit "Translate the following text to English: " ++ text in
          exists k,
            1 <= k <= MAX_RETRIES
            /\ w' = mkWorld (embeddings_cache w)
                            (calls w ++ repeat (TextGeneration prompt) k)
            /\ result
               = match text_generation rt
                         (calls w ++ repeat (TextGeneration prompt) (k - 1)) prompt with
                 | Ok (VStr s) => strip s
                 | Ok (VDict items) =>
                     match dict_get items (lit "generated_text") with
                     | Some (VStr s) => strip s
                     | _ => text
                     end
                 | _ => text
                 end)
      /\ (forall target_language,
            str_eqb (str_lower rt target_language) (lit "en") = false ->
            translate_content rt text target_language w = (Ok text, w)).
Proof.
  intros rt text w.
  assert (Hother : forall target_language,
             str_eqb (str_lower rt target_language) (lit "en") = false ->
             translate_content rt text target_language w = (Ok text, w))
    by (intros t Ht; unfold translate_content; rewrite Ht; reflexivity).
  unfold translate_to_english. rewrite strip_nonempty.
  destruct (has_text text) eqn:Ht; cbn [negb].
  - cbv zeta.
    set (prompt := lit "Translate the following text to English: " ++ text).
    destruct (@retry_from_logged _ (fun cs => text_generation rt cs prompt)
                (TextGeneration prompt) MAX_RETRIES
                (TypeError (lit "exceptions must derive from BaseException")) w
                ltac:(unfold MAX_RETRIES; lia))
      as (k & Hk & Hrun & _ & _).
    unfold try_except, bind, rate_limit_retry.
    rewrite call_text_generation_logged, Hrun.
    destruct (text_generation rt (calls w ++ repeat (TextGeneration prompt) (k - 1)) prompt)
      as [response|e] eqn:Er.
    + destruct response as [|z|s|items|items];
        try (eexists _, _; split; [reflexivity|]; split; [discriminate|];
             split; [|exact Hother]; intros _; exists k; rewrite Er;
             split; [lia|]; split; reflexivity).
      destruct (dict_get items (lit "generated_text")) as [[|z|s|l|d]|] eqn:Ed;
        (eexists _, _; split; [reflexivity|]; split; [discriminate|];
         split; [|exact Hother]; intros _; exists k; rewrite Er, Ed;
         split; [lia|]; split; reflexivity).
    + eexists _, _. split; [reflexivity|]. split; [discriminate|].
      split; [|exact Hother]. intros _. exists k. rewrite Er.
      split; [lia|]. split; reflexivity.
  - exists text, w. split; [reflexivity|]. split; [auto|].
    split; [discriminate | exact Hother].
Qed.
(* ----------------------------------------------------------------- *)
(** ** The transcript preview *)
(* ----------------------------------------------------------------- *)

Lemma rfind_from_spec (c : char) (s : str) :
  forall index found,
    rfind_from c s index found = found
    \/ exists k, k < length s
         /\ rfind_from c s index found = (index + Z.of_nat k)%Z
         /\ nth_error s k = Some c.
Proof.
  induction s as [|x s IH]; intros index found; cbn [rfind_from]; [left; reflexivity|].
  destruct (IH (index + 1)%Z (if N.eqb x c then index else found))
    as [H|(k & Hk & H & Hn)].
  - rewrite H. destruct (N.eqb_spec x c) as [->|_]; [|left; reflexivity].
    right. exists 0. cbn [length nth_error]. split; [lia|]. split; [lia | reflexivity].
  - right. exists (S k). cbn [length nth_error]. split; [lia|]. split; [lia | exact Hn].
Qed.

Lemma rfind_spec (c : char) (s : str) :
  rfind c s = (-1)%Z
  \/ exists k, k < length s /\ rfind c s = Z.of_nat k /\ nth_error s k = Some c.
Proof.
  unfold rfind. destruct (rfind_from_spec c s 0 (-1)) as [H|(k & Hk & H & Hn)]; [left; exact H|].
  right. exists k. split; [exact Hk|]. split; [lia | exact Hn].
Qed.

Lemma skipn_nth_error (A : Type) (l : list A) (k : nat) (x : A) :
  nth_error l k = Some x -> skipn k l = x :: skipn (S k) l.
Proof.
  revert k. induction l as [|y l IH]; intros [|k] H; try discriminate.
  - injection H as ->. reflexivity.
  - cbn [nth_error] in H. cbn [skipn]. exact (IH k H).
Qed.

(** X21. The preview of a transcript that fits is the transcript.
    Otherwise, for a limit that is not negative, it is a prefix of the
    transcript of at most [max_chars] characters followed by the marker:
    either the first [max_chars] characters, or a shorter prefix, longer
    than eight tenths of the limit, that ends just before a line feed. *)
Theorem get_transcript_preview_properties :
  forall (transcript_text : str) (max_chars : Z),
    ((len transcript_text <= max_chars)%Z ->
     get_transcript_preview transcript_text max_chars = transcript_text)
    /\ ((max_chars < len transcript_text)%Z -> (0 <= max_chars)%Z ->
        exists kept rest,
          transcript_text = kept ++ rest
          /\ get_transcript_preview transcript_text max_chars = kept ++ PREVIEW_MARKER
          /\ (len kept <= max_chars)%Z
          /\ (len kept = max_chars
              \/ ((8 * max_chars < 10 * len kept)%Z
                  /\ exists rest', rest = NEWLINE :: rest'))).
Proof.
  intros t max. unfold get_transcript_preview. cbv zeta. split.
  - intros H. apply Z.leb_le in H. rewrite H. reflexivity.
  - intros Hlt Hmax.
    destruct (Z.leb_spec (len t) max) as [|_]; [lia|].
    assert (Hslice : slice_to max t = firstn (Z.to_nat max) t).
    { unfold slice_to. destruct (Z.ltb_spec max 0); [lia | reflexivity]. }
    rewrite Hslice.
    assert (Hlen : length (firstn (Z.to_nat max) t) = Z.to_nat max).
    { apply firstn_length_le. unfold len in Hlt. lia. }
    destruct (Qltb (inject_Z max * (8 # 10)) (inject_Z (rfind NEWLINE (firstn (Z.to_nat max) t))))
      eqn:Hcut.
    + apply Qltb_lt in Hcut. unfold Qlt in Hcut. cbn [Qnum Qden inject_Z Qmult] in Hcut.
      destruct (rfind_spec NEWLINE (firstn (Z.to_nat max) t)) as [E|(k & Hk & E & Hn)].
      { rewrite E in Hcut. lia. }
      rewrite E in Hcut |- *.
      assert (Hs : slice_to (Z.of_nat k) (firstn (Z.to_nat max) t) = firstn k t).
      { unfold slice_to. destruct (Z.ltb_spec (Z.of_nat k) 0); [lia|].
        rewrite Nat2Z.id, firstn_firstn. f_equal. lia. }
      rewrite Hs.
      assert (Hnt : nth_error t k = Some NEWLINE).
      { rewrite nth_error_firstn in Hn.
        destruct (Nat.ltb_spec k (Z.to_nat max)); [exact Hn | lia]. }
      assert (Hk' : length (firstn k t) = k).
      { apply firstn_length_le. unfold len in Hlt. lia. }
      exists (firstn k t), (skipn k t).
      split; [symmetry; apply firstn_skipn|]. split; [reflexivity|].
      unfold len. rewrite Hk'. split; [lia|]. right. split; [lia|].
      exists (skipn (S k) t). apply skipn_nth_error, Hnt.
    + exists (firstn (Z.to_nat max) t), (skipn (Z.to_nat max) t).
      split; [symmetry; apply firstn_skipn|]. split; [reflexivity|].
      unfold len. rewrite Hlen. split; [lia | left; lia].
Qed.

(** Witness for [get_transcript_preview_properties]: a limit of sixteen
    characters cuts the second line. *)
Lemma get_transcript_preview_properties_witness :
  exists kept rest,
    lit "[00:00] Hello" ++ [NEWLINE] ++ lit "[00:05] world" = kept ++ rest
    /\ get_transcript_preview (lit "[00:00] Hello" ++ [NEWLINE] ++ lit "[00:05] world") 16
       = kept ++ PREVIEW_MARKER
    /\ (len kept <= 16)%Z
    /\ (len kept = 16%Z
        \/ ((8 * 16 < 10 * len kept)%Z /\ exists rest', rest = NEWLINE :: rest')).
Proof.
  apply (proj2 (get_transcript_preview_properties
                  (lit "[00:00] Hello" ++ [NEWLINE] ++ lit "[00:05] world") 16)).
  - reflexivity.
  - discriminate.
Defined.
(* ----------------------------------------------------------------- *)
(** ** From raw segments to chunks *)
(* ----------------------------------------------------------------- *)

Lemma trimmed_has_text (t : str) : trimmed t -> has_text t = true.
Proof.
  intros [H _]. destruct t as [|c t]; [contradiction|].
  unfold has_text. cbn [existsb]. rewrite H. reflexivity.
Qed.

(** A line with text lies in a chunk that holds its text. *)
Lemma line_in_chunk (segments : list parsed_line)
    (chunk_size : option Z) (overlap_percent : option Q) (line : parsed_line) :
  (0 < or_default Z_is_zero chunk_size CHUNK_SIZE_TOKENS)%Z ->
  In line segments -> has_text (line_text line) = true ->
  exists chunks c,
    chunk_segments segments chunk_size overlap_percent = Some chunks
    /\ In c chunks /\ contains (line_text line) (text c) = true.
Proof.
  intros Hcs Hin Ht.
  set (cs := or_default Z_is_zero chunk_size CHUNK_SIZE_TOKENS) in *.
  set (ov := or_default Qis_zero overlap_percent CHUNK_OVERLAP_PERCENT).
  set (ws := chunk_windows (length segments) segments cs ov 0).
  destruct (In_nth_error _ _ Hin) as (k & Hk).
  assert (Hlen : k < length segments) by (apply nth_error_Some; congruence).
  assert (Hc : window_chain segments cs ov 0 ws)
    by (apply chunk_windows_chain; [exact Hcs | lia]).
  destruct (window_chain_cover Hc (k := k)) as (a & b & Hw & Hab); [lia|].
  pose proof (window_lines_In segments Hab Hk) as Hline.
  assert (Hblank : nonempty (strip (window_text segments (a, b))) = true).
  { rewrite strip_nonempty. unfold window_text.
    apply (join_has_text _ _ (line_text line)); [|exact Ht].
    apply in_map. exact Hline. }
  destruct (emit_In segments ws (a, b) Hw Hblank 0%Z) as (id & Hchunk).
  eexists _, _. split; [apply chunk_segments_emit|]. split; [exact Hchunk|].
  cbn [text]. unfold window_text.
  destruct (@join_In_split (lit " ") (map line_text (window_lines segments (a, b)))
              (line_text line)) as (pre & post & ->); [apply in_map; exact Hline|].
  apply contains_app.
Qed.

(** X22. Raw segments whose starts lie between zero and a hundred hours,
    normalised and then chunked with a positive budget: the text of every
    merged segment occurs in the text of some chunk; so a normalised
    transcript that is not blank yields at least one chunk, and once
    [process_video] has checked that the normalised transcript is not
    blank, its check that there are chunks cannot fail. *)
Theorem normalized_segments_reach_chunks :
  forall (transcript_data : list raw_segment)
         (chunk_size : option Z) (overlap_percent : option Q),
    Forall start_in_range transcript_data ->
    (0 < or_default Z_is_zero chunk_size CHUNK_SIZE_TOKENS)%Z ->
    exists chunks,
      chunk_transcript (normalize_transcript transcript_data) chunk_size overlap_percent
      = Some chunks
      /\ (forall s,
            In s (merge_short_segments (normalized_segments transcript_data)
                    DEFAULT_MIN_DURATION) ->
            exists c, In c chunks /\ contains (seg_text s) (text c) = true)
      /\ (has_text (normalize_transcript transcript_data) = true -> chunks <> []).
Proof.
  intros data chunk_size overlap_percent Hdata Hcs.
  set (merged := merge_short_segments (normalized_segments data) DEFAULT_MIN_DURATION).
  pose proof (parse_lines_normalized Hdata) as Hparse. fold merged in Hparse.
  pose proof (normalized_in_range Hdata) as Hm. fold merged in Hm.
  unfold chunk_transcript. rewrite Hparse.
  eexists. split; [apply chunk_segments_emit|].
  assert (Hcover : forall s, In s merged ->
            exists c, In c (emit (map line_of_segment merged)
                              (chunk_windows (length (map line_of_segment merged))
                                 (map line_of_segment merged)
                                 (or_default Z_is_zero chunk_size CHUNK_SIZE_TOKENS)
                                 (or_default Qis_zero overlap_percent CHUNK_OVERLAP_PERCENT) 0)
                              0%Z)
                      /\ contains (seg_text s) (text c) = true).
  { intros s Hs.
    rewrite Forall_forall in Hm. destruct (Hm s Hs) as ((Ht & _) & _).
    destruct (@line_in_chunk (map line_of_segment merged) chunk_size overlap_percent
                (line_of_segment s) Hcs (in_map _ _ _ Hs) (trimmed_has_text Ht))
      as (chunks & c & Hrun & Hc & Hcont).
    rewrite chunk_segments_emit in Hrun. injection Hrun as <-.
    exists c. split; [exact Hc | exact Hcont]. }
  split; [exact Hcover|].
  intros Htext.
  destruct merged as [|first more] eqn:E.
  - rewrite normalize_transcript_join in Htext. fold merged in Htext.
    rewrite E in Htext. discriminate Htext.
  - destruct (Hcover first (or_introl eq_refl)) as (c & Hc & _).
    intros Hnil. rewrite Hnil in Hc. exact Hc.
Qed.

(** Witness for [normalized_segments_reach_chunks]: two segments and the
    configured budget. *)
Lemma normalized_segments_reach_chunks_witness :
  exists chunks,
    chunk_transcript
      (normalize_transcript
         [mkRaw (Some (lit "Hello world")) (Some 0%Q) (Some 3%Q);
          mkRaw (Some (lit "This is a test")) (Some 3%Q) (Some 3%Q)]) None None
    = Some chunks
    /\ chunks <> [].
Proof.
  destruct (@normalized_segments_reach_chunks
              [mkRaw (Some (lit "Hello world")) (Some 0%Q) (Some 3%Q);
               mkRaw (Some (lit "This is a test")) (Some 3%Q) (Some 3%Q)] None None)
    as (chunks & Hrun & _ & Hne).
  - repeat constructor; discriminate.
  - reflexivity.
  - exists chunks. split; [exact Hrun|]. apply Hne. vm_compute. reflexivity.
Defined.
(* ----------------------------------------------------------------- *)
(** ** Citations and the budget of the context *)
(* ----------------------------------------------------------------- *)

Lemma two_digits_length (s : str) : two_digits s = true -> length s = 2.
Proof. intros H. destruct (two_digits_inv _ H) as (a & b & -> & _). reflexivity. Qed.

Lemma timestamp_of_fields_length (n : Z) :
  (0 <= n < 360000)%Z ->
  length (timestamp_of_fields n) = if (0 <? n / 3600)%Z then 8 else 5.
Proof.
  intros Hn. unfold timestamp_of_fields.
  assert (Hh : (0 <= n / 3600 < 100)%Z) by (Z.div_mod_to_equations; lia).
  assert (Hm : (0 <= n mod 3600 / 60 < 100)%Z) by (Z.div_mod_to_equations; lia).
  assert (Hc : (0 <= n mod 60 < 100)%Z) by (Z.div_mod_to_equations; lia).
  pose proof (two_digits_length _ (fmt_02d_two Hh)) as Lh.
  pose proof (two_digits_length _ (fmt_02d_two Hm)) as Lm.
  pose proof (two_digits_length _ (fmt_02d_two Hc)) as Lc.
  destruct (0 <? n / 3600)%Z; rewrite !length_app, ?Lh, ?Lm, ?Lc; reflexivity.
Qed.

Lemma format_timestamp_length (seconds limit : Q) :
  (0 <= seconds)%Q -> (seconds < limit)%Q -> (limit <= 360000)%Q ->
  length (format_timestamp seconds)
  = if (0 <? Qfloor seconds / 3600)%Z then 8 else 5.
Proof.
  intros H0 H1 H2. rewrite format_timestamp_fields.
  apply timestamp_of_fields_length. split; [apply Qfloor_nonneg, H0|].
  apply Qfloor_lt. eapply Qlt_le_trans; [exact H1 | exact H2].
Qed.

Lemma get_citation_length (c : TranscriptChunk) :
  times_below 360000 c ->
  len (get_citation c)
  = (3 + Z.of_nat (length (format_timestamp (start_time c)))
       + Z.of_nat (length (format_timestamp (end_time c))))%Z
  /\ (len (get_citation c) <= 19)%Z.
Proof.
  intros ((Hs0 & Hs1) & (He0 & He1)).
  assert (E : len (get_citation c)
              = (3 + Z.of_nat (length (format_timestamp (start_time c)))
                   + Z.of_nat (length (format_timestamp (end_time c))))%Z).
  { unfold get_citation, len. rewrite !length_app. cbn [length lit map list_ascii_of_string].
    lia. }
  split; [exact E|]. rewrite E.
  rewrite (@format_timestamp_length (start_time c) 360000 Hs0 Hs1 ltac:(apply Qle_refl)).
  rewrite (@format_timestamp_length (end_time c) 360000 He0 He1 ltac:(apply Qle_refl)).
  destruct (0 <? _)%Z; destruct (0 <? _)%Z; lia.
Qed.

(** X23. A citation of a chunk whose times lie under an hour has 13
    characters, and under a hundred hours at most 19.  Hence, for ranked
    chunks under a hundred hours and a budget in force of at least 20
    characters (the configured 2000, for one), the context that
    [prepare_context] returns does not exceed the budget. *)
Theorem prepare_context_within_budget :
  (forall c : TranscriptChunk, times_below 3600 c -> len (get_citation c) = 13%Z)
  /\ (forall c : TranscriptChunk, times_below 360000 c -> (len (get_citation c) <= 19)%Z)
  /\ (forall (similar_chunks : list (TranscriptChunk * R)) (max_length : option Z),
        let m := or_default Z_is_zero max_length MAX_CONTEXT_LENGTH in
        (20 <= m)%Z ->
        Forall (fun p => times_below 360000 (fst p)) similar_chunks ->
        (len (prepare_context similar_chunks max_length) <= m)%Z).
Proof.
  split; [|split].
  - intros c ((Hs0 & Hs1) & (He0 & He1)).
    assert (Hc : times_below 360000 c).
    { split; split; try assumption;
        (eapply Qlt_le_trans; [eassumption | discriminate]). }
    rewrite (proj1 (get_citation_length Hc)).
    rewrite (@format_timestamp_length (start_time c) 3600 Hs0 Hs1 ltac:(discriminate)).
    rewrite (@format_timestamp_length (end_time c) 3600 He0 He1 ltac:(discriminate)).
    pose proof (Qfloor_nonneg Hs0). pose proof (Qfloor_nonneg He0).
    pose proof (@Qfloor_lt (start_time c) 3600 Hs1).
    pose proof (@Qfloor_lt (end_time c) 3600 He1).
    destruct (Z.ltb_spec 0 (Qfloor (start_time c) / 3600));
      [exfalso; Z.div_mod_to_equations; lia|].
    destruct (Z.ltb_spec 0 (Qfloor (end_time c) / 3600));
      [exfalso; Z.div_mod_to_equations; lia|].
    reflexivity.
  - intros c Hc. exact (proj2 (get_citation_length Hc)).
  - intros sims max_length m Hm Hall.
    destruct sims as [|[chunk score] rest]; [cbn; lia|].
    inversion Hall as [|? ? Hchunk _]; subst. cbn [fst] in Hchunk.
    pose proof (proj2 (get_citation_length Hchunk)) as Hcit.
    destruct (prepare_context_run chunk score rest max_length)
      as (n & _ & Hrun & Hfit & _).
    fold m in Hrun, Hfit.
    rewrite Hrun, join_blank_len by discriminate.
    pose proof (@first_block_fits m chunk ltac:(lia)) as Hf.
    destruct Hfit as [->|Hfit]; [|lia].
    cbn [firstn map counted fold_right]. lia.
Qed.

(** Witness for [prepare_context_within_budget]: a chunk under an hour. *)
Lemma prepare_context_within_budget_witness :
  len (get_citation (mkChunk (lit "Hello world") 0 83 0)) = 13%Z.
Proof.
  apply (proj1 prepare_context_within_budget (mkChunk (lit "Hello world") 0 83 0)).
  repeat split; discriminate.
Defined.
(* ----------------------------------------------------------------- *)
(** ** The text handed to the summariser *)
(* ----------------------------------------------------------------- *)

Lemma firstn_S_nth_error (A : Type) (l : list A) (k : nat) (x : A) :
  nth_error l k = Some x -> firstn (S k) l = firstn k l ++ [x].
Proof.
  revert k. induction l as [|y l IH]; intros [|k] H; try discriminate.
  - injection H as ->. reflexivity.
  - cbn [nth_error] in H. cbn [firstn app]. rewrite <- (IH k H). reflexivity.
Qed.

(** X24. A text that fits is handed to the summariser whole.  Otherwise,
    for a limit that is not negative, a prefix of at most [max_length]
    characters is: either the first [max_length] characters, or a shorter
    prefix, longer than eight tenths of the limit, that ends with a full
    stop, an exclamation mark or a question mark. *)
Theorem prepare_text_for_summarization_properties :
  forall (transcript_text : str) (max_length : Z),
    ((len transcript_text <= max_length)%Z ->
     prepare_text_for_summarization transcript_text max_length = transcript_text)
    /\ ((max_length < len transcript_text)%Z -> (0 <= max_length)%Z ->
        let prepared := prepare_text_for_summarization transcript_text max_length in
        (exists rest, transcript_text = prepared ++ rest)
        /\ (len prepared <= max_length)%Z
        /\ (len prepared = max_length
            \/ ((8 * max_length < 10 * (len prepared - 1))%Z
                /\ exists body c,
                     prepared = body ++ [c]
                     /\ (c = 46%N \/ c = 33%N \/ c = 63%N)))).
Proof.
  intros t max. unfold prepare_text_for_summarization. cbv zeta. split.
  - intros H. apply Z.leb_le in H. rewrite H. reflexivity.
  - intros Hlt Hmax.
    destruct (Z.leb_spec (len t) max) as [|_]; [lia|].
    assert (Hslice : slice_to max t = firstn (Z.to_nat max) t).
    { unfold slice_to. destruct (Z.ltb_spec max 0); [lia | reflexivity]. }
    rewrite Hslice.
    set (truncated := firstn (Z.to_nat max) t).
    assert (Hlen : length truncated = Z.to_nat max).
    { apply firstn_length_le. unfold len in Hlt. lia. }
    set (last := Z.max (Z.max (rfind 46%N truncated) (rfind 33%N truncated))
                       (rfind 63%N truncated)).
    destruct (Qltb (inject_Z max * (8 # 10)) (inject_Z last)) eqn:Hcut.
    + apply Qltb_lt in Hcut. unfold Qlt in Hcut. cbn [Qnum Qden inject_Z Qmult] in Hcut.
      assert (Hfound : exists k c,
                 k < length truncated /\ last = Z.of_nat k
                 /\ nth_error truncated k = Some c
                 /\ (c = 46%N \/ c = 33%N \/ c = 63%N)).
      { destruct (rfind_spec 46%N truncated) as [E1|(k1 & Hk1 & E1 & Hn1)];
          destruct (rfind_spec 33%N truncated) as [E2|(k2 & Hk2 & E2 & Hn2)];
          destruct (rfind_spec 63%N truncated) as [E3|(k3 & Hk3 & E3 & Hn3)];
          subst last; rewrite E1, E2, E3 in *;
          try (exfalso; lia);
          match goal with
          | |- context [Z.max (Z.max ?a ?b) ?c] =>
              destruct (Z.max_spec a b) as [[_ Hab]|[_ Hab]];
              destruct (Z.max_spec (Z.max a b) c) as [[_ Hc]|[_ Hc]];
              rewrite Hc, ?Hab
          end;
          try (exfalso; lia);
          eauto 10. }
      destruct Hfound as (k & c & Hk & E & Hn & Hc).
      rewrite E in Hcut |- *.
      assert (Hs : slice_to (Z.of_nat k + 1) truncated = firstn (S k) t).
      { unfold slice_to. destruct (Z.ltb_spec (Z.of_nat k + 1) 0); [lia|].
        replace (Z.to_nat (Z.of_nat k + 1)) with (S k) by lia.
        unfold truncated. rewrite firstn_firstn. f_equal. lia. }
      rewrite Hs.
      assert (Hnt : nth_error t k = Some c).
      { unfold truncated in Hn. rewrite nth_error_firstn in Hn.
        destruct (Nat.ltb_spec k (Z.to_nat max)); [exact Hn | lia]. }
      assert (Hk' : length (firstn (S k) t) = S k).
      { apply firstn_length_le. unfold len in Hlt. lia. }
      split; [exists (skipn (S k) t); symmetry; apply firstn_skipn|].
      unfold len. rewrite Hk'. split; [lia|]. right. split; [lia|].
      exists (firstn k t), c. split; [apply firstn_S_nth_error, Hnt | exact Hc].
    + split; [exists (skipn (Z.to_nat max) t); symmetry; apply firstn_skipn|].
      unfold len. rewrite Hlen. split; [lia | left; lia].
Qed.

(** Witness for [prepare_text_for_summarization_properties]: with a limit
    of fourteen characters the text is cut to its first fourteen; the full
    stop at index 11 is not past 0.8 * 14, so it is not cut there. *)
Lemma prepare_text_for_summarization_properties_witness :
  (len (prepare_text_for_summarization (lit "Hello world. And more words") 14) <= 14)%Z.
Proof.
  apply (proj2 (prepare_text_for_summarization_properties
                  (lit "Hello world. And more words") 14)).
  - reflexivity.
  - discriminate.
Defined.
